(** * synthaser.results: overlap resolution and fragment merging of
      conserved-domain hits

    A shallow embedding of [synthaser/results.py] (the filtering half of the
    module: [is_fragmented_domain], [filter_domains],
    [choose_representative_domain], [group_overlapping_hits],
    [filter_results]) together with the properties its specification states.

    Modelling choices, all taken from the source:
    - [Domain] objects are mutable Python objects.  They live in an object
      store and every list holds references to them, so the assignment
      [previous.end = current.end] is visible through every alias.
    - [DOMAINS] is a module-level dictionary and [LOG] a module-level logger;
      both are components of the global state.
    - Python integers are unbounded ([Z]); Python floats are IEEE binary64
      (Rocq's primitive [float]); mixed int/float comparisons are exact, as
      in CPython.
    - Exceptions are values of [exn]; a function that can raise returns a
      [result]. *)

From Stdlib Require Import ZArith Lia Floats.
From stdpp Require Import base option list sorting strings gmap.

Local Open Scope Z_scope.

(** Decimal float literals denote the nearest binary64 value, as they do in
    Python. *)
#[global] Set Warnings "-inexact-float".

(** ** Exceptions *)

Inductive exn : Type :=
  | ValueError (msg : string)
  | KeyError (key : string)
  | IndexError
  | ZeroDivisionError
  | OverflowError.

Inductive result (A : Type) : Type :=
  | Ok (a : A)
  | Raise (e : exn).
Arguments Ok {A} a.
Arguments Raise {A} e.

#[global] Instance result_ret : MRet result := fun _ a => Ok a.
#[global] Instance result_bind : MBind result := fun _ _ f m =>
  match m with
  | Ok a => f a
  | Raise e => Raise e
  end.

(** ** Data model *)

(** [synthaser.models.Domain]: the attributes [domain_from_row] fills in. *)
Record Domain : Type := mkDomain {
  pssm : string;
  type : string;
  domain : string;
  start : Z;
  end_ : Z;
  evalue : float;
  bitscore : float;
  partial : string;
  accession : string;
  superfamily : string;
}.

#[global] Instance Domain_inhabited : Inhabited Domain :=
  populate (mkDomain "" "" "" 0 0 0%float 0%float "" "" "").

(** One value of the [DOMAINS] dictionary: [{"type": .., "length": ..,
    "bitscore": ..}] as loaded from domains.json.  The JSON file is not part
    of the module; the field types are those of the registry entry in the
    specification (integer length, float bitscore threshold). *)
Record DomainInfo : Type := mkInfo {
  info_type : string;
  info_length : Z;
  info_bitscore : float;
}.

(** A reference to a [Domain] object: its address in the object store. *)
Abbreviation ref := nat.

(** The global state: the Python objects, the module-level [DOMAINS]
    dictionary, and what has been sent to [LOG.error]. *)
Record state : Type := mkState {
  objects : list Domain;
  DOMAINS : gmap string DomainInfo;
  LOG : list string;
}.

Definition deref (st : state) (r : ref) : Domain := objects st !!! r.

Definition with_end (d : Domain) (e : Z) : Domain :=
  mkDomain (pssm d) (type d) (domain d) (start d) e (evalue d) (bitscore d)
           (partial d) (accession d) (superfamily d).

(** [r.end = e] *)
Definition set_end (st : state) (r : ref) (e : Z) : state :=
  mkState (<[r := with_end (deref st r) e]> (objects st)) (DOMAINS st) (LOG st).

(** [LOG.error(fmt, name)] *)
Definition log_error (st : state) (msg : string) : state :=
  mkState (objects st) (DOMAINS st) (LOG st ++ [msg]).

(** [update_domains]: [DOMAINS.clear(); DOMAINS.update(new)], the only writer
    of the registry in the module. *)
Definition update_domains (st : state) (new : gmap string DomainInfo) : state :=
  mkState (objects st) new (LOG st).

(** [DOMAINS[key]] *)
Definition DOMAINS_get (st : state) (key : string) : result DomainInfo :=
  match DOMAINS st !! key with
  | Some info => Ok info
  | None => Raise (KeyError key)
  end.

(** ** Python numbers *)

(** Conversion of an int to a float, as done for the int operand of a mixed
    arithmetic operation: round to nearest even, [OverflowError] when the
    rounded value does not fit. *)
Definition float_of_int (z : Z) : result float :=
  match binary_normalize prec emax z 0 false with
  | S754_infinity _ => Raise OverflowError
  | sf => Ok (SF2Prim sf)
  end.

(** Comparison of an int with a float is exact in CPython: the integer is
    not rounded first.  [None] when the float is a NaN. *)
Definition int_compare_float (z : Z) (f : float) : option comparison :=
  match Prim2SF f with
  | S754_nan => None
  | S754_infinity s => Some (if s then Gt else Lt)
  | S754_zero _ => Some (z ?= 0)
  | S754_finite s m e =>
      let v := if s then Z.neg m else Z.pos m in
      Some (if 0 <=? e then z ?= v * 2 ^ e else z * 2 ^ (- e) ?= v)
  end.

Definition int_lt_float (z : Z) (f : float) : bool :=
  match int_compare_float z f with Some Lt => true | _ => false end.
Definition int_le_float (z : Z) (f : float) : bool :=
  match int_compare_float z f with Some (Lt | Eq) => true | _ => false end.
Definition int_gt_float (z : Z) (f : float) : bool :=
  match int_compare_float z f with Some Gt => true | _ => false end.
Definition int_ge_float (z : Z) (f : float) : bool :=
  match int_compare_float z f with Some (Gt | Eq) => true | _ => false end.

(** [x / y] on floats *)
Definition float_truediv (x y : float) : result float :=
  if (y =? 0)%float then Raise ZeroDivisionError else Ok (x / y)%float.

(** The values used as sort keys. *)
Inductive pynum : Type :=
  | PyInt (z : Z)
  | PyFloat (f : float).

(** [a < b] *)
Definition py_lt (a b : pynum) : bool :=
  match a, b with
  | PyInt x, PyInt y => x <? y
  | PyFloat x, PyFloat y => (x <? y)%float
  | PyInt x, PyFloat y => int_lt_float x y
  | PyFloat x, PyInt y => int_gt_float y x
  end.

(** ** [sorted]

    [list.sort] is a stable sort that only ever asks [<] of the keys, and the
    keys are computed for every element before the first comparison.  It is
    modelled by a stable insertion sort on the decorated list: whenever [<] is
    a strict weak order on the keys at hand, the stable sorted permutation is
    unique, so this is the list CPython produces.  With [reverse=True] CPython
    reverses the list, sorts, and reverses the result, which keeps ties in
    their original order. *)

Fixpoint insort {K A : Type} (lt : K → K → bool) (x : K * A) (l : list (K * A))
  : list (K * A) :=
  match l with
  | [] => [x]
  | y :: l' => if lt y.1 x.1 then y :: insort lt x l' else x :: y :: l'
  end.

Definition stable_sort {K A : Type} (lt : K → K → bool) (l : list (K * A))
  : list (K * A) :=
  foldr (insort lt) [] l.

Definition sorted_decorated {K A : Type} (lt : K → K → bool)
    (decorated : list (K * A)) (reverse_ : bool) : list A :=
  (if reverse_ then reverse (stable_sort lt (reverse decorated))
   else stable_sort lt decorated).*2.

(** [sorted(l, key=key, reverse=reverse)]; a key function that raises ends
    the call before anything is compared. *)
Definition sorted {A : Type} (l : list A) (key : A → result pynum)
    (reverse_ : bool) : result (list A) :=
  keys ← mapM key l;
  mret (sorted_decorated py_lt (zip keys l) reverse_).

(** ** [is_fragmented_domain] *)

(** Modelled from the spec: [Domain.__len__] lives in synthaser/models.py,
    which is not part of the module; the data model gives the derived
    attribute as length = end - start.  [len()] itself refuses a negative
    answer with ValueError (and one above [sys.maxsize], which sequence
    coordinates do not reach and which is left out). *)
Definition Domain_len (d : Domain) : result Z :=
  if end_ d - start d <? 0 then Raise (ValueError "__len__() should return >= 0")
  else Ok (end_ d - start d).

(** The operands of the final [and] chain cannot raise once the lengths are
    known (the int operand of [-] and [+] is the one already converted for
    [*]), so evaluating all of them gives the value of the short-circuit
    evaluation. *)
Definition is_fragmented_domain (st : state) (one two : ref)
    (coverage_pct tolerance_pct : float) : result bool :=
  if negb (String.eqb (type (deref st one)) (type (deref st two))) then
    Raise (ValueError "Expected Domain instances of same type")
  else
    info ← DOMAINS_get st (domain (deref st one));
    let pssm_length := info_length info in
    pssm_float ← float_of_int pssm_length;
    let coverage := (pssm_float * coverage_pct)%float in
    let tolerance := (pssm_float * tolerance_pct)%float in
    one_length ← Domain_len (deref st one);
    two_length ← Domain_len (deref st two);
    let span := end_ (deref st two) - start (deref st one) in
    mret (int_lt_float one_length coverage
          && int_lt_float two_length coverage
          && int_ge_float span (pssm_float - tolerance)%float
          && int_le_float span (pssm_float + tolerance)%float
          && int_gt_float (one_length + two_length) coverage).

(** ** [choose_representative_domain] *)

(** [d.bitscore / DOMAINS[d.domain]["bitscore"]] *)
Definition normalized_bitscore (st : state) (d : ref) : result float :=
  info ← DOMAINS_get st (domain (deref st d));
  float_truediv (bitscore (deref st d)) (info_bitscore info).

(** The [key_functions] dictionary: key function and [reverse] flag. *)
Definition key_functions (st : state) (by_ : string)
  : option ((ref → result pynum) * bool) :=
  if String.eqb by_ "bitscore" then
    Some (λ d, q ← normalized_bitscore st d; mret (PyFloat q), true)
  else if String.eqb by_ "evalue" then
    Some (λ d, mret (PyFloat (evalue (deref st d))), false)
  else if String.eqb by_ "length" then
    Some (λ d, mret (PyInt (end_ (deref st d) - start (deref st d))), true)
  else None.

Definition choose_representative_domain (st : state) (group : list ref)
    (by_ : string) : result ref :=
  match key_functions st by_ with
  | None => Raise (ValueError "Expected 'bitscore', 'evalue' or 'length'")
  | Some (key, reverse_) =>
      s ← sorted group key reverse_;
      match s with
      | [] => Raise IndexError
      | best :: _ => Ok best
      end
  end.

(** ** [group_overlapping_hits] *)

(** The [for domain in sorted_domains] loop; the groups it yields, in order,
    followed by the final [yield group]. *)
Fixpoint group_loop (st : state) (group : list ref) (border : Z)
    (sorted_domains : list ref) : list (list ref) :=
  match sorted_domains with
  | [] => [group]
  | d :: rest =>
      if start (deref st d) + 10 <=? border then
        group_loop st (group ++ [d]) (Z.max border (end_ (deref st d))) rest
      else
        group :: group_loop st [d] (end_ (deref st d)) rest
  end.

(** [sorted(domains, key=attrgetter("start"))]; reading the attribute
    cannot raise. *)
Definition sorted_by_start (st : state) (domains : list ref) : list ref :=
  sorted_decorated py_lt
    (zip ((λ d, PyInt (start (deref st d))) <$> domains) domains) false.

(** The generator, as the list of the groups it yields. *)
Definition group_overlapping_hits (st : state) (domains : list ref)
  : list (list ref) :=
  match sorted_by_start st domains with
  | [] => []
  | first :: rest => group_loop st [first] (end_ (deref st first)) rest
  end.

(** ** [filter_domains] *)

(** [domains[i:j]] for non-negative [i], [j]; the loop starts at [i = 1] and
    never decrements [i], so [i - 1] is not negative. *)
Definition slice {A : Type} (l : list A) (i j : nat) : list A :=
  take (j - i) (drop i l).

(** The state of the [while] loop.  [calls] is a ghost component: the pairs
    handed to [is_fragmented_domain] so far, oldest first. *)
Record scan : Type := mkScan {
  scan_i : nat;
  scan_domains : list ref;
  scan_st : state;
  scan_calls : list (ref * ref);
}.

(** [previous, current = domains[i - 1 : i + 1]] on a slice that has fewer
    than two elements (CPython's message also says how many it got). *)
Definition unpack_error : exn := ValueError "not enough values to unpack".

(** How the loop is left: by [break] or a false loop condition, or by an
    exception. *)
Inductive scan_exit : Type :=
  | Returned
  | Raised (e : exn).

(** One evaluation of the loop test and body: either the next loop state or
    the way the loop ends. *)
Definition scan_step (total : nat) (coverage_pct tolerance_pct : float)
    (s : scan) : scan + scan * scan_exit :=
  let '(mkScan i domains st calls) := s in
  if negb (i <? total)%nat then inr (s, Returned)
  else if (i + 1 =? total)%nat then inr (s, Returned)
  else
    match slice domains (i - 1) (i + 1) with
    | [previous; current] =>
        if String.eqb (type (deref st previous)) (type (deref st current)) then
          let calls' := calls ++ [(previous, current)] in
          match is_fragmented_domain st previous current
                  coverage_pct tolerance_pct with
          | Raise e => inr (mkScan i domains st calls', Raised e)
          | Ok true =>
              inl (mkScan i (delete i domains)
                     (set_end st previous (end_ (deref st current))) calls')
          | Ok false => inl (mkScan (i + 1) domains st calls')
          end
        else inl (mkScan (i + 1) domains st calls)
    | _ => inr (s, Raised unpack_error)
    end.

(** The loop, run for at most [fuel] iterations; [None] when the loop is
    still going after that many. *)
Fixpoint scan_loop (fuel : nat) (total : nat) (coverage_pct tolerance_pct : float)
    (s : scan) : option (scan * scan_exit) :=
  match fuel with
  | O => None
  | S fuel' =>
      match scan_step total coverage_pct tolerance_pct s with
      | inl s' => scan_loop fuel' total coverage_pct tolerance_pct s'
      | inr out => Some out
      end
  end.

(** Every iteration that does not leave the loop either deletes an element
    or increments [i]: it decreases [scan_measure], so [total + len(domains)]
    iterations are enough (see [scan_loop_terminates]). *)
Definition scan_measure (total : nat) (s : scan) : nat :=
  (total - scan_i s + length (scan_domains s))%nat.

Definition scan_fuel (total : nat) (domains : list ref) : nat :=
  S (total + length domains).

(** The representatives: [[choose_representative_domain(group, by) for group
    in group_overlapping_hits(domains)]]. *)
Definition representatives (st : state) (domains : list ref) (by_ : string)
  : result (list ref) :=
  mapM (λ group, choose_representative_domain st group by_)
       (group_overlapping_hits st domains).

(** The loop of [filter_domains] started on the list [domains] of
    representatives: [i, total = 1, len(domains)]. *)
Definition merge_scan (st : state) (domains : list ref)
    (coverage_pct tolerance_pct : float) : option (scan * scan_exit) :=
  scan_loop (scan_fuel (length domains) domains) (length domains)
    coverage_pct tolerance_pct (mkScan 1 domains st []).

(** [filter_domains(domains, by, coverage_pct, tolerance_pct)]: the state it
    leaves and what it returns or raises. *)
Definition filter_domains (st : state) (domains : list ref) (by_ : string)
    (coverage_pct tolerance_pct : float) : option (state * result (list ref)) :=
  match representatives st domains by_ with
  | Raise e => Some (st, Raise e)
  | Ok reps =>
      match merge_scan st reps coverage_pct tolerance_pct with
      | None => None
      | Some (s, Returned) => Some (scan_st s, Ok (scan_domains s))
      | Some (s, Raised e) => Some (scan_st s, Raise e)
      end
  end.

(** ** [filter_results] *)

(** A Python [dict] with string keys, as its items in insertion order. *)
Definition dict (V : Type) : Type := list (string * V).

(** [d[k]] as [d.get(k)] *)
Fixpoint dict_get {V : Type} (k : string) (d : dict V) : option V :=
  match d with
  | [] => None
  | (k', v) :: d' => if String.eqb k k' then Some v else dict_get k d'
  end.

(** [d[k] = v]: an existing key keeps its position, a new one goes last. *)
Fixpoint dict_set {V : Type} (k : string) (v : V) (d : dict V) : dict V :=
  match d with
  | [] => [(k, v)]
  | (k', v') :: d' =>
      if String.eqb k k' then (k, v) :: d' else (k', v') :: dict_set k v d'
  end.

(** The message of [LOG.error("No domains remain after filtering for %s",
    name)]. *)
Definition no_domains_message (name : string) : string :=
  "No domains remain after filtering for " +:+ name.

(** The [for name, domains in results.items()] loop. *)
Fixpoint filter_results_loop (st : state) (items : list (string * list ref))
    (filtered : dict (list ref)) (by_ : string)
    (coverage_pct tolerance_pct : float)
  : option (state * result (dict (list ref))) :=
  match items with
  | [] => Some (st, Ok filtered)
  | (name, domains) :: rest =>
      match filter_domains st domains by_ coverage_pct tolerance_pct with
      | None => None
      | Some (st', Raise e) => Some (st', Raise e)
      | Some (st', Ok kept) =>
          let st'' :=
            match kept with
            | [] => log_error st' (no_domains_message name)
            | _ => st'
            end in
          filter_results_loop st'' rest (dict_set name kept filtered)
            by_ coverage_pct tolerance_pct
      end
  end.

(** [filter_results(results, by=.., coverage_pct=.., tolerance_pct=..)];
    [results] is given by [results.items()]. *)
Definition filter_results (st : state) (results : dict (list ref)) (by_ : string)
    (coverage_pct tolerance_pct : float)
  : option (state * result (dict (list ref))) :=
  filter_results_loop st results [] by_ coverage_pct tolerance_pct.

(** ** The scan as the specification words it

    "Walk adjacent pairs left to right; whenever isFragmented(prev, curr)
    holds and categories match, extend prev.end = curr.end, drop curr from
    the sequence, and re-test the now-current pair against its new next
    neighbor (do not advance past a merge).  When a pair does not merge,
    advance one position.  Terminate when fewer than two elements remain
    unexamined."

    [merge_walk st previous rest] is that walk with [previous] the left hit
    of the pair under examination and [rest] the hits not yet examined.  It
    gives the state it ends in, the sequence from [previous] on (or the
    exception of the fragmentation test), and the number of merges made. *)

#[global] Instance result_fmap : FMap result := fun _ _ f m =>
  match m with
  | Ok a => Ok (f a)
  | Raise e => Raise e
  end.

Fixpoint merge_walk (st : state) (previous : ref) (rest : list ref)
    (coverage_pct tolerance_pct : float) : state * result (list ref) * nat :=
  match rest with
  | [] => (st, Ok [previous], 0%nat)
  | current :: rest' =>
      let advance :=
        let '(st', out, merges) :=
          merge_walk st current rest' coverage_pct tolerance_pct in
        (st', cons previous <$> out, merges) in
      if String.eqb (type (deref st previous)) (type (deref st current)) then
        match is_fragmented_domain st previous current
                coverage_pct tolerance_pct with
        | Raise e => (st, Raise e, 0%nat)
        | Ok true =>
            let '(st', out, merges) :=
              merge_walk (set_end st previous (end_ (deref st current)))
                previous rest' coverage_pct tolerance_pct in
            (st', out, S merges)
        | Ok false => advance
        end
      else advance
  end.

Definition walk (st : state) (domains : list ref)
    (coverage_pct tolerance_pct : float) : state * result (list ref) * nat :=
  match domains with
  | [] => (st, Ok [], 0%nat)
  | first :: rest => merge_walk st first rest coverage_pct tolerance_pct
  end.


(** ** Auxiliary notions used in the statements *)

(** The largest [end] among the members of a group: the value [border] has
    once the group is complete. *)
Definition max_end (st : state) (group : list ref) : Z :=
  match group with
  | [] => 0
  | first :: others =>
      foldl (λ border d, Z.max border (end_ (deref st d)))
            (end_ (deref st first)) others
  end.

(** Two objects that agree on every attribute except possibly [end]. *)
Definition same_but_end (d d' : Domain) : Prop :=
  pssm d' = pssm d ∧ type d' = type d ∧ domain d' = domain d ∧
  start d' = start d ∧ evalue d' = evalue d ∧ bitscore d' = bitscore d ∧
  partial d' = partial d ∧ accession d' = accession d ∧
  superfamily d' = superfamily d.

(** The input contract of the specification: every hit is an object of the
    store with [start <= end], non-negative e-value and bitscore, and a
    domain key that the registry resolves to an entry of the hit's type with
    positive length and positive bitscore threshold. *)
Definition valid_hit (st : state) (r : ref) : Prop :=
  (r < length (objects st))%nat ∧
  start (deref st r) <= end_ (deref st r) ∧
  (0 <=? evalue (deref st r))%float = true ∧
  (0 <=? bitscore (deref st r))%float = true ∧
  ∃ info, DOMAINS st !! domain (deref st r) = Some info ∧
          info_type info = type (deref st r) ∧
          0 < info_length info ∧
          (0 <? info_bitscore info)%float = true.

(** The options the specification allows: coverage in (0, 1], tolerance
    non-negative. *)
Definition valid_options (coverage_pct tolerance_pct : float) : Prop :=
  (0 <? coverage_pct)%float = true ∧ (coverage_pct <=? 1)%float = true ∧
  (0 <=? tolerance_pct)%float = true.

(** [st'] differs from [st] at most in the [end] attribute of objects
    referenced from [hits]; the registry is the same. *)
Definition only_ends_of (hits : list ref) (st st' : state) : Prop :=
  DOMAINS st' = DOMAINS st ∧
  length (objects st') = length (objects st) ∧
  (∀ a, same_but_end (deref st a) (deref st' a)) ∧
  (∀ a, a ∉ hits → deref st' a = deref st a).

(** The pair at positions [j], [j + 1] of a list. *)
Definition pair_at (l : list ref) (j : nat) (pc : ref * ref) : Prop :=
  l !! j = Some pc.1 ∧ l !! S j = Some pc.2.

(** ** Example inputs

    One registry entry of canonical length 1000, and hits of that domain. *)

Definition example_registry : gmap string DomainInfo :=
  {[ "Condensation" := mkInfo "C" 1000 100%float ]}.

Definition scored_hit (s e : Z) (evalue bitscore : float) : Domain :=
  mkDomain "pssm" "C" "Condensation" s e evalue bitscore "-" "acc" "cl".

Definition hit (s e : Z) : Domain := scored_hit s e 1e-10 50.

Definition store (hits : list Domain) : state :=
  mkState hits example_registry [].

(** Two fragments of lengths 400 and 450 spanning 980. *)
Definition two_fragments : state := store [hit 0 400; hit 530 980].

(** Three hits, each adjacent pair a fragment pair under the default
    options. *)
Definition three_fragments : state :=
  store [hit 0 400; hit 530 980; hit 1100 1500].

(** Two fragment pairs, one after the other. *)
Definition two_fragment_pairs : state :=
  store [hit 0 400; hit 530 980; hit 2000 2400; hit 2530 2980].

(** Three hits that overlap by a few residues (less than the 10 that would
    put them in one group); with [coverage_pct = 1.0] and
    [tolerance_pct = 0.5] each adjacent pair is a fragment pair, and so is
    the merged first pair with the third hit. *)
Definition three_overlapping : state :=
  store [hit 0 502; hit 494 996; hit 990 1490].

(** The hits A, B, C of the grouping scenario. *)
Definition grouping_example : state :=
  store [hit 10 100; hit 95 200; hit 500 600].

(** ** The order of binary64 values

    A rank for the floats that are not NaN: comparing two of them (IEEE
    comparison, [SFcompare]) is comparing their ranks lexicographically. *)
Definition SFrank (f : spec_float) : Z * Z * Z :=
  match f with
  | S754_nan => (0, 0, 0)
  | S754_zero _ => (0, 0, 0)
  | S754_infinity true => (-2, 0, 0)
  | S754_infinity false => (2, 0, 0)
  | S754_finite true m e => (-1, - e, Z.neg m)
  | S754_finite false m e => (1, e, Z.pos m)
  end.

Definition lex_lt (a b : Z * Z * Z) : Prop :=
  a.1.1 < b.1.1 ∨
  (a.1.1 = b.1.1 ∧ (a.1.2 < b.1.2 ∨ (a.1.2 = b.1.2 ∧ a.2 < b.2))).

(** A float sort key that is not NaN. *)
Definition valid_key (k : pynum) : Prop :=
  match k with
  | PyInt _ => False
  | PyFloat f => is_nan f = false
  end.

(** A group of three overlapping hits with e-values 1e-5, 1e-10, 1e-3. *)
Definition evalue_example : state :=
  store [scored_hit 0 300 1e-5 80; scored_hit 5 305 1e-10 120;
         scored_hit 10 290 1e-3 120].

(** Two overlapping hits of different domains, with bitscores 150 and 250
    and thresholds 100 and 200: the quotients are 1.5 and 1.25. *)
Definition bitscore_example : state :=
  mkState [mkDomain "pssm" "C" "Condensation" 0 300 1e-10%float 150%float
             "-" "acc" "cl";
           mkDomain "pssm" "KS" "PKS_KS" 5 305 1e-10%float 250%float
             "-" "acc" "cl"]
          (<[ "PKS_KS" := mkInfo "KS" 400 200%float ]> example_registry) [].

(** ** Notions used for the groups *)

(** The next group starts later than the previous one reaches, up to the
    ten residues of slack. *)
Definition separated (st : state) (g1 g2 : list ref) : Prop :=
  ∀ first, head g2 = Some first →
           max_end st g1 < start (deref st first) + 10.

(** Every member of a group but the first starts at least ten residues
    before the largest end among the members in front of it. *)
Definition cohesive (st : state) (g : list ref) : Prop :=
  ∀ pre d post, g = pre ++ d :: post → pre ≠ [] →
                start (deref st d) + 10 <= max_end st pre.

(** Adjacent hits of different types. *)
Definition types_alternate (st : state) (l : list ref) : Prop :=
  ∀ j p c, pair_at l j (p, c) → type (deref st p) ≠ type (deref st c).

(** A registry with two entries and hits of both types. *)
Definition two_type_registry : gmap string DomainInfo :=
  <[ "PKS_KS" := mkInfo "KS" 400 200%float ]> example_registry.

Definition ks_hit (s e : Z) : Domain :=
  mkDomain "pssm" "KS" "PKS_KS" s e 1e-20%float 300%float "-" "acc" "cl".

Definition mixed_types : state :=
  mkState [hit 0 400; ks_hit 530 980; hit 1100 1500; ks_hit 1600 1900]
          two_type_registry [].

(** ** Reading search results: [domain_from_row], [parse_cdsearch],
    [parse_rpsbproc], [parse]

    A Python [str] is modelled by its UTF-8 encoding: splitting at tabs and
    newlines and testing for the prefix "Q#" are the same on both, since
    those characters are ASCII.  The handle is a sequence of [str] lines,
    as a file opened in text mode yields them; on a [str] the attempt
    [row.decode()] raises AttributeError, which the [except] clause
    discards, and [isinstance(line, bytes)] is false.

    The library functions the parsers call are not part of the module:
    their results are taken as they come. *)
Record Builtins : Type := mkBuiltins {
  (** [int(s)] and [float(s)] on a [str] *)
  py_int : string → result Z;
  py_float : string → result float;
  (** [s.strip()] *)
  py_strip : string → string;
  (** [query_regex.search(row)]: group 1 of the match, if there is one *)
  cdsearch_query : string → option string;
  (** [query_pattern.finditer(stdout)]: groups 1 and 2 of each match *)
  rpsbproc_blocks : string → list (string * string);
}.

(** What [parse] can raise: the exceptions met so far, and the
    AttributeError of [None.group(1)]. *)
Inductive py_exn : Type :=
  | Exn (e : exn)
  | AttributeError (msg : string).

(** [s.split(sep)] for a separator of one character *)
Fixpoint split_on (sep : Ascii.ascii) (s : string) : list string :=
  match s with
  | EmptyString => [EmptyString]
  | String c s' =>
      if Ascii.eqb c sep then EmptyString :: split_on sep s'
      else match split_on sep s' with
           | [] => [String c EmptyString]
           | field :: fields => String c field :: fields
           end
  end.

Definition tab : Ascii.ascii := Ascii.ascii_of_nat 9.
Definition newline : Ascii.ascii := Ascii.ascii_of_nat 10.

(** [row.isspace()], on ASCII text. *)
Definition is_space (c : Ascii.ascii) : bool :=
  let n := Ascii.nat_of_ascii c in
  ((9 <=? n) && (n <=? 13) || (28 <=? n) && (n <=? 32))%nat.

Fixpoint all_space (s : string) : bool :=
  match s with
  | EmptyString => true
  | String c s' => is_space c && all_space s'
  end.

Definition isspace (s : string) : bool :=
  match s with
  | EmptyString => false
  | _ => all_space s
  end.

(** [Domain(...)]: a new object that holds the arguments.  The class lives
    in synthaser/models.py, which is not part of the module; its
    constructor is taken to store the attributes as they are given. *)
Definition new_Domain (st : state) (d : Domain) : state * ref :=
  (mkState (objects st ++ [d]) (DOMAINS st) (LOG st), length (objects st)).

Definition not_a_key_domain (domain_ : string) : exn :=
  ValueError ("'" +:+ domain_ +:+ "' not a synthaser key domain").

(** [domain_from_row(row)]: the starred assignment takes the last nine
    fields; the arguments of [Domain(...)] are evaluated in the order they
    are written. *)
Definition domain_from_row (py : Builtins) (st : state) (row : string)
  : result (state * ref) :=
  let fields := split_on tab row in
  match drop (length fields - 9) fields with
  | [pssm_; start_; end__; evalue_; bitscore_; accession_; domain_;
     partial_; superfamily_] =>
      match DOMAINS st !! domain_ with
      | None => Raise (not_a_key_domain domain_)
      | Some info =>
          s ← py_int py start_;
          e ← py_int py end__;
          ev ← py_float py evalue_;
          bs ← py_float py bitscore_;
          mret (new_Domain st
                  (mkDomain pssm_ (info_type info) domain_ s e ev bs
                     partial_ accession_ superfamily_))
      end
  | _ => Raise unpack_error
  end.

(** [results[query].append(domain)] on a [defaultdict(list)] *)
Fixpoint dict_append (k : string) (v : ref) (d : dict (list ref))
  : dict (list ref) :=
  match d with
  | [] => [(k, [v])]
  | (k', vs) :: d' =>
      if String.eqb k k' then (k', vs ++ [v]) :: d'
      else (k', vs) :: dict_append k v d'
  end.

(** The body shared by the two parsers:
    [try: domain = domain_from_row(row) / except ValueError: continue /
    results[query].append(domain)].  [inr] is an exception that is not
    caught. *)
Definition add_row (py : Builtins) (st : state) (query row : string)
    (results : dict (list ref)) : state * (dict (list ref) + exn) :=
  match domain_from_row py st row with
  | Ok (st', domain_) => (st', inl (dict_append query domain_ results))
  | Raise (ValueError _) => (st, inl results)
  | Raise e => (st, inr e)
  end.

(** The loop of [parse_cdsearch]. *)
Fixpoint parse_cdsearch_loop (py : Builtins) (st : state) (handle : list string)
    (results : dict (list ref)) : state * (dict (list ref) + py_exn) :=
  match handle with
  | [] => (st, inl results)
  | row :: handle' =>
      if negb (String.prefix "Q#" row) || isspace row then
        parse_cdsearch_loop py st handle' results
      else
        match cdsearch_query py row with
        | None =>
            (st, inr (AttributeError
                        "'NoneType' object has no attribute 'group'"))
        | Some query =>
            match add_row py st query row results with
            | (st', inl results') =>
                parse_cdsearch_loop py st' handle' results'
            | (st', inr e) => (st', inr (Exn e))
            end
        end
  end.

Definition parse_cdsearch (py : Builtins) (st : state) (handle : list string)
  : state * (dict (list ref) + py_exn) :=
  parse_cdsearch_loop py st handle [].

(** The inner loop of [parse_rpsbproc]:
    [for row in match.group(2).split("\n")]. *)
Fixpoint rpsbproc_rows (py : Builtins) (st : state) (query : string)
    (rows : list string) (domains : dict (list ref))
  : state * (dict (list ref) + py_exn) :=
  match rows with
  | [] => (st, inl domains)
  | row :: rows' =>
      match add_row py st query row domains with
      | (st', inl domains') => rpsbproc_rows py st' query rows' domains'
      | (st', inr e) => (st', inr (Exn e))
      end
  end.

(** The outer loop: [for match in query_pattern.finditer(stdout)]. *)
Fixpoint rpsbproc_matches (py : Builtins) (st : state)
    (matches : list (string * string)) (domains : dict (list ref))
  : state * (dict (list ref) + py_exn) :=
  match matches with
  | [] => (st, inl domains)
  | (query, block) :: matches' =>
      match rpsbproc_rows py st query (split_on newline block) domains with
      | (st', inl domains') => rpsbproc_matches py st' matches' domains'
      | (st', inr e) => (st', inr e)
      end
  end.

Definition parse_rpsbproc (py : Builtins) (st : state) (handle : list string)
  : state * (dict (list ref) + py_exn) :=
  let stdout :=
    String.concat (String newline EmptyString) (py_strip py <$> handle) in
  rpsbproc_matches py st (rpsbproc_blocks py stdout) [].

(** [parse(handle, mode, by=.., coverage_pct=.., tolerance_pct=..)] *)
Definition parse (py : Builtins) (st : state) (handle : list string)
    (mode by_ : string) (coverage_pct tolerance_pct : float)
  : option (state * (dict (list ref) + py_exn)) :=
  let filter_parsed (parsed : state * (dict (list ref) + py_exn)) :=
    match parsed with
    | (st', inl results) =>
        match filter_results st' results by_ coverage_pct tolerance_pct with
        | None => None
        | Some (st'', Ok filtered) => Some (st'', inl filtered)
        | Some (st'', Raise e) => Some (st'', inr (Exn e))
        end
    | (st', inr e) => Some (st', inr e)
    end in
  if String.eqb mode "remote" then filter_parsed (parse_cdsearch py st handle)
  else if String.eqb mode "local" then
    filter_parsed (parse_rpsbproc py st handle)
  else Some (st, inr (Exn (ValueError "Expected 'remote' or 'local'"))).

(** A hit whose domain key the registry resolves, to an entry of its type. *)
Definition resolvable (st : state) (r : ref) : Prop :=
  (r < length (objects st))%nat ∧
  ∃ info, DOMAINS st !! domain (deref st r) = Some info ∧
          type (deref st r) = info_type info.

(** ** An instance of the library functions for the examples: decimal
    integers in ASCII, floats written as integers, and the two patterns
    restricted to the simplest rows. *)
Fixpoint digits_value (acc : Z) (s : string) : option Z :=
  match s with
  | EmptyString => Some acc
  | String c s' =>
      let n := Ascii.nat_of_ascii c in
      if ((48 <=? n) && (n <=? 57))%nat
      then digits_value (10 * acc + Z.of_nat (n - 48)) s'
      else None
  end.

Definition ascii_int (s : string) : result Z :=
  match s with
  | EmptyString => Raise (ValueError "invalid literal for int()")
  | _ => match digits_value 0 s with
         | Some z => Ok z
         | None => Raise (ValueError "invalid literal for int()")
         end
  end.

Definition ascii_float (s : string) : result float :=
  z ← ascii_int s; float_of_int z.

(** The text between "Q#1 - " and the first tab. *)
Definition ascii_query (row : string) : option string :=
  if String.prefix "Q#1 - " row then
    match split_on tab (String.substring 6 (String.length row - 6) row) with
    | query :: _ :: _ => Some query
    | _ => None
    end
  else None.

Definition ascii_builtins : Builtins :=
  mkBuiltins ascii_int ascii_float (λ s, s) ascii_query (λ _, []).

Definition example_rows : list string :=
  ["# comment";
   "Q#1 - seq1" +:+ String tab "specific" +:+ String tab "225858"
     +:+ String tab "9" +:+ String tab "1134" +:+ String tab "0"
     +:+ String tab "696" +:+ String tab "COG3321"
     +:+ String tab "Condensation" +:+ String tab "-"
     +:+ String tab "cl09938";
   "Q#1 - seq1" +:+ String tab "specific" +:+ String tab "1"
     +:+ String tab "9" +:+ String tab "1134" +:+ String tab "0"
     +:+ String tab "696" +:+ String tab "X" +:+ String tab "Unknown"
     +:+ String tab "-" +:+ String tab "cl0"].

(** What a parser has built from the state [st0] it started in: the
    registry and the log are as before, the old objects are still there, the
    keys of the mapping are distinct, no list is empty, and the hits are
    pairwise distinct new objects that the registry resolves. *)
Definition parsed_from (st0 st : state) (results : dict (list ref)) : Prop :=
  DOMAINS st = DOMAINS st0 ∧ LOG st = LOG st0 ∧
  objects st0 `prefix_of` objects st ∧
  NoDup results.*1 ∧
  Forall (λ kv : string * list ref, kv.2 ≠ []) results ∧
  NoDup (concat results.*2) ∧
  Forall (λ r, (length (objects st0) ≤ r)%nat ∧ resolvable st r)
         (concat results.*2).

(** Two states with the same registry that hold the hits of a list, with
    the same attributes. *)
Definition agree_on (hits : list ref) (st1 st2 : state) : Prop :=
  DOMAINS st1 = DOMAINS st2 ∧
  ∀ r, r ∈ hits →
    (r < length (objects st1))%nat ∧ (r < length (objects st2))%nat ∧
    deref st1 r = deref st2 r.

(** * Properties *)

(** ** Slices and deletion in the middle of a list *)

Section Slices.
Context {A : Type}.
Implicit Types (done rest : list A) (p c : A).

Lemma slice_pair done p c rest :
  slice (done ++ p :: c :: rest) (S (length done) - 1) (S (length done) + 1)
  = [p; c].
Proof.
  unfold slice.
  replace (S (length done) + 1 - (S (length done) - 1))%nat with 2%nat by lia.
  replace (S (length done) - 1)%nat with (length done) by lia.
  by rewrite drop_app_length.
Qed.

Lemma slice_single done p :
  slice (done ++ [p]) (S (length done) - 1) (S (length done) + 1) = [p].
Proof.
  unfold slice.
  replace (S (length done) + 1 - (S (length done) - 1))%nat with 2%nat by lia.
  replace (S (length done) - 1)%nat with (length done) by lia.
  by rewrite drop_app_length.
Qed.

Lemma delete_current done p c rest :
  delete (S (length done)) (done ++ p :: c :: rest) = done ++ p :: rest.
Proof.
  induction done as [|x done IH]; simpl; [done|]. by rewrite IH.
Qed.

Lemma slice_is_pair (l : list A) (i : nat) p c :
  slice l (i - 1) (i + 1) = [p; c] →
  ∃ done rest, l = done ++ p :: c :: rest ∧ i = S (length done).
Proof.
  unfold slice. intros H.
  destruct i as [|i].
  { simpl in H. destruct l as [|? [|? ?]]; discriminate. }
  replace (S i - 1)%nat with i in H by lia.
  exists (take i l).
  assert (Hd : ∃ rest, drop i l = p :: c :: rest).
  { destruct (drop i l) as [|x [|y rest]] eqn:E.
    - by destruct (S i + 1 - i)%nat.
    - by destruct (S i + 1 - i)%nat as [|[|?]].
    - replace (S i + 1 - i)%nat with 2%nat in H by lia.
      simpl in H. inversion H; subst. by exists rest. }
  destruct Hd as [rest Hd]. exists rest.
  assert (i < length l)%nat.
  { destruct (decide (i < length l)%nat); [done|].
    rewrite drop_ge in Hd by lia. discriminate. }
  split.
  - by rewrite <- Hd, take_drop.
  - rewrite length_take. lia.
Qed.
End Slices.

Lemma pair_at_middle (done : list ref) (p c : ref) (rest : list ref) :
  pair_at (done ++ p :: c :: rest) (length done) (p, c).
Proof.
  split; simpl.
  - by apply list_lookup_middle.
  - change (p :: c :: rest) with ([p] ++ c :: rest). rewrite app_assoc.
    apply list_lookup_middle. rewrite length_app. simpl. lia.
Qed.

(** Arithmetic side conditions on positions and lengths. *)
Ltac solve_length :=
  unfold scan_measure in *; simpl in *; subst;
  rewrite <- ?app_assoc in *; rewrite ?length_app in *; simpl in *; lia.

(** ** One iteration of the loop *)

Section Step.
Variables (total : nat) (coverage_pct tolerance_pct : float).
Implicit Types (done rest : list ref) (p c : ref) (st : state).

Local Abbreviation step := (scan_step total coverage_pct tolerance_pct).
Local Abbreviation loop fuel := (scan_loop fuel total coverage_pct tolerance_pct).
Local Abbreviation measure := (scan_measure total).

(** The loop at position [i] with both [domains[i-1]] and [domains[i]]
    present and [i + 1 < total]. *)
Lemma scan_step_pair done p c rest st calls :
  (S (length done) + 1 < total)%nat →
  step (mkScan (S (length done)) (done ++ p :: c :: rest) st calls) =
    if String.eqb (type (deref st p)) (type (deref st c)) then
      match is_fragmented_domain st p c coverage_pct tolerance_pct with
      | Raise e =>
          inr (mkScan (S (length done)) (done ++ p :: c :: rest) st
                 (calls ++ [(p, c)]), Raised e)
      | Ok true =>
          inl (mkScan (S (length done)) (done ++ p :: rest)
                 (set_end st p (end_ (deref st c))) (calls ++ [(p, c)]))
      | Ok false =>
          inl (mkScan (S (length done) + 1) (done ++ p :: c :: rest) st
                 (calls ++ [(p, c)]))
      end
    else inl (mkScan (S (length done) + 1) (done ++ p :: c :: rest) st calls).
Proof.
  intros Hlt. unfold scan_step.
  destruct (S (length done) <? total)%nat eqn:E1;
    [|apply Nat.ltb_ge in E1; lia].
  destruct (S (length done) + 1 =? total)%nat eqn:E2;
    [apply Nat.eqb_eq in E2; lia|].
  simpl negb. cbv iota.
  rewrite slice_pair. rewrite delete_current. done.
Qed.

Lemma scan_step_break s :
  (scan_i s + 1 = total)%nat → step s = inr (s, Returned).
Proof.
  intros H. destruct s as [i l st calls]. simpl in *.
  destruct (i <? total)%nat; [|done].
  simpl. by rewrite (proj2 (Nat.eqb_eq _ _) H).
Qed.

Lemma scan_step_exhausted s :
  (total ≤ scan_i s)%nat → step s = inr (s, Returned).
Proof.
  intros H. destruct s as [i l st calls]. simpl in *.
  by rewrite (proj2 (Nat.ltb_ge _ _) H).
Qed.

Lemma scan_step_single done p st calls :
  (S (length done) + 1 < total)%nat →
  step (mkScan (S (length done)) (done ++ [p]) st calls)
  = inr (mkScan (S (length done)) (done ++ [p]) st calls, Raised unpack_error).
Proof.
  intros Hlt. unfold scan_step.
  destruct (S (length done) <? total)%nat eqn:E1;
    [|apply Nat.ltb_ge in E1; lia].
  destruct (S (length done) + 1 =? total)%nat eqn:E2;
    [apply Nat.eqb_eq in E2; lia|].
  simpl negb. cbv iota. by rewrite slice_single.
Qed.

(** What an iteration that stays in the loop does to the loop state. *)
Lemma scan_step_continue s s' :
  step s = inl s' →
  ∃ done p c rest,
    scan_domains s = done ++ p :: c :: rest ∧
    scan_i s = S (length done) ∧ (scan_i s + 1 < total)%nat ∧
    ((s' = mkScan (scan_i s) (done ++ p :: rest)
             (set_end (scan_st s) p (end_ (deref (scan_st s) c)))
             (scan_calls s ++ [(p, c)]))
     ∨ (scan_i s' = S (scan_i s) ∧ scan_domains s' = scan_domains s ∧
        scan_st s' = scan_st s ∧
        (scan_calls s' = scan_calls s ∨
         scan_calls s' = scan_calls s ++ [(p, c)]))).
Proof.
  destruct s as [i l st calls]. intros H.
  unfold scan_step in H.
  destruct (i <? total)%nat eqn:E1; [|discriminate].
  destruct (i + 1 =? total)%nat eqn:E2; [discriminate|].
  apply Nat.ltb_lt in E1. apply Nat.eqb_neq in E2.
  simpl negb in H. cbv iota in H.
  destruct (slice l (i - 1) (i + 1)) as [|p [|c [|? ?]]] eqn:Es;
    try discriminate.
  destruct (slice_is_pair _ _ _ _ Es) as (done & rest & -> & ->).
  exists done, p, c, rest. simpl.
  rewrite delete_current in H.
  split; [done|]. split; [done|]. split; [lia|].
  destruct (String.eqb _ _).
  - destruct (is_fragmented_domain _ _ _ _ _) as [[|]|e];
      inversion H; subst; simpl.
    + by left.
    + right. repeat split; try done; try lia. by right.
  - inversion H; subst; simpl. right. repeat split; try done; try lia.
    by left.
Qed.

(** ** Termination *)

Lemma scan_loop_S fuel s :
  loop (S fuel) s = match step s with
                    | inl s' => loop fuel s'
                    | inr out => Some out
                    end.
Proof. done. Qed.

Lemma scan_step_decreases s s' :
  step s = inl s' → (measure s' < measure s)%nat.
Proof.
  intros H. destruct (scan_step_continue _ _ H)
    as (done & p & c & rest & Hl & Hi & Hlt & [->|(Hi' & Hl' & _)]);
    unfold measure, scan_measure; simpl.
  - rewrite Hl, !length_app. simpl. lia.
  - rewrite Hi', Hl'. lia.
Qed.

Lemma scan_loop_terminates fuel s :
  (measure s < fuel)%nat → is_Some (loop fuel s).
Proof.
  revert s. induction fuel as [|fuel IH]; intros s Hm; [lia|].
  rewrite scan_loop_S. destruct (step s) as [s'|out] eqn:E; [|by eexists].
  apply IH. apply scan_step_decreases in E. lia.
Qed.

Lemma scan_loop_more_fuel fuel fuel' s out :
  loop fuel s = Some out → (fuel ≤ fuel')%nat → loop fuel' s = Some out.
Proof.
  revert fuel' s. induction fuel as [|fuel IH]; intros fuel' s H Hle;
    [discriminate|].
  destruct fuel' as [|fuel']; [lia|]. rewrite scan_loop_S in *.
  destruct (step s); [|done]. apply IH; [done|lia].
Qed.
End Step.

(** ** The loop against the walk of the specification *)

Section Walk.
Variables (coverage_pct tolerance_pct : float).
Implicit Types (done rest : list ref) (p c : ref) (st : state).

Local Abbreviation loop fuel total :=
  (scan_loop fuel total coverage_pct tolerance_pct).
Local Abbreviation mwalk st p rest :=
  (merge_walk st p rest coverage_pct tolerance_pct).

Lemma merge_walk_cons st p c rest :
  mwalk st p (c :: rest) =
    let advance :=
      let '(st', out, merges) := mwalk st c rest in
      (st', cons p <$> out, merges) in
    if String.eqb (type (deref st p)) (type (deref st c)) then
      match is_fragmented_domain st p c coverage_pct tolerance_pct with
      | Raise e => (st, Raise e, 0%nat)
      | Ok true =>
          let '(st', out, merges) :=
            mwalk (set_end st p (end_ (deref st c))) p rest in
          (st', out, S merges)
      | Ok false => advance
      end
    else advance.
Proof. done. Qed.

(** A walk that merges nothing leaves everything as it was. *)
Lemma merge_walk_no_merge rest : ∀ st p st' out,
  mwalk st p rest = (st', Ok out, 0%nat) → st' = st ∧ out = p :: rest.
Proof.
  induction rest as [|c rest IH]; intros st p st' out H; simpl in H.
  { by inversion H. }
  destruct (mwalk st c rest) as [[st1 out1] m1] eqn:E1.
  assert (Hadv : (st1, cons p <$> out1, m1) = (st', Ok out, 0%nat) →
                 st' = st ∧ out = p :: c :: rest).
  { intros Ha. destruct out1 as [o|]; [|discriminate Ha].
    injection Ha as -> <- ->. by destruct (IH _ _ _ _ E1) as [-> ->]. }
  destruct (String.eqb _ _); [|by apply Hadv].
  destruct (is_fragmented_domain _ _ _ _ _) as [[|]|e].
  - destruct (mwalk (set_end _ _ _) p rest) as [[? ?] ?]. inversion H.
  - by apply Hadv.
  - inversion H.
Qed.

(** After one deletion the list is one shorter than [total]: from here the
    loop examines every remaining pair, and if none merges it leaves by
    [break] with the list as it is. *)
Lemma scan_after_merge total rest : ∀ done p st calls fuel st' out,
  total = S (length (done ++ p :: rest)) →
  mwalk st p rest = (st', Ok out, 0%nat) →
  (scan_measure total (mkScan (S (length done)) (done ++ p :: rest) st calls)
   < fuel)%nat →
  ∃ s, loop fuel total (mkScan (S (length done)) (done ++ p :: rest) st calls)
       = Some (s, Returned)
       ∧ scan_domains s = done ++ out ∧ scan_st s = st'.
Proof.
  induction rest as [|c rest IH];
    intros done p st calls fuel st' out Htot Hw Hfuel.
  - simpl in Hw. inversion Hw; subst st' out.
    destruct fuel as [|fuel]; [lia|]. rewrite scan_loop_S.
    rewrite scan_step_break; [by eexists|solve_length].
  - destruct fuel as [|fuel]; [lia|]. rewrite scan_loop_S.
    rewrite scan_step_pair by solve_length.
    simpl in Hw.
    destruct (mwalk st c rest) as [[st1 out1] m1] eqn:E1.
    assert (Hadv : ∀ calls',
      (st1, cons p <$> out1, m1) = (st', Ok out, 0%nat) →
      ∃ s, loop fuel total
             (mkScan (S (length done) + 1) (done ++ p :: c :: rest) st calls')
           = Some (s, Returned)
           ∧ scan_domains s = done ++ out ∧ scan_st s = st').
    { intros calls' Ha. destruct out1 as [o|]; [|discriminate Ha].
      injection Ha as -> <- ->.
      destruct (IH (done ++ [p]) c st calls' fuel st' o) as (s & Hs & Hd & Hst).
      - rewrite <- app_assoc. done.
      - done.
      - solve_length.
      - exists s. rewrite <- app_assoc in Hs, Hd. simpl in Hs, Hd.
        rewrite length_app in Hs. simpl in Hs.
        replace (S (length done + 1)) with (S (length done) + 1)%nat in Hs
          by lia.
        done. }
    destruct (String.eqb _ _); [|by apply Hadv].
    destruct (is_fragmented_domain _ _ _ _ _) as [[|]|e].
    + destruct (mwalk (set_end _ _ _) p rest) as [[? ?] ?]. inversion Hw.
    + by apply Hadv.
    + inversion Hw.
Qed.

(** Before any deletion the list has [total] elements: the loop examines
    every pair but the last, and leaves by [break] in front of it. *)
Lemma scan_before_merge total rest : ∀ done p st calls fuel st' out m,
  total = length (done ++ p :: rest) →
  mwalk st p rest = (st', Ok out, m) →
  (m ≤ 1)%nat →
  (mwalk st p (removelast rest)).2 = m →
  (scan_measure total (mkScan (S (length done)) (done ++ p :: rest) st calls)
   < fuel)%nat →
  ∃ s, loop fuel total (mkScan (S (length done)) (done ++ p :: rest) st calls)
       = Some (s, Returned)
       ∧ scan_domains s = done ++ out ∧ scan_st s = st'.
Proof.
  induction rest as [|c rest IH];
    intros done p st calls fuel st' out m Htot Hw Hm Hlast Hfuel.
  - simpl in Hw. inversion Hw; subst st' out m.
    destruct fuel as [|fuel]; [lia|]. rewrite scan_loop_S.
    rewrite scan_step_exhausted; [by eexists|solve_length].
  - destruct rest as [|c2 rest].
    + (* the last pair: the loop breaks before examining it *)
      simpl in Hlast. subst m.
      apply merge_walk_no_merge in Hw as [-> ->].
      destruct fuel as [|fuel]; [lia|]. rewrite scan_loop_S.
      rewrite scan_step_break; [by eexists|solve_length].
    + destruct fuel as [|fuel]; [lia|]. rewrite scan_loop_S.
      rewrite scan_step_pair by solve_length.
      change (removelast (c :: c2 :: rest)) with (c :: removelast (c2 :: rest))
        in Hlast.
      remember (c2 :: rest) as rest2 eqn:Hrest2.
      rewrite merge_walk_cons in Hw, Hlast. cbv zeta in Hw, Hlast.
      destruct (mwalk st c rest2) as [[st1 out1] m1] eqn:E1.
      destruct (mwalk st c (removelast rest2)) as [[st2 out2] m2] eqn:E2.
      assert (Hadv : ∀ calls',
        (st1, cons p <$> out1, m1) = (st', Ok out, m) →
        (st2, cons p <$> out2, m2).2 = m →
        ∃ s, loop fuel total
               (mkScan (S (length done) + 1) (done ++ p :: c :: rest2) st calls')
             = Some (s, Returned)
             ∧ scan_domains s = done ++ out ∧ scan_st s = st').
      { intros calls' Ha Hb. destruct out1 as [o|]; [|discriminate Ha].
        injection Ha as -> <- ->. simpl in Hb. subst m2.
        destruct (IH (done ++ [p]) c st calls' fuel st' o m)
          as (s & Hs & Hd & Hst).
        - rewrite <- app_assoc. done.
        - done.
        - done.
        - by rewrite E2.
        - solve_length.
        - exists s. rewrite <- app_assoc in Hs, Hd. simpl in Hs, Hd.
          rewrite length_app in Hs. simpl in Hs.
          replace (S (length done + 1)) with (S (length done) + 1)%nat in Hs
            by lia.
          done. }
      destruct (String.eqb _ _); [|by apply Hadv].
      destruct (is_fragmented_domain _ _ _ _ _) as [[|]|e].
      * destruct (mwalk (set_end _ _ _) p rest2) as [[st3 out3] m3] eqn:E3.
        inversion Hw; subst.
        assert (m3 = 0%nat) as -> by lia.
        apply scan_after_merge; [| done |].
        -- solve_length.
        -- solve_length.
      * by apply Hadv.
      * inversion Hw.
Qed.
End Walk.

(** ** Invariants of the loop *)

Section Invariants.
Variables (total : nat) (coverage_pct tolerance_pct : float).

Local Abbreviation step := (scan_step total coverage_pct tolerance_pct).
Local Abbreviation loop fuel := (scan_loop fuel total coverage_pct tolerance_pct).

(** Leaving the loop does not touch the list or the objects. *)
Lemma scan_step_exit s s' x :
  step s = inr (s', x) →
  scan_i s' = scan_i s ∧ scan_domains s' = scan_domains s ∧
  scan_st s' = scan_st s ∧
  match x with
  | Returned => (total ≤ scan_i s ∨ scan_i s + 1 = total)%nat
                ∧ scan_calls s' = scan_calls s
  | Raised e =>
      (scan_i s + 1 < total)%nat ∧
      ((e = unpack_error ∧ scan_calls s' = scan_calls s)
       ∨ ∃ p c, scan_calls s' = scan_calls s ++ [(p, c)] ∧
                (0 < scan_i s)%nat ∧
                pair_at (scan_domains s) (scan_i s - 1) (p, c) ∧
                is_fragmented_domain (scan_st s) p c
                  coverage_pct tolerance_pct = Raise e)
  end.
Proof.
  destruct s as [i l st calls]. unfold scan_step. intros H.
  destruct (i <? total)%nat eqn:E1; simpl negb in H; cbv iota in H.
  2:{ apply Nat.ltb_ge in E1. injection H as <- <-. simpl. repeat split; auto. }
  destruct (i + 1 =? total)%nat eqn:E2.
  { apply Nat.eqb_eq in E2. injection H as <- <-. simpl. repeat split; auto. }
  apply Nat.ltb_lt in E1. apply Nat.eqb_neq in E2.
  destruct (slice l (i - 1) (i + 1)) as [|p [|c [|? ?]]] eqn:Es.
  - injection H as <- <-. simpl. repeat split; try done; try lia.
    by left.
  - injection H as <- <-. simpl. repeat split; try done; try lia.
    by left.
  - destruct (slice_is_pair _ _ _ _ Es) as (done & rest & -> & ->).
    destruct (String.eqb _ _); [|discriminate].
    destruct (is_fragmented_domain _ _ _ _ _) as [[|]|e] eqn:Ef;
      try discriminate.
    injection H as <- <-. simpl. repeat split; try done; try lia.
    right. exists p, c. split; [done|]. split; [lia|]. split; [|done].
    rewrite Nat.sub_0_r. apply pair_at_middle.
  - assert (length (slice l (i - 1) (i + 1)) ≤ 2)%nat as Hl.
    { unfold slice. rewrite length_take. lia. }
    rewrite Es in Hl. simpl in Hl. lia.
Qed.

Lemma scan_loop_length fuel : ∀ s s' x,
  loop fuel s = Some (s', x) →
  (length (scan_domains s') ≤ length (scan_domains s))%nat.
Proof.
  induction fuel as [|fuel IH]; intros s s' x H; [discriminate|].
  rewrite scan_loop_S in H. destruct (step s) as [s1|[s1 x1]] eqn:E.
  - apply IH in H.
    destruct (scan_step_continue _ _ _ _ _ E)
      as (done & p & c & rest & Hl & _ & _ & [->|(_ & Hl' & _)]).
    + rewrite Hl. simpl in H. rewrite !length_app in *. simpl in *. lia.
    + by rewrite <- Hl'.
  - injection H as <- <-. by destruct (scan_step_exit _ _ _ E) as (_ & -> & _).
Qed.

(** A loop that is left normally has deleted at most one element: with
    [i <= len(domains)] the loop test and the [break] can only fire when
    the list is at most one shorter than [total]. *)
Lemma scan_loop_returned fuel : ∀ s s',
  (scan_i s ≤ length (scan_domains s))%nat →
  loop fuel s = Some (s', Returned) →
  (total ≤ length (scan_domains s') + 1)%nat.
Proof.
  induction fuel as [|fuel IH]; intros s s' Hi H; [discriminate|].
  rewrite scan_loop_S in H. destruct (step s) as [s1|[s1 x1]] eqn:E.
  - apply IH in H; [done|].
    destruct (scan_step_continue _ _ _ _ _ E)
      as (done & p & c & rest & Hl & Hi1 & _ & [->|(Hi' & Hl' & _)]).
    + simpl. rewrite Hi1, length_app. simpl. lia.
    + rewrite Hi', Hl', Hl, Hi1, length_app. simpl. lia.
  - injection H as <- ->.
    destruct (scan_step_exit _ _ _ E) as (_ & -> & _ & [Hx _]). lia.
Qed.

(** An exception that ends the loop is the unpacking error or comes out of
    the last call of [is_fragmented_domain]. *)
Lemma scan_loop_raised fuel : ∀ s s' e,
  loop fuel s = Some (s', Raised e) →
  e = unpack_error ∨
  ∃ p c, last (scan_calls s') = Some (p, c) ∧
         is_fragmented_domain (scan_st s') p c coverage_pct tolerance_pct
         = Raise e.
Proof.
  induction fuel as [|fuel IH]; intros s s' e H; [discriminate|].
  rewrite scan_loop_S in H. destruct (step s) as [s1|[s1 x1]] eqn:E.
  - by apply IH in H.
  - injection H as <- ->.
    destruct (scan_step_exit _ _ _ E)
      as (_ & _ & Hst & _ & [(-> & _)|(p & c & Hc & _ & _ & Hf)]); [by left|].
    right. exists p, c. rewrite Hc, Hst, last_snoc. done.
Qed.

(** While nothing has been deleted, the pairs handed to
    [is_fragmented_domain] are pairs of the original list at positions
    [j], [j + 1] with [j + 2 < total]. *)
Lemma scan_loop_calls fuel (l : list ref) : ∀ s s' x,
  loop fuel s = Some (s', x) →
  scan_domains s = l →
  Forall (λ pc, ∃ j, (j + 2 < total)%nat ∧ pair_at l j pc) (scan_calls s) →
  length (scan_domains s') = length l →
  Forall (λ pc, ∃ j, (j + 2 < total)%nat ∧ pair_at l j pc) (scan_calls s').
Proof.
  induction fuel as [|fuel IH]; intros s s' x H Hl Hc Hlen; [discriminate|].
  rewrite scan_loop_S in H. destruct (step s) as [s1|[s1 x1]] eqn:E.
  - destruct (scan_step_continue _ _ _ _ _ E)
      as (done & p & c & rest & Hl1 & Hi1 & Hlt & [->|(Hi' & Hl' & _ & Hc')]).
    + apply scan_loop_length in H. simpl in H.
      rewrite <- Hl, Hl1, !length_app in Hlen. rewrite length_app in H.
      simpl in *. lia.
    + apply (IH _ _ _ H); [congruence| |done].
      destruct Hc' as [->| ->]; [done|].
      apply Forall_app. split; [done|]. apply Forall_singleton.
      exists (length done). split; [lia|].
      rewrite <- Hl, Hl1. apply pair_at_middle.
  - injection H as <- <-.
    destruct (scan_step_exit _ _ _ E) as (Hi & Hd & _ & Hx).
    destruct x1 as [|e].
    + destruct Hx as [_ ->]. done.
    + destruct Hx as [Hlt [(_ & ->)|(p & c & -> & Hpos & Hp & _)]]; [done|].
      apply Forall_app. split; [done|]. apply Forall_singleton.
      exists (scan_i s - 1)%nat. rewrite <- Hl.
      split; [lia|done].
Qed.

(** The loop only writes [end] attributes, and only of objects in its
    list; what it leaves in the list was there before; the first element
    stays. *)
Lemma only_ends_of_refl hits st : only_ends_of hits st st.
Proof. by repeat split. Qed.

Lemma only_ends_of_trans hits st1 st2 st3 :
  only_ends_of hits st1 st2 → only_ends_of hits st2 st3 →
  only_ends_of hits st1 st3.
Proof.
  intros (Hd1 & Hl1 & Hf1 & Ho1) (Hd2 & Hl2 & Hf2 & Ho2).
  split; [congruence|]. split; [congruence|]. split.
  - intros a. specialize (Hf1 a). specialize (Hf2 a).
    unfold same_but_end in *. intuition congruence.
  - intros a Ha. rewrite Ho2, Ho1; done.
Qed.

Lemma only_ends_of_mono hits hits' st st' :
  hits ⊆ hits' → only_ends_of hits st st' → only_ends_of hits' st st'.
Proof.
  intros Hsub (Hd & Hl & Hf & Ho). repeat split; try done; try apply Hf.
  intros a Ha. apply Ho. intros Hin. apply Ha, Hsub, Hin.
Qed.

Lemma set_end_only_ends hits st p e :
  p ∈ hits → only_ends_of hits st (set_end st p e).
Proof.
  intros Hp. unfold only_ends_of, set_end, deref. simpl.
  split; [done|]. split; [by rewrite length_insert|]. split.
  - intros a. destruct (decide (a = p)) as [->|Hne].
    + destruct (decide (p < length (objects st))%nat).
      * rewrite list_lookup_total_insert_eq by done. by repeat split.
      * rewrite list_insert_ge by lia. by repeat split.
    + rewrite list_lookup_total_insert_ne by done. by repeat split.
  - intros a Ha. rewrite list_lookup_total_insert_ne; [done|].
    intros ->. done.
Qed.

Lemma scan_loop_frame fuel : ∀ s s' x,
  loop fuel s = Some (s', x) →
  scan_domains s' ⊆ scan_domains s ∧
  only_ends_of (scan_domains s) (scan_st s) (scan_st s') ∧
  (scan_i s ≠ 0%nat → head (scan_domains s') = head (scan_domains s)).
Proof.
  induction fuel as [|fuel IH]; intros s s' x H; [discriminate|].
  rewrite scan_loop_S in H. destruct (step s) as [s1|[s1 x1]] eqn:E.
  - apply IH in H as (Hsub & Hfr & Hhd).
    destruct (scan_step_continue _ _ _ _ _ E)
      as (done & p & c & rest & Hl & Hi & _ & [->|(Hi' & Hl' & Hst' & _)]).
    + simpl in *. rewrite Hl.
      assert (Hsub' : done ++ p :: rest ⊆ done ++ p :: c :: rest).
      { intros a. rewrite !elem_of_app, !elem_of_cons. tauto. }
      split; [|split].
      * by etrans.
      * apply (only_ends_of_trans _ _
                 (set_end (scan_st s) p (end_ (deref (scan_st s) c)))).
        -- apply set_end_only_ends.
           rewrite elem_of_app, elem_of_cons. tauto.
        -- by eapply only_ends_of_mono.
      * intros _. rewrite Hhd by lia. by destruct done.
    + rewrite Hl', Hst' in *. split; [done|]. split; [done|].
      intros _. apply Hhd. lia.
  - injection H as <- <-.
    destruct (scan_step_exit _ _ _ E) as (_ & -> & -> & _).
    split; [done|]. split; [apply only_ends_of_refl|done].
Qed.
Lemma scan_loop_log fuel : ∀ s s' x,
  loop fuel s = Some (s', x) → LOG (scan_st s') = LOG (scan_st s).
Proof.
  induction fuel as [|fuel IH]; intros s s' x H; [discriminate|].
  rewrite scan_loop_S in H. destruct (step s) as [s1|[s1 x1]] eqn:E.
  - rewrite (IH _ _ _ H).
    destruct (scan_step_continue _ _ _ _ _ E)
      as (pre & p & c & rest & _ & _ & _ & [->|(_ & _ & -> & _)]); done.
  - injection H as <- <-.
    by destruct (scan_step_exit _ _ _ E) as (_ & _ & -> & _).
Qed.
End Invariants.

(** A scan that deletes nothing writes nothing. *)
Lemma scan_loop_unchanged total coverage_pct tolerance_pct fuel : ∀ s s' x,
  scan_loop fuel total coverage_pct tolerance_pct s = Some (s', x) →
  length (scan_domains s') = length (scan_domains s) →
  scan_st s' = scan_st s.
Proof.
  induction fuel as [|fuel IH]; intros s s' x H Hlen; [discriminate|].
  rewrite scan_loop_S in H.
  destruct (scan_step total coverage_pct tolerance_pct s)
    as [s1|[s1 x1]] eqn:E.
  - destruct (scan_step_continue _ _ _ _ _ E)
      as (pre & p & c & rest & Hl & _ & _ & [->|(_ & Hl' & Hst' & _)]).
    + apply scan_loop_length in H. simpl in H.
      rewrite Hl, !length_app in Hlen. rewrite length_app in H.
      simpl in *. lia.
    + rewrite <- Hst'. apply (IH _ _ _ H). congruence.
  - injection H as <- <-.
    by destruct (scan_step_exit _ _ _ _ _ _ E) as (_ & _ & -> & _).
Qed.

(** ** The loop against the walk, on every input *)

Section WalkTotal.
Variables (coverage_pct tolerance_pct : float).
Implicit Types (done rest : list ref) (p c : ref) (st : state).

Local Abbreviation loop fuel total :=
  (scan_loop fuel total coverage_pct tolerance_pct).
Local Abbreviation mwalk st p rest :=
  (merge_walk st p rest coverage_pct tolerance_pct).





End WalkTotal.

(** ** The scan of [filter_domains] as a whole *)

Section MergeScan.
Variables (coverage_pct tolerance_pct : float).

Lemma merge_scan_terminates st domains :
  is_Some (merge_scan st domains coverage_pct tolerance_pct).
Proof.
  apply scan_loop_terminates. unfold scan_measure, scan_fuel. simpl. lia.
Qed.

Lemma filter_domains_terminates st domains by_ :
  is_Some (filter_domains st domains by_ coverage_pct tolerance_pct).
Proof.
  unfold filter_domains. destruct (representatives _ _ _) as [reps|e]; [|done].
  destruct (merge_scan_terminates st reps) as [[s [|e]] ->]; done.
Qed.

(** The loop agrees with the walk of the specification whenever the walk
    merges at most once and not at the last pair of the list. *)
Lemma merge_scan_walk st domains st' out m :
  walk st domains coverage_pct tolerance_pct = (st', Ok out, m) →
  (m ≤ 1)%nat →
  (walk st (removelast domains) coverage_pct tolerance_pct).2 = m →
  ∃ s, merge_scan st domains coverage_pct tolerance_pct = Some (s, Returned)
       ∧ scan_domains s = out ∧ scan_st s = st'.
Proof.
  intros Hw Hm Hlast. unfold merge_scan.
  destruct domains as [|p rest].
  { simpl in Hw. injection Hw as <- <- <-. simpl. by eexists. }
  simpl in Hw.
  assert (Hlast' : (merge_walk st p (removelast rest)
                      coverage_pct tolerance_pct).2 = m).
  { destruct rest as [|c rest]; [|exact Hlast].
    simpl in Hlast. by subst m. }
  apply (scan_before_merge coverage_pct tolerance_pct
           (length (p :: rest)) rest [] p st [] _ st' out m);
    try done.
  unfold scan_measure, scan_fuel. simpl. lia.
Qed.

(** A scan that has deleted two or more elements cannot be left normally. *)
Lemma merge_scan_two_deletions st domains s x :
  merge_scan st domains coverage_pct tolerance_pct = Some (s, x) →
  (length (scan_domains s) + 2 ≤ length domains)%nat →
  ∃ e, x = Raised e ∧
       (e = unpack_error ∨
        ∃ p c, last (scan_calls s) = Some (p, c) ∧
               is_fragmented_domain (scan_st s) p c coverage_pct tolerance_pct
               = Raise e).
Proof.
  intros H Hlen. unfold merge_scan in H. destruct x as [|e].
  - apply scan_loop_returned in H; [lia|]. simpl.
    destruct domains; simpl in *; lia.
  - exists e. split; [done|]. by apply scan_loop_raised in H.
Qed.


(** Without a deletion the last pair of the list is never examined. *)
Lemma merge_scan_calls st domains s x :
  merge_scan st domains coverage_pct tolerance_pct = Some (s, x) →
  length (scan_domains s) = length domains →
  Forall (λ pc, ∃ j, (j + 2 < length domains)%nat ∧ pair_at domains j pc)
         (scan_calls s).
Proof.
  intros H Hlen. unfold merge_scan in H.
  by apply (scan_loop_calls _ _ _ _ domains _ _ _ H).
Qed.

Lemma merge_scan_frame st domains s x :
  merge_scan st domains coverage_pct tolerance_pct = Some (s, x) →
  scan_domains s ⊆ domains ∧ only_ends_of domains st (scan_st s) ∧
  LOG (scan_st s) = LOG st ∧
  head (scan_domains s) = head domains.
Proof.
  intros H. unfold merge_scan in H.
  pose proof (scan_loop_frame _ _ _ _ _ _ _ H) as (Hsub & Hfr & Hhd).
  pose proof (scan_loop_log _ _ _ _ _ _ _ H) as Hlog.
  split; [exact Hsub|]. split; [exact Hfr|]. split; [exact Hlog|].
  by apply Hhd.
Qed.
End MergeScan.

(** ** The stable sort *)

Section Sorting.
Context {K A : Type}.
Variables (lt : K → K → bool) (valid : K → Prop).
Implicit Types (x y : K * A) (l s : list (K * A)).

(** [<] is a strict weak order on the valid keys. *)
Hypothesis lt_asym : ∀ a b, valid a → valid b → lt a b = true → lt b a = false.
Hypothesis lt_negtrans : ∀ a b c, valid a → valid b → valid c →
  lt a b = false → lt b c = false → lt a c = false.

Lemma insort_perm x l : insort lt x l ≡ₚ x :: l.
Proof.
  induction l as [|y l IH]; simpl; [done|].
  destruct (lt y.1 x.1); [|done]. rewrite IH. apply Permutation_swap.
Qed.

Lemma stable_sort_perm l : stable_sort lt l ≡ₚ l.
Proof.
  induction l as [|x l IH]; simpl; [done|].
  unfold stable_sort in *. simpl. by rewrite insort_perm, IH.
Qed.

Lemma stable_sort_cons x l :
  stable_sort lt (x :: l) = insort lt x (stable_sort lt l).
Proof. done. Qed.

Lemma stable_sort_valid l :
  Forall (λ y, valid y.1) l → Forall (λ y, valid y.1) (stable_sort lt l).
Proof. intros H. by rewrite stable_sort_perm. Qed.

(** The sorted list is ascending: no element is smaller than one before
    it. *)
Lemma insort_sorted x s :
  valid x.1 → Forall (λ y, valid y.1) s →
  StronglySorted (λ a b, lt b.1 a.1 = false) s →
  StronglySorted (λ a b, lt b.1 a.1 = false) (insort lt x s).
Proof.
  intros Hx Hv Hs. induction Hs as [|y s Hs IH Hy]; simpl.
  { repeat constructor. }
  apply Forall_cons in Hv as [Hvy Hv].
  destruct (lt y.1 x.1) eqn:E.
  - constructor; [by apply IH|].
    rewrite insort_perm. constructor; [by apply lt_asym|done].
  - constructor; [by constructor|]. constructor; [done|].
    rewrite Forall_forall in Hy, Hv. apply Forall_forall. intros z Hz.
    apply (lt_negtrans _ y.1); auto.
Qed.

Lemma stable_sort_sorted l :
  Forall (λ y, valid y.1) l →
  StronglySorted (λ a b, lt b.1 a.1 = false) (stable_sort lt l).
Proof.
  induction l as [|x l IH]; intros Hv.
  { constructor. }
  apply Forall_cons in Hv as [Hx Hv]. rewrite stable_sort_cons.
  apply insort_sorted; [done| by apply stable_sort_valid | by apply IH].
Qed.

(** An element whose key is not below any other goes last when it comes
    last. *)
Lemma insort_snoc x y s :
  lt y.1 x.1 = false → insort lt x (s ++ [y]) = insort lt x s ++ [y].
Proof.
  intros H. induction s as [|z s IH]; simpl.
  - by rewrite H.
  - destruct (lt z.1 x.1); [by rewrite IH|done].
Qed.

Lemma stable_sort_snoc l y :
  Forall (λ x, lt y.1 x.1 = false) l →
  stable_sort lt (l ++ [y]) = stable_sort lt l ++ [y].
Proof.
  induction l as [|x l IH]; intros H; [done|].
  apply Forall_cons in H as [Hx H]. rewrite <- app_comm_cons.
  rewrite !stable_sort_cons, IH by done. by apply insort_snoc.
Qed.

(** The first element of the sorted list is the first minimal element of
    the input: everything before it is larger, nothing after it is
    smaller. *)
Lemma stable_sort_head l :
  Forall (λ y, valid y.1) l → l ≠ [] →
  ∃ pre x post,
    l = pre ++ x :: post ∧ head (stable_sort lt l) = Some x ∧
    Forall (λ y, lt x.1 y.1 = true) pre ∧
    Forall (λ y, lt y.1 x.1 = false) post.
Proof.
  induction l as [|x0 l IH]; intros Hv Hne; [done|].
  apply Forall_cons in Hv as [Hx0 Hv]. rewrite stable_sort_cons.
  destruct l as [|x1 l].
  { exists [], x0, []. by repeat split. }
  destruct (IH Hv) as (pre & x & post & Hl & Hh & Hpre & Hpost); [done|].
  assert (Hvx : valid x.1).
  { rewrite Hl in Hv. by apply Forall_app in Hv as [_ [? _]%Forall_cons]. }
  assert (Hvpre : Forall (λ y, valid y.1) pre).
  { rewrite Hl in Hv. by apply Forall_app in Hv as [? _]. }
  assert (Hvpost : Forall (λ y, valid y.1) post).
  { rewrite Hl in Hv. by apply Forall_app in Hv as [_ [_ ?]%Forall_cons]. }
  destruct (stable_sort lt (x1 :: l)) as [|h s] eqn:Es; [done|].
  injection Hh as ->. simpl.
  destruct (lt x.1 x0.1) eqn:E.
  - exists (x0 :: pre), x, post. rewrite Hl. repeat split; try done.
    by constructor.
  - exists [], x0, (x1 :: l). repeat split; try done.
    rewrite Hl. apply Forall_app. split; [|constructor; [done|]].
    + rewrite Forall_forall in Hpre, Hvpre. apply Forall_forall. intros y Hy.
      apply (lt_negtrans _ x.1); auto.
    + rewrite Forall_forall in Hpost, Hvpost. apply Forall_forall.
      intros y Hy. apply (lt_negtrans _ x.1); auto.
Qed.

Lemma insort_last_keep x s z :
  last s = Some z → lt z.1 x.1 = false → last (insort lt x s) = Some z.
Proof.
  intros Hl Hz. induction s as [|y s IH]; [done|]. simpl.
  destruct s as [|y' s].
  - simpl in Hl. injection Hl as ->. by rewrite Hz.
  - destruct (lt y.1 x.1); [|done].
    specialize (IH Hl). simpl in *.
    by destruct (lt y'.1 x.1); destruct (insort lt x s).
Qed.

Lemma insort_last_new x s :
  Forall (λ y, lt y.1 x.1 = true) s → insort lt x s = s ++ [x].
Proof.
  induction 1 as [|y s Hy _ IH]; simpl; [done|]. by rewrite Hy, IH.
Qed.

(** The last element of the sorted list is the last maximal element of
    the input: nothing before it is larger, everything after it is
    smaller. *)
Lemma stable_sort_last l :
  Forall (λ y, valid y.1) l → l ≠ [] →
  ∃ pre x post,
    l = pre ++ x :: post ∧ last (stable_sort lt l) = Some x ∧
    Forall (λ y, lt x.1 y.1 = false) pre ∧
    Forall (λ y, lt y.1 x.1 = true) post.
Proof.
  induction l as [|x0 l IH]; intros Hv Hne; [done|].
  apply Forall_cons in Hv as [Hx0 Hv]. rewrite stable_sort_cons.
  destruct l as [|x1 l].
  { exists [], x0, []. by repeat split. }
  destruct (IH Hv) as (pre & x & post & Hl & Hh & Hpre & Hpost); [done|].
  assert (Hvx : valid x.1).
  { rewrite Hl in Hv. by apply Forall_app in Hv as [_ [? _]%Forall_cons]. }
  assert (Hvpre : Forall (λ y, valid y.1) pre).
  { rewrite Hl in Hv. by apply Forall_app in Hv as [? _]. }
  assert (Hvpost : Forall (λ y, valid y.1) post).
  { rewrite Hl in Hv. by apply Forall_app in Hv as [_ [_ ?]%Forall_cons]. }
  destruct (lt x.1 x0.1) eqn:E.
  - (* the new element is above everything: it goes last *)
    assert (Hall : Forall (λ y, lt y.1 x0.1 = true) (x1 :: l)).
    { rewrite Hl. apply Forall_app. split; [|constructor; [done|]].
      - rewrite Forall_forall in Hpre, Hvpre. apply Forall_forall.
        intros y Hy. destruct (lt y.1 x0.1) eqn:E'; [done|].
        rewrite (lt_negtrans x.1 y.1 x0.1) in E; auto.
      - rewrite Forall_forall in Hpost, Hvpost. apply Forall_forall.
        intros y Hy. destruct (lt y.1 x0.1) eqn:E'; [done|].
        rewrite (lt_negtrans x.1 y.1 x0.1) in E; auto. }
    exists [], x0, (x1 :: l). split; [done|]. split; [|done].
    rewrite insort_last_new by by rewrite stable_sort_perm.
    apply last_snoc.
  - exists (x0 :: pre), x, post. rewrite Hl. split; [done|].
    split; [|split; [by constructor|done]].
    rewrite <- Hl. by apply insort_last_keep.
Qed.
End Sorting.

(** ** Grouping *)

Section Grouping.
Variable st : state.
Implicit Types (d x : ref) (g group rest domains : list ref).

Local Abbreviation start_of d := (start (deref st d)).
Local Abbreviation end_of d := (end_ (deref st d)).
Local Abbreviation by_start := (λ d, (PyInt (start_of d), d)).

Lemma zip_fmap_self {A B : Type} (f : A → B) (l : list A) :
  zip (f <$> l) l = (λ a, (f a, a)) <$> l.
Proof. induction l as [|a l IH]; csimpl; [done|]. by rewrite IH. Qed.

Lemma sorted_by_start_unfold domains :
  sorted_by_start st domains = (stable_sort py_lt (by_start <$> domains)).*2.
Proof. unfold sorted_by_start, sorted_decorated. by rewrite zip_fmap_self. Qed.

Lemma sorted_by_start_perm domains : sorted_by_start st domains ≡ₚ domains.
Proof.
  rewrite sorted_by_start_unfold, stable_sort_perm.
  rewrite <- list_fmap_compose. by rewrite list_fmap_id.
Qed.

Lemma int_keys_valid domains :
  Forall (λ y : pynum * ref, ∃ z, y.1 = PyInt z) (by_start <$> domains).
Proof. apply Forall_fmap, Forall_true. intros d. by eexists. Qed.

Lemma py_lt_int_asym a b :
  (∃ z, a = PyInt z) → (∃ z, b = PyInt z) →
  py_lt a b = true → py_lt b a = false.
Proof. intros [x ->] [y ->]. simpl. rewrite Z.ltb_lt, Z.ltb_ge. lia. Qed.

Lemma py_lt_int_negtrans a b c :
  (∃ z, a = PyInt z) → (∃ z, b = PyInt z) → (∃ z, c = PyInt z) →
  py_lt a b = false → py_lt b c = false → py_lt a c = false.
Proof. intros [x ->] [y ->] [z ->]. simpl. rewrite !Z.ltb_ge. lia. Qed.

Lemma sorted_by_start_sorted domains :
  StronglySorted (λ a b, start_of a <= start_of b) (sorted_by_start st domains).
Proof.
  rewrite sorted_by_start_unfold.
  pose proof (stable_sort_sorted py_lt _ py_lt_int_asym py_lt_int_negtrans
                _ (int_keys_valid domains)) as Hs.
  assert (Hk : Forall (λ y : pynum * ref, y.1 = PyInt (start_of y.2))
                 (stable_sort py_lt (by_start <$> domains))).
  { rewrite stable_sort_perm. apply Forall_fmap, Forall_true. done. }
  induction Hs as [|y s Hs IH Hy]; csimpl; [constructor|].
  apply Forall_cons in Hk as [Hky Hk].
  constructor; [by apply IH|].
  apply Forall_fmap. rewrite Forall_forall in Hy, Hk. apply Forall_forall.
  intros z Hz. specialize (Hy z Hz). specialize (Hk z Hz). simpl.
  rewrite Hky, Hk in Hy. simpl in Hy. apply Z.ltb_ge in Hy. lia.
Qed.

Lemma sorted_by_start_snoc domains x :
  Forall (λ d, start_of d <= start_of x) domains →
  sorted_by_start st (domains ++ [x]) = sorted_by_start st domains ++ [x].
Proof.
  intros H. rewrite !sorted_by_start_unfold, fmap_app. csimpl.
  rewrite stable_sort_snoc; [by rewrite fmap_app|].
  apply Forall_fmap. eapply Forall_impl; [exact H|].
  intros d Hd. simpl in *. apply Z.ltb_ge. lia.
Qed.

Lemma group_loop_concat rest : ∀ g border,
  concat (group_loop st g border rest) = g ++ rest.
Proof.
  induction rest as [|d rest IH]; intros g border; simpl.
  { by rewrite app_nil_r. }
  destruct (_ <=? _).
  - by rewrite IH, <- app_assoc.
  - simpl. by rewrite IH.
Qed.

Lemma group_loop_nonempty rest : ∀ g border,
  g ≠ [] → Forall (λ group, group ≠ []) (group_loop st g border rest).
Proof.
  induction rest as [|d rest IH]; intros g border Hg; simpl.
  { by constructor. }
  destruct (_ <=? _).
  - apply IH. by destruct g.
  - constructor; [done|]. by apply IH.
Qed.

Lemma max_end_snoc g d :
  g ≠ [] → max_end st (g ++ [d]) = Z.max (max_end st g) (end_of d).
Proof.
  destruct g as [|first g]; [done|]. intros _. simpl.
  by rewrite foldl_app.
Qed.

(** [border] is the largest [end] of the open group, and the hit that comes
    last joins the last group exactly when its start plus ten does not
    exceed it. *)
Lemma group_loop_snoc x rest : ∀ g border,
  g ≠ [] → border = max_end st g →
  ∃ init last_group,
    group_loop st g border rest = init ++ [last_group] ∧ last_group ≠ [] ∧
    group_loop st g border (rest ++ [x]) =
      if start_of x + 10 <=? max_end st last_group
      then init ++ [last_group ++ [x]]
      else init ++ [last_group; [x]].
Proof.
  induction rest as [|d rest IH]; intros g border Hg ->; simpl.
  { exists [], g. split; [done|]. split; [done|]. by destruct (_ <=? _). }
  destruct (start_of d + 10 <=? max_end st g).
  - apply IH; [by destruct g|]. by rewrite max_end_snoc.
  - destruct (IH [d] (end_of d)) as (init & lg & H1 & Hlg & H2); [done..|].
    exists (g :: init), lg. rewrite H1, H2. split; [done|]. split; [done|].
    by destruct (_ <=? _).
Qed.

(** Heads of groups cut from a list sorted by start are sorted by start. *)
Lemma group_heads_sorted (groups : list (list ref)) :
  Forall (λ group, group ≠ []) groups →
  StronglySorted (λ a b, start_of a <= start_of b) (concat groups) →
  StronglySorted
    (λ g1 g2, ∀ a b, head g1 = Some a → head g2 = Some b →
                     start_of a <= start_of b) groups.
Proof.
  induction 1 as [|g groups Hg Hne IH]; simpl; intros Hs; [constructor|].
  apply StronglySorted_app in Hs as (Hab & _ & Hs).
  constructor; [by apply IH|].
  apply Forall_forall. intros g' Hg' a b Ha Hb. apply Hab.
  - destruct g; simplify_eq/=. apply list_elem_of_here.
  - apply list_elem_of_In, in_concat. exists g'.
    split; apply list_elem_of_In; [done|].
    destruct g'; simplify_eq/=. apply list_elem_of_here.
Qed.
Lemma groups_perm domains :
  concat (group_overlapping_hits st domains) ≡ₚ domains.
Proof.
  pose proof (sorted_by_start_perm domains) as Hperm.
  unfold group_overlapping_hits.
  destruct (sorted_by_start st domains) as [|first rest] eqn:E; [done|].
  by rewrite group_loop_concat.
Qed.

Lemma groups_nonempty domains :
  Forall (λ group, group ≠ []) (group_overlapping_hits st domains).
Proof.
  unfold group_overlapping_hits.
  destruct (sorted_by_start st domains) as [|first rest]; [constructor|].
  by apply group_loop_nonempty.
Qed.
End Grouping.

(** ** Comparing floats that are not NaN *)

Lemma SFcompare_rank a b :
  a ≠ S754_nan → b ≠ S754_nan →
  ∃ c, SFcompare a b = Some c ∧
       match c with
       | Lt => lex_lt (SFrank a) (SFrank b)
       | Eq => SFrank a = SFrank b
       | Gt => lex_lt (SFrank b) (SFrank a)
       end.
Proof.
  intros Ha Hb.
  destruct a as [sa|sa| |sa ma ea], b as [sb|sb| |sb mb eb]; try done;
    try (destruct sa, sb; eexists; (split; [reflexivity|]);
         unfold lex_lt; simpl; first [done | lia]).
  unfold SFcompare.
  change (PosDef.Pos.compare_cont Eq ma mb) with (Pos.compare ma mb).
  destruct sa, sb; eexists; (split; [reflexivity|]);
    destruct (Z.compare_spec ea eb), (Pos.compare_spec ma mb);
    subst; unfold lex_lt; simpl; first [done | lia].
Qed.

Lemma lex_lt_asym a b : lex_lt a b → ¬ lex_lt b a.
Proof. unfold lex_lt. destruct a as [[? ?] ?], b as [[? ?] ?]. simpl. lia. Qed.

Lemma lex_lt_negtrans a b c : ¬ lex_lt a b → ¬ lex_lt b c → ¬ lex_lt a c.
Proof.
  unfold lex_lt. destruct a as [[? ?] ?], b as [[? ?] ?], c as [[? ?] ?].
  simpl. lia.
Qed.

Lemma lex_lt_irrefl a : ¬ lex_lt a a.
Proof. unfold lex_lt. destruct a as [[? ?] ?]. simpl. lia. Qed.

Lemma SFltb_rank a b :
  a ≠ S754_nan → b ≠ S754_nan →
  SFltb a b = true ↔ lex_lt (SFrank a) (SFrank b).
Proof.
  intros Ha Hb. destruct (SFcompare_rank a b Ha Hb) as (c & Hc & Hr).
  unfold SFltb. rewrite Hc. destruct c.
  - split; [done|]. rewrite Hr. intros []%lex_lt_irrefl.
  - done.
  - split; [done|]. intros H. by apply lex_lt_asym in H.
Qed.

Lemma SFleb_rank a b :
  a ≠ S754_nan → b ≠ S754_nan →
  SFleb a b = true ↔ ¬ lex_lt (SFrank b) (SFrank a).
Proof.
  intros Ha Hb. destruct (SFcompare_rank a b Ha Hb) as (c & Hc & Hr).
  unfold SFleb. rewrite Hc. destruct c.
  - split; [|done]. intros _. rewrite Hr. apply lex_lt_irrefl.
  - split; [|done]. intros _. by apply lex_lt_asym.
  - split; [done|]. intros H. done.
Qed.

Lemma Prim2SF_not_nan x : is_nan x = false → Prim2SF x ≠ S754_nan.
Proof.
  unfold is_nan. rewrite FloatAxioms.eqb_spec. intros H Hn. rewrite Hn in H. done.
Qed.

Lemma float_ltb_rank x y :
  is_nan x = false → is_nan y = false →
  (x <? y)%float = true ↔ lex_lt (SFrank (Prim2SF x)) (SFrank (Prim2SF y)).
Proof.
  intros Hx Hy. rewrite FloatAxioms.ltb_spec.
  by apply SFltb_rank; apply Prim2SF_not_nan.
Qed.

Lemma float_leb_rank x y :
  is_nan x = false → is_nan y = false →
  (x <=? y)%float = true ↔ ¬ lex_lt (SFrank (Prim2SF y)) (SFrank (Prim2SF x)).
Proof.
  intros Hx Hy. rewrite FloatAxioms.leb_spec.
  by apply SFleb_rank; apply Prim2SF_not_nan.
Qed.

Lemma float_leb_not_ltb x y :
  is_nan x = false → is_nan y = false →
  (y <? x)%float = false → (x <=? y)%float = true.
Proof.
  intros Hx Hy H. apply float_leb_rank; [done..|].
  intros Hlt. apply float_ltb_rank in Hlt; [congruence|done..].
Qed.

Lemma py_lt_float_asym a b :
  valid_key a → valid_key b → py_lt a b = true → py_lt b a = false.
Proof.
  destruct a as [za|x], b as [zb|y]; try done. simpl. intros Hx Hy H.
  apply float_ltb_rank in H; [|done..].
  destruct (y <? x)%float eqn:E; [|done].
  apply float_ltb_rank in E; [|done..]. by apply lex_lt_asym in H.
Qed.

Lemma py_lt_float_negtrans a b c :
  valid_key a → valid_key b → valid_key c →
  py_lt a b = false → py_lt b c = false → py_lt a c = false.
Proof.
  destruct a as [za|x], b as [zb|y], c as [zc|z]; try done. simpl.
  intros Hx Hy Hz H1 H2.
  destruct (x <? z)%float eqn:E; [|done].
  apply float_ltb_rank in E; [|done..].
  exfalso. revert E. apply (lex_lt_negtrans _ (SFrank (Prim2SF y))).
  - intros H. apply float_ltb_rank in H; [congruence|done..].
  - intros H. apply float_ltb_rank in H; [congruence|done..].
Qed.

(** ** Choosing the representative *)

Lemma mapM_Ok {A B : Type} (f : A → result B) (g : A → B) (l : list A) :
  Forall (λ a, f a = Ok (g a)) l → mapM f l = Ok (g <$> l).
Proof.
  induction 1 as [|a l Ha _ IH]; [done|].
  simpl. rewrite Ha. simpl. by rewrite IH.
Qed.

Lemma fmap_split {A B : Type} (f : A → B) (l : list A) pre x post :
  f <$> l = pre ++ x :: post →
  ∃ pre' a post', l = pre' ++ a :: post' ∧ pre = f <$> pre' ∧ x = f a ∧
                  post = f <$> post'.
Proof.
  intros H. apply fmap_app_inv in H as (pre' & rest & -> & H & ->).
  symmetry in H. apply fmap_cons_inv in H as (a & post' & -> & -> & ->).
  by exists pre', a, post'.
Qed.

Section Choose.
Variables (st : state) (valid : pynum → Prop).
Hypothesis lt_asym :
  ∀ a b, valid a → valid b → py_lt a b = true → py_lt b a = false.
Hypothesis lt_negtrans : ∀ a b c, valid a → valid b → valid c →
  py_lt a b = false → py_lt b c = false → py_lt a c = false.

(** The representative is the first best hit of the group: with an
    ascending sort every earlier hit has a larger key and no later hit a
    smaller one; with [reverse=True] every earlier hit has a smaller key and
    no later hit a larger one. *)
Lemma choose_first_best (group : list ref) by_ key reverse_
    (keyval : ref → pynum) :
  key_functions st by_ = Some (key, reverse_) →
  group ≠ [] →
  Forall (λ d, key d = Ok (keyval d)) group →
  Forall (λ d, valid (keyval d)) group →
  ∃ pre best post,
    group = pre ++ best :: post ∧
    choose_representative_domain st group by_ = Ok best ∧
    if reverse_
    then Forall (λ d, py_lt (keyval d) (keyval best) = true) pre ∧
         Forall (λ d, py_lt (keyval best) (keyval d) = false) post
    else Forall (λ d, py_lt (keyval best) (keyval d) = true) pre ∧
         Forall (λ d, py_lt (keyval d) (keyval best) = false) post.
Proof.
  intros Hkey Hne Hk Hv. unfold choose_representative_domain, sorted.
  rewrite Hkey, (mapM_Ok _ _ _ Hk). simpl.
  rewrite zip_fmap_self. unfold sorted_decorated.
  set (dec := λ d : ref, (keyval d, d)).
  assert (Hvd : Forall (λ y : pynum * ref, valid y.1) (dec <$> group)).
  { by apply Forall_fmap. }
  assert (Hned : dec <$> group ≠ []) by by destruct group.
  destruct reverse_.
  - assert (Hvr : Forall (λ y : pynum * ref, valid y.1)
                    (reverse (dec <$> group))) by by rewrite reverse_Permutation.
    destruct (stable_sort_last py_lt valid lt_asym lt_negtrans _ Hvr)
      as (dpre & x & dpost & Hl & Hlast & Hpre & Hpost).
    { intros H. apply (f_equal reverse) in H.
      by rewrite reverse_involutive in H. }
    apply (f_equal reverse) in Hl.
    rewrite reverse_involutive, reverse_app, reverse_cons, <- app_assoc in Hl.
    simpl in Hl.
    apply fmap_split in Hl as (pre & best & post & -> & Hp1 & -> & Hp2).
    exists pre, best, post. split; [done|].
    apply last_Some in Hlast as [s' ->].
    rewrite reverse_snoc. simpl. split; [done|]. split.
    + apply (f_equal reverse) in Hp1. rewrite reverse_involutive in Hp1.
      subst dpost. rewrite <- fmap_reverse, Forall_fmap in Hpost.
      by rewrite reverse_Permutation in Hpost.
    + apply (f_equal reverse) in Hp2. rewrite reverse_involutive in Hp2.
      subst dpre. rewrite <- fmap_reverse, Forall_fmap in Hpre.
      by rewrite reverse_Permutation in Hpre.
  - destruct (stable_sort_head py_lt valid lt_asym lt_negtrans _ Hvd Hned)
      as (dpre & x & dpost & Hl & Hhead & Hpre & Hpost).
    apply fmap_split in Hl as (pre & best & post & -> & -> & -> & ->).
    exists pre, best, post. split; [done|].
    destruct (stable_sort py_lt _) as [|y s]; [done|].
    injection Hhead as ->. simpl. split; [done|].
    by rewrite !Forall_fmap in Hpre, Hpost.
Qed.
End Choose.

(** ** [filter_domains] and [filter_results] as a whole *)

Lemma mapM_Ok_inv {A B : Type} (f : A → result B) (l : list A) (k : list B) :
  mapM f l = Ok k → Forall2 (λ a b, f a = Ok b) l k.
Proof.
  revert k. induction l as [|a l IH]; intros k H; simpl in H.
  { injection H as <-. constructor. }
  destruct (f a) as [b|e] eqn:Ea; [|discriminate]. simpl in H.
  destruct (mapM f l) as [k'|e] eqn:El; [|discriminate]. simpl in H.
  injection H as <-. constructor; [done|]. by apply IH.
Qed.

Lemma mapM_Raise_inv {A B : Type} (f : A → result B) (l : list A) e :
  mapM f l = Raise e → ∃ a, a ∈ l ∧ f a = Raise e.
Proof.
  induction l as [|a l IH]; intros H; simpl in H; [discriminate|].
  destruct (f a) as [b|e'] eqn:Ea; simpl in H.
  - destruct (mapM f l) as [k'|e'] eqn:El; [discriminate|]. simpl in H.
    injection H as ->. destruct IH as (a' & Ha' & Hf); [done|].
    exists a'. split; [by apply list_elem_of_further|done].
  - injection H as ->. exists a. split; [apply list_elem_of_here|done].
Qed.

Lemma sorted_decorated_perm {K A : Type} (lt : K → K → bool)
    (decorated : list (K * A)) reverse_ :
  sorted_decorated lt decorated reverse_ ≡ₚ decorated.*2.
Proof.
  unfold sorted_decorated. destruct reverse_.
  - by rewrite reverse_Permutation, stable_sort_perm, reverse_Permutation.
  - by rewrite stable_sort_perm.
Qed.

(** The representative is a member of its group. *)
Lemma choose_member st (group : list ref) by_ best :
  choose_representative_domain st group by_ = Ok best → best ∈ group.
Proof.
  unfold choose_representative_domain, sorted.
  destruct (key_functions st by_) as [[key reverse_]|]; [|done].
  destruct (mapM key group) as [keys|e] eqn:Ek; [|done]. simpl.
  pose proof (sorted_decorated_perm py_lt (zip keys group) reverse_) as Hp.
  destruct (sorted_decorated _ _ _) as [|b s]; [done|].
  intros [= ->].
  apply mapM_Ok_inv, Forall2_length in Ek.
  rewrite snd_zip in Hp by lia. rewrite <- Hp. apply list_elem_of_here.
Qed.

Lemma representatives_members st (domains : list ref) by_ reps :
  representatives st domains by_ = Ok reps →
  reps ⊆ domains ∧ length reps = length (group_overlapping_hits st domains).
Proof.
  intros H. apply mapM_Ok_inv in H.
  split; [|symmetry; by eapply Forall2_length].
  intros r Hr. rewrite <- (groups_perm st domains).
  apply list_elem_of_lookup in Hr as [i Hi].
  destruct (Forall2_lookup_r _ _ _ _ _ H Hi) as (g & Hg & Hc).
  apply list_elem_of_In, in_concat. exists g.
  split; apply list_elem_of_In.
  - by eapply list_elem_of_lookup_2.
  - by eapply choose_member.
Qed.

Section Filter.
Variables (by_ : string) (coverage_pct tolerance_pct : float).

Local Abbreviation fdomains st domains :=
  (filter_domains st domains by_ coverage_pct tolerance_pct).

Lemma filter_domains_empty st : fdomains st [] = Some (st, Ok []).
Proof. done. Qed.

(** What [filter_domains] writes, and what it returns. *)
Lemma filter_domains_frame st (domains : list ref) st' r :
  fdomains st domains = Some (st', r) →
  only_ends_of domains st st' ∧ LOG st' = LOG st ∧
  (∀ e, representatives st domains by_ = Raise e → st' = st ∧ r = Raise e) ∧
  (∀ kept, r = Ok kept →
     kept ⊆ domains ∧ (domains ≠ [] → kept ≠ []) ∧
     (length kept = length (group_overlapping_hits st domains) → st' = st)).
Proof.
  unfold filter_domains.
  destruct (representatives st domains by_) as [reps|e] eqn:Er.
  2:{ intros [= <- <-]. split; [apply only_ends_of_refl|].
      split; [done|]. split; [by intros ? [= ->]|done]. }
  destruct (representatives_members _ _ _ _ Er) as [Hsub Hlen].
  destruct (merge_scan st reps coverage_pct tolerance_pct)
    as [[s x]|] eqn:Es; [|done].
  destruct (merge_scan_frame _ _ _ _ _ _ Es) as (Hs & Hfr & Hlog & Hhd).
  intros H.
  assert (Hst : st' = scan_st s) by (destruct x; by injection H as <- _).
  subst st'.
  split; [by eapply only_ends_of_mono|]. split; [done|]. split; [done|].
  intros kept ->. destruct x as [|e]; [|done]. injection H as <-.
  split; [by etrans|]. split.
  - intros Hne Hk. rewrite Hk in Hhd. simpl in Hhd.
    destruct reps as [|r reps]; [|done].
    pose proof (groups_perm st domains) as Hperm.
    simpl in Hlen. symmetry in Hlen. apply nil_length_inv in Hlen.
    rewrite Hlen in Hperm. simpl in Hperm.
    by apply Permutation_nil_l in Hperm.
  - intros Hk. rewrite <- Hlen in Hk. unfold merge_scan in Es.
    by apply scan_loop_unchanged in Es.
Qed.

Lemma filter_domains_kept_empty st (domains : list ref) st' :
  fdomains st domains = Some (st', Ok []) → domains = [].
Proof.
  intros H. destruct (filter_domains_frame _ _ _ _ H) as (_ & _ & _ & Hk).
  destruct (Hk [] eq_refl) as (_ & Hne & _).
  destruct domains; [done|]. by destruct Hne.
Qed.

(** ** Dictionaries *)

Lemma dict_set_fresh {V : Type} (k : string) (v : V) (d : dict V) :
  k ∉ d.*1 → dict_set k v d = d ++ [(k, v)].
Proof.
  induction d as [|[k' v'] d IH]; intros Hk; simpl; [done|].
  rewrite fmap_cons, not_elem_of_cons in Hk. destruct Hk as [Hne Hk].
  simpl in Hne. apply String.eqb_neq in Hne. rewrite Hne.
  by rewrite IH.
Qed.

Lemma dict_get_NoDup {V : Type} (k : string) (v : V) (d : dict V) :
  NoDup d.*1 → (k, v) ∈ d → dict_get k d = Some v.
Proof.
  induction d as [|[k' v'] d IH]; intros Hnd Hin; [by inv Hin|].
  rewrite fmap_cons in Hnd. apply NoDup_cons in Hnd as [Hk' Hnd].
  simpl. destruct (String.eqb_spec k k') as [->|Hne].
  - apply elem_of_cons in Hin as [[= ->]|Hin]; [done|].
    destruct Hk'. apply list_elem_of_fmap. by exists (k', v).
  - apply elem_of_cons in Hin as [[= -> ->]|Hin]; [done|]. by apply IH.
Qed.

(** ** The loop of [filter_results] *)

Lemma filter_results_loop_spec (items : dict (list ref)) :
  ∀ st (filtered : dict (list ref)),
  NoDup (filtered.*1 ++ items.*1) →
  ∃ st' r,
    filter_results_loop st items filtered by_ coverage_pct tolerance_pct
    = Some (st', r) ∧
    only_ends_of (concat items.*2) st st' ∧
    match r with
    | Ok out =>
        ∃ new, out = filtered ++ new ∧
          Forall2 (λ item kept, kept.1 = item.1 ∧ (kept.2 = [] ↔ item.2 = []))
                  items new ∧
          LOG st' = LOG st ++
            (no_domains_message <$> (filter (λ item, item.2 = []) items).*1)
    | Raise e =>
        ∃ name hits st0,
          (name, hits) ∈ items ∧ hits ≠ [] ∧
          snd <$> fdomains st0 hits = Some (Raise e)
    end.
Proof.
  induction items as [|[name hits] items IH]; intros st filtered Hnd.
  { exists st, (Ok filtered). split; [done|].
    split; [apply only_ends_of_refl|].
    exists []. rewrite !app_nil_r. by repeat split. }
  simpl filter_results_loop.
  destruct (filter_domains_terminates coverage_pct tolerance_pct st hits by_)
    as [[st1 r1] Hf].
  rewrite Hf.
  destruct (filter_domains_frame _ _ _ _ Hf) as (Hfr & Hlog & _ & Hk).
  destruct r1 as [kept|e].
  2:{ exists st1, (Raise e). split; [done|]. split.
      - eapply only_ends_of_mono; [|exact Hfr].
        simpl. intros a Ha. apply elem_of_app. by left.
      - exists name, hits, st. split; [apply list_elem_of_here|].
        split; [|by rewrite Hf].
        intros ->. rewrite filter_domains_empty in Hf. by injection Hf. }
  destruct (Hk kept eq_refl) as (_ & Hne & _).
  assert (Hempty : kept = [] ↔ hits = []).
  { split.
    - intros ->. by eapply filter_domains_kept_empty.
    - intros ->. rewrite filter_domains_empty in Hf. by injection Hf. }
  rewrite fmap_cons in Hnd. simpl in Hnd.
  assert (Hfresh : name ∉ filtered.*1).
  { apply NoDup_app in Hnd as (_ & Hd & _). intros Hin.
    apply (Hd _ Hin). apply list_elem_of_here. }
  rewrite dict_set_fresh by done.
  set (st2 := match kept with
              | [] => log_error st1 (no_domains_message name)
              | _ => st1
              end).
  destruct (IH st2 (filtered ++ [(name, kept)])) as (st' & r & Hr & Hfr' & Hres).
  { rewrite fmap_app, <- app_assoc. done. }
  exists st', r. split; [exact Hr|].
  assert (Hfr2 : only_ends_of hits st st2).
  { subst st2. destruct kept; [|done]. exact Hfr. }
  split.
  { simpl. eapply only_ends_of_trans.
    - eapply only_ends_of_mono; [|exact Hfr2].
      intros a Ha. apply elem_of_app. by left.
    - eapply only_ends_of_mono; [|exact Hfr'].
      intros a Ha. apply elem_of_app. by right. }
  destruct r as [out|e].
  - destruct Hres as (new & -> & HF & HL).
    exists ((name, kept) :: new). rewrite <- app_assoc. split; [done|].
    split; [by constructor|].
    rewrite HL.
    rewrite (filter_cons (λ item : string * list ref, item.2 = [])). simpl.
    destruct (decide (hits = [])) as [->|Hh].
    + assert (kept = []) as -> by by apply Hempty. subst st2. simpl.
      by rewrite Hlog, <- app_assoc.
    + assert (kept ≠ []) by (intros ?; by apply Hh, Hempty).
      subst st2. destruct kept; [done|]. by rewrite Hlog.
  - destruct Hres as (name' & hits' & st0 & Hin & ? & ?).
    exists name', hits', st0. split; [by apply list_elem_of_further|done].
Qed.
End Filter.

(** * The claims about [is_fragmented_domain] and the merge scan *)

Local Close Scope Z_scope.

(** The groups and the representatives of two hits that are more than ten
    residues apart. *)
Lemma representatives_two_apart st a b :
  (start (deref st a) <= start (deref st b))%Z →
  (end_ (deref st a) < start (deref st b) + 10)%Z →
  representatives st [a; b] "evalue" = Ok [a; b].
Proof.
  intros Hs He. unfold representatives, group_overlapping_hits.
  unfold sorted_by_start, sorted_decorated, stable_sort. simpl.
  destruct (Z.ltb_spec (start (deref st b)) (start (deref st a))); [lia|].
  simpl.
  destruct (Z.leb_spec (start (deref st b) + 10)%Z (end_ (deref st a)));
    [lia|].
  done.
Qed.

(** The fragmentation test on a registry entry of length 1000 with the
    default options, for hits of lengths 400 and 450 spanning 980. *)
Lemma is_fragmented_domain_1000 st a b info :
  type (deref st a) = type (deref st b) →
  DOMAINS st !! domain (deref st a) = Some info →
  (info_length info = 1000)%Z →
  (end_ (deref st a) - start (deref st a) = 400)%Z →
  (end_ (deref st b) - start (deref st b) = 450)%Z →
  (end_ (deref st b) - start (deref st a) = 980)%Z →
  is_fragmented_domain st a b 0.5 0.1 = Ok true.
Proof.
  intros Ht Hd Hl Ha Hb Hspan. unfold is_fragmented_domain, DOMAINS_get.
  rewrite Ht, String.eqb_refl, Hd. simpl. rewrite Hl.
  unfold Domain_len. rewrite Ha, Hb, Hspan. by vm_compute.
Qed.

(** C1 (the code departs from the claim).  For two same-type hits of
    lengths 400 and 450 that span 980, of a domain of canonical length 1000,
    and the default options 0.5 and 0.1: [is_fragmented_domain] returns
    true, as the claim says; but the loop of [filter_domains] leaves by
    [break] before it looks at the pair, and [filter_domains] returns the two
    hits as they were, not one hit from [a.start] to [b.end]. *)
Theorem C1_fragment_pair_left_unmerged st a b info :
  type (deref st a) = type (deref st b) →
  DOMAINS st !! domain (deref st a) = Some info →
  (info_length info = 1000)%Z →
  (end_ (deref st a) - start (deref st a) = 400)%Z →
  (end_ (deref st b) - start (deref st b) = 450)%Z →
  (end_ (deref st b) - start (deref st a) = 980)%Z →
  is_fragmented_domain st a b 0.5 0.1 = Ok true ∧
  merge_scan st [a; b] 0.5 0.1 = Some (mkScan 1 [a; b] st [], Returned) ∧
  filter_domains st [a; b] "evalue" 0.5 0.1 = Some (st, Ok [a; b]).
Proof.
  intros Ht Hd Hl Ha Hb Hspan.
  split; [by eapply is_fragmented_domain_1000|]. split; [done|].
  unfold filter_domains.
  rewrite representatives_two_apart by lia. done.
Qed.

Lemma C1_two_fragments :
  is_fragmented_domain two_fragments 0 1 0.5 0.1 = Ok true ∧
  merge_scan two_fragments [0; 1] 0.5 0.1
    = Some (mkScan 1 [0; 1] two_fragments [], Returned) ∧
  filter_domains two_fragments [0; 1] "evalue" 0.5 0.1
    = Some (two_fragments, Ok [0; 1]).
Proof.
  apply (C1_fragment_pair_left_unmerged two_fragments 0 1
           (mkInfo "C" 1000 100%float)); reflexivity.
Defined.




(** C3.  There are inputs within the documented contract on which
    [filter_domains] raises the ValueError of the tuple unpacking: with the
    default options, two fragment pairs one after the other; and, with
    [coverage_pct = 1.0] and [tolerance_pct = 0.5], three same-type hits in
    which each adjacent pair passes the fragmentation test.  In general a
    scan that has deleted two or more elements never returns: it ends in
    that ValueError, unless the last call of [is_fragmented_domain] raised
    first. *)
Theorem C3_scan_raises_after_two_deletions :
  (Forall (valid_hit two_fragment_pairs) [0; 1; 2; 3] ∧
   valid_options 0.5 0.1 ∧
   filter_domains two_fragment_pairs [0; 1; 2; 3] "evalue" 0.5 0.1
   = Some (store [hit 0 980; hit 530 980; hit 2000 2980; hit 2530 2980],
           Raise unpack_error)) ∧
  (Forall (valid_hit three_overlapping) [0; 1; 2] ∧
   valid_options 1 0.5 ∧
   is_fragmented_domain three_overlapping 0 1 1 0.5 = Ok true ∧
   is_fragmented_domain three_overlapping 1 2 1 0.5 = Ok true ∧
   filter_domains three_overlapping [0; 1; 2] "evalue" 1 0.5
   = Some (store [hit 0 1490; hit 494 996; hit 990 1490],
           Raise unpack_error)) ∧
  (∀ st domains coverage_pct tolerance_pct s x,
     merge_scan st domains coverage_pct tolerance_pct = Some (s, x) →
     (length (scan_domains s) + 2 ≤ length domains) →
     ∃ e, x = Raised e ∧
          (e = unpack_error ∨
           ∃ p c, last (scan_calls s) = Some (p, c) ∧
                  is_fragmented_domain (scan_st s) p c
                    coverage_pct tolerance_pct = Raise e)).
Proof.
  assert (Hvalid : ∀ hits r, (r < length hits) →
            (start (hits !!! r) <= end_ (hits !!! r))%Z →
            (0 <=? evalue (hits !!! r))%float = true →
            (0 <=? bitscore (hits !!! r))%float = true →
            domain (hits !!! r) = "Condensation" →
            type (hits !!! r) = "C" →
            valid_hit (store hits) r).
  { intros hits r ? ? ? ? Hd Ht. unfold valid_hit, deref, store.
    cbn [objects DOMAINS].
    do 4 (split; [done|]).
    exists (mkInfo "C" 1000 100%float). rewrite Hd, Ht.
    split; [by vm_compute|]. split; [done|]. split; [done|by vm_compute]. }
  split; [|split].
  - split; [|split; [by vm_compute|by vm_compute]].
    repeat apply Forall_cons_2; try apply Forall_nil_2;
      (apply Hvalid; [simpl; lia | by vm_compute ..]).
  - split; [|repeat split; by vm_compute].
    repeat apply Forall_cons_2; try apply Forall_nil_2;
      (apply Hvalid; [simpl; lia | by vm_compute ..]).
  - intros st domains cov tol s x. apply merge_scan_two_deletions.
Qed.

Lemma C3_two_fragment_pairs :
  ∃ e, Raised unpack_error = Raised e ∧
       (e = unpack_error ∨
        ∃ p c, last [(0, 1); (0, 2); (2, 3)] = Some (p, c) ∧
               is_fragmented_domain
                 (store [hit 0 980; hit 530 980; hit 2000 2980; hit 2530 2980])
                 p c 0.5 0.1 = Raise e).
Proof.
  apply (proj2 (proj2 C3_scan_raises_after_two_deletions)
           two_fragment_pairs [0; 1; 2; 3] 0.5%float 0.1%float
           (mkScan 2 [0; 2]
              (store [hit 0 980; hit 530 980; hit 2000 2980; hit 2530 2980])
              [(0, 1); (0, 2); (2, 3)])
           (Raised unpack_error)).
  - by vm_compute.
  - simpl. lia.
Defined.

(** C10 (counterexample).  After a merge the list is one shorter than
    [total], and the loop does reach the final adjacent pair: in
    [a, b, c, d] with [a, b] merged, the pair [(c, d)] is handed to
    [is_fragmented_domain]. *)
Lemma C10_final_pair_tested_after_merge :
  pair_at [0; 1; 2; 3] 2 (2, 3) ∧
  ∃ s x, merge_scan two_fragment_pairs [0; 1; 2; 3] 0.5 0.1 = Some (s, x) ∧
         (2, 3) ∈ scan_calls s.
Proof.
  split; [done|].
  exists (mkScan 2 [0; 2]
            (store [hit 0 980; hit 530 980; hit 2000 2980; hit 2530 2980])
            [(0, 1); (0, 2); (2, 3)]), (Raised unpack_error).
  split; [by vm_compute|]. apply list_elem_of_In. simpl. tauto.
Qed.

(** C10 (amended).  As long as nothing has been merged, [filter_domains]
    does not test the final adjacent pair of the post-selection sequence,
    because the loop breaks as soon as [i + 1] equals the original length:
    every pair handed to [is_fragmented_domain] by a scan that deleted
    nothing sits at positions [j], [j + 1] with [j + 2 < len]; and a
    post-selection sequence of exactly two hits is always returned
    unchanged, with no fragmentation test performed. *)
Theorem C10_last_pair_untested_without_merge st coverage_pct tolerance_pct :
  (∀ a b, merge_scan st [a; b] coverage_pct tolerance_pct
          = Some (mkScan 1 [a; b] st [], Returned)) ∧
  (∀ domains by_ a b,
     representatives st domains by_ = Ok [a; b] →
     filter_domains st domains by_ coverage_pct tolerance_pct
     = Some (st, Ok [a; b])) ∧
  (∀ domains s x,
     merge_scan st domains coverage_pct tolerance_pct = Some (s, x) →
     length (scan_domains s) = length domains →
     Forall (λ pc, ∃ j, (j + 2 < length domains) ∧ pair_at domains j pc)
            (scan_calls s)).
Proof.
  split; [done|]. split.
  - intros domains by_ a b Hr. unfold filter_domains. by rewrite Hr.
  - intros domains s x. apply merge_scan_calls.
Qed.

Lemma C10_final_fragment_pair_untested :
  Forall (λ pc, ∃ j, (j + 2 < 3) ∧ pair_at [1; 2; 3] j pc) [(1, 2)].
Proof.
  apply (proj2 (proj2 (C10_last_pair_untested_without_merge
                          two_fragment_pairs 0.5 0.1))
           [1; 2; 3] (mkScan 2 [1; 2; 3] two_fragment_pairs [(1, 2)])
           Returned).
  - by vm_compute.
  - done.
Defined.

Local Open Scope Z_scope.

(** * The claims about [group_overlapping_hits] *)

(** C4.  For every input sequence the groups [group_overlapping_hits]
    yields partition the input: their concatenation is a permutation of the
    input (every hit is in exactly one group), no group is empty, the empty
    input yields no group, and the groups come in ascending order of their
    first member's start. *)
Theorem C4_groups_partition_input st (domains : list ref) :
  concat (group_overlapping_hits st domains) ≡ₚ domains ∧
  Forall (λ group, group ≠ []) (group_overlapping_hits st domains) ∧
  group_overlapping_hits st [] = [] ∧
  StronglySorted
    (λ g1 g2, ∀ a b, head g1 = Some a → head g2 = Some b →
                     start (deref st a) <= start (deref st b))
    (group_overlapping_hits st domains).
Proof.
  split; [apply groups_perm|]. split; [apply groups_nonempty|].
  split; [done|].
  apply group_heads_sorted; [apply groups_nonempty|].
  pose proof (sorted_by_start_sorted st domains) as Hsorted.
  unfold group_overlapping_hits.
  destruct (sorted_by_start st domains) as [|first rest] eqn:E;
    [constructor|].
  by rewrite group_loop_concat.
Qed.

(** C5.  Once the hits are sorted by start, a hit joins the current group if
    and only if its start plus ten is at most [border], the largest end seen
    in that group so far, and otherwise starts a new group: appending to the
    input a hit [x] that starts no earlier than the others either extends
    the last group (when [x.start + 10 <= ] the largest end of that group)
    or adds the group [[x]].  For A = 10..100, B = 95..200, C = 500..600 the
    groups are [[A]], [[B]], [[C]]: 95 + 10 <= 100 is false. *)
Theorem C5_join_iff_within_border :
  (∀ st (domains : list ref) x,
     domains ≠ [] →
     Forall (λ d, start (deref st d) <= start (deref st x)) domains →
     ∃ init last_group,
       group_overlapping_hits st domains = init ++ [last_group] ∧
       last_group ≠ [] ∧
       group_overlapping_hits st (domains ++ [x]) =
         if start (deref st x) + 10 <=? max_end st last_group
         then init ++ [last_group ++ [x]]
         else init ++ [last_group; [x]]) ∧
  group_overlapping_hits grouping_example [0; 1; 2]%nat
  = [[0]; [1]; [2]]%nat.
Proof.
  split; [|by vm_compute].
  intros st domains x Hne Hx. unfold group_overlapping_hits.
  rewrite sorted_by_start_snoc by done.
  destruct (sorted_by_start st domains) as [|first rest] eqn:E.
  { pose proof (sorted_by_start_perm st domains) as Hperm.
    rewrite E in Hperm. by apply Permutation_nil_l in Hperm. }
  simpl. by apply group_loop_snoc.
Qed.

Lemma C5_hit_B_starts_a_group :
  ∃ init last_group,
    group_overlapping_hits grouping_example [0]%nat = init ++ [last_group] ∧
    last_group ≠ [] ∧
    group_overlapping_hits grouping_example ([0] ++ [1])%nat =
      if start (deref grouping_example 1) + 10
         <=? max_end grouping_example last_group
      then init ++ [last_group ++ [1%nat]]
      else init ++ [last_group; [1%nat]].
Proof.
  apply (proj1 C5_join_iff_within_border grouping_example [0%nat] 1%nat).
  - done.
  - repeat constructor. by vm_compute.
Defined.

(** * The claims about [choose_representative_domain] *)

(** C6.  For a non-empty group [choose_representative_domain] returns the
    first best hit: under 'evalue' a hit with the smallest e-value, every
    earlier hit having a strictly larger one; under 'bitscore' a hit with the
    largest quotient of its bitscore by the bitscore threshold that
    [DOMAINS] holds for its domain key, every earlier hit having a strictly
    smaller quotient; under 'length' a hit with the largest [end - start],
    every earlier hit being strictly shorter.  So among hits tied on the
    metric the earliest one is returned, also for the two metrics sorted in
    reverse.  The e-values and the quotients are assumed not to be NaN, and
    for 'bitscore' every domain key to be in [DOMAINS] with a threshold
    other than zero (the call raises otherwise). *)
Theorem C6_representative_is_first_best st (group : list ref) :
  group ≠ [] →
  (Forall (λ d, is_nan (evalue (deref st d)) = false) group →
   ∃ pre best post,
     group = pre ++ best :: post ∧
     choose_representative_domain st group "evalue" = Ok best ∧
     Forall (λ d, (evalue (deref st best) <? evalue (deref st d))%float
                  = true) pre ∧
     Forall (λ d, (evalue (deref st best) <=? evalue (deref st d))%float
                  = true) post) ∧
  (∀ info : ref → DomainInfo,
   Forall (λ d, DOMAINS st !! domain (deref st d) = Some (info d) ∧
                (info_bitscore (info d) =? 0)%float = false ∧
                is_nan (bitscore (deref st d) / info_bitscore (info d))
                = false) group →
   ∃ pre best post,
     group = pre ++ best :: post ∧
     choose_representative_domain st group "bitscore" = Ok best ∧
     Forall (λ d, (bitscore (deref st d) / info_bitscore (info d)
                   <? bitscore (deref st best) / info_bitscore (info best))%float
                  = true) pre ∧
     Forall (λ d, (bitscore (deref st d) / info_bitscore (info d)
                   <=? bitscore (deref st best) / info_bitscore (info best))%float
                  = true) post) ∧
  (∃ pre best post,
     group = pre ++ best :: post ∧
     choose_representative_domain st group "length" = Ok best ∧
     Forall (λ d, end_ (deref st d) - start (deref st d)
                  < end_ (deref st best) - start (deref st best)) pre ∧
     Forall (λ d, end_ (deref st d) - start (deref st d)
                  <= end_ (deref st best) - start (deref st best)) post).
Proof.
  intros Hne. split; [|split].
  - intros Hnan.
    destruct (choose_first_best st valid_key py_lt_float_asym
                py_lt_float_negtrans group "evalue" _ false
                (λ d, PyFloat (evalue (deref st d))) eq_refl Hne)
      as (pre & best & post & Hg & Hc & Hpre & Hpost).
    { by apply Forall_true. }
    { done. }
    exists pre, best, post. split; [done|]. split; [done|]. split; [done|].
    assert (Hb : is_nan (evalue (deref st best)) = false).
    { rewrite Hg in Hnan.
      by apply Forall_app in Hnan as [_ [? _]%Forall_cons]. }
    assert (Hp : Forall (λ d, is_nan (evalue (deref st d)) = false) post).
    { rewrite Hg in Hnan.
      by apply Forall_app in Hnan as [_ [_ ?]%Forall_cons]. }
    rewrite Forall_forall in Hpost, Hp. apply Forall_forall. intros d Hd.
    apply float_leb_not_ltb; [done|by apply Hp|by apply Hpost].
  - intros info Hinfo.
    pose (score := λ d : ref,
            (bitscore (deref st d) / info_bitscore (info d))%float).
    assert (Hs : Forall (λ d, normalized_bitscore st d = Ok (score d) ∧
                              is_nan (score d) = false) group).
    { eapply Forall_impl; [exact Hinfo|]. intros d (Hd & Hz & Hn).
      split; [|exact Hn]. unfold normalized_bitscore, DOMAINS_get.
      rewrite Hd. simpl. unfold float_truediv. by rewrite Hz. }
    clear Hinfo.
    destruct (choose_first_best st valid_key py_lt_float_asym
                py_lt_float_negtrans group "bitscore" _ true
                (λ d, PyFloat (score d)) eq_refl Hne)
      as (pre & best & post & Hg & Hc & Hpre & Hpost).
    { eapply Forall_impl; [exact Hs|]. intros d [Hd _]. simpl.
      by rewrite Hd. }
    { eapply Forall_impl; [exact Hs|]. by intros d [_ Hd]. }
    exists pre, best, post. split; [done|]. split; [done|].
    split; [exact Hpre|].
    assert (Hb : is_nan (score best) = false).
    { rewrite Hg in Hs.
      by apply Forall_app in Hs as [_ [[_ ?] _]%Forall_cons]. }
    assert (Hp : Forall (λ d, is_nan (score d) = false) post).
    { rewrite Hg in Hs. apply Forall_app in Hs as [_ [_ Hs]%Forall_cons].
      eapply Forall_impl; [exact Hs|]. by intros d [_ Hd]. }
    rewrite Forall_forall in Hpost, Hp. apply Forall_forall. intros d Hd.
    apply (float_leb_not_ltb (score d) (score best));
      [by apply Hp|done|by apply Hpost].
  - destruct (choose_first_best st (λ k, ∃ z, k = PyInt z) py_lt_int_asym
                py_lt_int_negtrans group "length" _ true
                (λ d, PyInt (end_ (deref st d) - start (deref st d)))
                eq_refl Hne)
      as (pre & best & post & Hg & Hc & Hpre & Hpost).
    { by apply Forall_true. }
    { apply Forall_true. intros d. by eexists. }
    exists pre, best, post. split; [done|]. split; [done|]. split.
    + eapply Forall_impl; [exact Hpre|]. intros d Hd. simpl in Hd. lia.
    + eapply Forall_impl; [exact Hpost|]. intros d Hd. simpl in Hd. lia.
Qed.

(** The group with e-values 1e-5, 1e-10, 1e-3: the hit with 1e-10.  The
    group with bitscores 150 and 250 against thresholds 100 and 200: the hit
    with bitscore 150, whose quotient 1.5 is the larger one. *)
Lemma C6_evalue_example :
  (choose_representative_domain evalue_example [0; 1; 2]%nat "evalue"
     = Ok 1%nat ∧
   ∃ pre best post,
     [0; 1; 2]%nat = pre ++ best :: post ∧
     choose_representative_domain evalue_example [0; 1; 2]%nat "evalue"
       = Ok best ∧
     Forall (λ d, (evalue (deref evalue_example best)
                   <? evalue (deref evalue_example d))%float = true) pre ∧
     Forall (λ d, (evalue (deref evalue_example best)
                   <=? evalue (deref evalue_example d))%float = true) post) ∧
  (choose_representative_domain bitscore_example [1; 0]%nat "bitscore"
     = Ok 0%nat ∧
   (bitscore (deref bitscore_example 0%nat)
    <? bitscore (deref bitscore_example 1%nat))%float = true ∧
   ∃ pre best post,
     [1; 0]%nat = pre ++ best :: post ∧
     choose_representative_domain bitscore_example [1; 0]%nat "bitscore"
       = Ok best ∧
     Forall (λ d, (bitscore (deref bitscore_example d)
                   / info_bitscore
                       (if (d =? 0)%nat then mkInfo "C" 1000 100%float
                        else mkInfo "KS" 400 200%float)
                   <? bitscore (deref bitscore_example best)
                      / info_bitscore
                          (if (best =? 0)%nat then mkInfo "C" 1000 100%float
                           else mkInfo "KS" 400 200%float))%float = true)
            pre ∧
     Forall (λ d, (bitscore (deref bitscore_example d)
                   / info_bitscore
                       (if (d =? 0)%nat then mkInfo "C" 1000 100%float
                        else mkInfo "KS" 400 200%float)
                   <=? bitscore (deref bitscore_example best)
                       / info_bitscore
                           (if (best =? 0)%nat then mkInfo "C" 1000 100%float
                            else mkInfo "KS" 400 200%float))%float = true)
            post).
Proof.
  split.
  - split; [by vm_compute|].
    apply (C6_representative_is_first_best evalue_example [0; 1; 2]%nat).
    + done.
    + repeat constructor.
  - split; [by vm_compute|]. split; [by vm_compute|].
    apply (proj1 (proj2 (C6_representative_is_first_best bitscore_example
                           [1; 0]%nat ltac:(done)))
             (λ d, if (d =? 0)%nat then mkInfo "C" 1000 100%float
                   else mkInfo "KS" 400 200%float)).
    repeat constructor; by vm_compute.
Defined.

(** * The claims about errors, empty results and writes *)

(** C7.  [filter_results] keeps every query: whenever it returns, the
    mapping it returns has the keys of the input, in the same order; a query
    is mapped to the empty sequence exactly when it had no hits, and each
    such query is reported through [LOG.error] without ending the run.  The
    call always terminates, and when it raises instead of returning, the
    exception comes out of [filter_domains] on a query that has hits, never
    from an empty one. *)
Theorem C7_empty_result_keeps_key st (results : dict (list ref)) by_
    coverage_pct tolerance_pct :
  NoDup results.*1 →
  ∃ st' r,
    filter_results st results by_ coverage_pct tolerance_pct = Some (st', r) ∧
    match r with
    | Ok filtered =>
        filtered.*1 = results.*1 ∧
        ∀ name hits, (name, hits) ∈ results →
          ∃ kept, dict_get name filtered = Some kept ∧
                  (kept = [] ↔ hits = []) ∧
                  (hits = [] → no_domains_message name ∈ LOG st')
    | Raise e =>
        ∃ name hits st0,
          (name, hits) ∈ results ∧ hits ≠ [] ∧
          snd <$> filter_domains st0 hits by_ coverage_pct tolerance_pct
          = Some (Raise e)
    end.
Proof.
  intros Hnd. unfold filter_results.
  destruct (filter_results_loop_spec by_ coverage_pct tolerance_pct
              results st []) as (st' & r & Hr & _ & Hres); [done|].
  exists st', r. split; [done|]. destruct r as [out|e]; [|done].
  destruct Hres as (new & -> & HF & HL). simpl.
  assert (Hkeys : new.*1 = results.*1).
  { clear -HF. induction HF as [|? ? ? ? [? _] _ IH]; [done|].
    rewrite !fmap_cons. by f_equal. }
  split; [done|]. intros name hits Hin.
  apply list_elem_of_lookup in Hin as [i Hi].
  destruct (Forall2_lookup_l _ _ _ _ _ HF Hi) as ([k kept] & Hk & Hkn & He).
  simpl in *. subst k. exists kept. split; [|split; [done|]].
  - apply dict_get_NoDup; [by rewrite Hkeys|].
    by eapply list_elem_of_lookup_2.
  - intros ->. rewrite HL. apply elem_of_app. right.
    apply list_elem_of_fmap. exists name. split; [done|].
    apply list_elem_of_fmap. exists (name, []). split; [done|].
    apply list_elem_of_filter. split; [done|].
    by eapply list_elem_of_lookup_2.
Qed.

(** One query with zero hits: the key stays, mapped to the empty sequence,
    and the condition is logged. *)
Lemma C7_one_query_without_hits :
  filter_results two_fragments [("query", [])] "evalue" 0.5 0.1
  = Some (log_error two_fragments (no_domains_message "query"),
          Ok [("query", [])]) ∧
  ∃ st' r,
    filter_results two_fragments [("query", [])] "evalue" 0.5 0.1
    = Some (st', r) ∧
    match r with
    | Ok filtered =>
        filtered.*1 = [("query", @nil ref)].*1 ∧
        ∀ name hits, (name, hits) ∈ [("query", @nil ref)] →
          ∃ kept, dict_get name filtered = Some kept ∧
                  (kept = [] ↔ hits = []) ∧
                  (hits = [] → no_domains_message name ∈ LOG st')
    | Raise e =>
        ∃ name hits st0,
          (name, hits) ∈ [("query", @nil ref)] ∧ hits ≠ [] ∧
          snd <$> filter_domains st0 hits "evalue" 0.5 0.1 = Some (Raise e)
    end.
Proof.
  split; [done|].
  apply (C7_empty_result_keeps_key two_fragments [("query", [])]).
  apply NoDup_singleton.
Defined.

(** C8.  [choose_representative_domain] raises ValueError for every metric
    other than 'bitscore', 'evalue' and 'length', whatever the group holds
    (even an empty group, or hits whose keys could not be computed), and
    [is_fragmented_domain] raises ValueError whenever the two hits differ in
    type, whatever the registry and the coordinates are.  Nothing catches
    them: [filter_domains] and [filter_results] end with the exception of
    [choose_representative_domain] as soon as there is a group, and the loop
    of [filter_domains] ends with whatever [is_fragmented_domain] raises. *)
Theorem C8_invalid_arguments_raise :
  (∀ st (group : list ref) by_,
     by_ ≠ "bitscore" → by_ ≠ "evalue" → by_ ≠ "length" →
     choose_representative_domain st group by_
     = Raise (ValueError "Expected 'bitscore', 'evalue' or 'length'")) ∧
  (∀ st (one two : ref) coverage_pct tolerance_pct,
     type (deref st one) ≠ type (deref st two) →
     is_fragmented_domain st one two coverage_pct tolerance_pct
     = Raise (ValueError "Expected Domain instances of same type")) ∧
  (∀ st (domains : list ref) by_ coverage_pct tolerance_pct,
     by_ ≠ "bitscore" → by_ ≠ "evalue" → by_ ≠ "length" → domains ≠ [] →
     filter_domains st domains by_ coverage_pct tolerance_pct
     = Some (st, Raise (ValueError "Expected 'bitscore', 'evalue' or 'length'"))
     ∧ ∀ name rest,
         filter_results st ((name, domains) :: rest) by_
           coverage_pct tolerance_pct
         = Some (st, Raise (ValueError
                              "Expected 'bitscore', 'evalue' or 'length'"))) ∧
  (∀ total coverage_pct tolerance_pct (pre : list ref) p c rest st calls e
     fuel,
     (S (length pre) + 1 < total)%nat →
     type (deref st p) = type (deref st c) →
     is_fragmented_domain st p c coverage_pct tolerance_pct = Raise e →
     scan_loop (S fuel) total coverage_pct tolerance_pct
       (mkScan (S (length pre)) (pre ++ p :: c :: rest) st calls)
     = Some (mkScan (S (length pre)) (pre ++ p :: c :: rest) st
               (calls ++ [(p, c)]), Raised e)).
Proof.
  assert (Hchoose : ∀ st (group : list ref) by_,
     by_ ≠ "bitscore" → by_ ≠ "evalue" → by_ ≠ "length" →
     choose_representative_domain st group by_
     = Raise (ValueError "Expected 'bitscore', 'evalue' or 'length'")).
  { intros st group by_ H1 H2 H3.
    unfold choose_representative_domain, key_functions.
    apply String.eqb_neq in H1, H2, H3. by rewrite H1, H2, H3. }
  split; [exact Hchoose|]. split; [|split].
  - intros st one two cov tol Ht. unfold is_fragmented_domain.
    apply String.eqb_neq in Ht. by rewrite Ht.
  - intros st domains by_ cov tol H1 H2 H3 Hne.
    assert (Hf : filter_domains st domains by_ cov tol
      = Some (st, Raise (ValueError
                           "Expected 'bitscore', 'evalue' or 'length'"))).
    { unfold filter_domains, representatives.
      destruct (group_overlapping_hits st domains) as [|group groups] eqn:Eg.
      - pose proof (groups_perm st domains) as Hperm. rewrite Eg in Hperm.
        simpl in Hperm. by apply Permutation_nil_l in Hperm.
      - simpl. by rewrite Hchoose. }
    split; [done|]. intros name rest. unfold filter_results. simpl.
    by rewrite Hf.
  - intros total cov tol pre p c rest st calls e fuel Hlt Ht Hf.
    rewrite scan_loop_S, scan_step_pair by done.
    by rewrite Ht, String.eqb_refl, Hf.
Qed.

Lemma C8_unknown_metric :
  choose_representative_domain evalue_example [0; 1; 2]%nat "score"
  = Raise (ValueError "Expected 'bitscore', 'evalue' or 'length'").
Proof.
  by apply (proj1 C8_invalid_arguments_raise evalue_example [0; 1; 2]%nat
              "score").
Defined.

(** C9.  Per-query filtering writes nothing but the [end] attribute of hits
    of that query.  [filter_domains] always terminates; the objects it
    leaves agree with the ones it found on every attribute except possibly
    [end], objects that are not among the query's hits are untouched, and
    the registry and the log are as before; when selection raises, and when
    no merge takes place (as many hits returned as there were groups),
    nothing at all is written, so grouping and selection write nothing.
    [filter_results] likewise only writes [end] attributes of hits that
    occur in the mapping, and never the registry. *)
Theorem C9_only_end_is_written st by_ coverage_pct tolerance_pct :
  (∀ domains : list ref, ∃ st' r,
     filter_domains st domains by_ coverage_pct tolerance_pct = Some (st', r) ∧
     only_ends_of domains st st' ∧ LOG st' = LOG st ∧
     (∀ e, representatives st domains by_ = Raise e → st' = st) ∧
     (∀ kept, r = Ok kept →
        length kept = length (group_overlapping_hits st domains) →
        st' = st)) ∧
  (∀ results : dict (list ref), NoDup results.*1 → ∃ st' r,
     filter_results st results by_ coverage_pct tolerance_pct = Some (st', r) ∧
     only_ends_of (concat results.*2) st st').
Proof.
  split.
  - intros domains.
    destruct (filter_domains_terminates coverage_pct tolerance_pct
                st domains by_) as [[st' r] Hf].
    destruct (filter_domains_frame _ _ _ _ _ _ _ Hf)
      as (Hfr & Hlog & Hraise & Hk).
    exists st', r. split; [done|]. split; [done|]. split; [done|]. split.
    + intros e He. by destruct (Hraise e He).
    + intros kept Hr. by destruct (Hk kept Hr) as (_ & _ & ?).
  - intros results Hnd. unfold filter_results.
    destruct (filter_results_loop_spec by_ coverage_pct tolerance_pct
                results st []) as (st' & r & Hr & Hfr & _); [done|].
    by exists st', r.
Qed.

Lemma C9_two_queries :
  ∃ st' r,
    filter_results two_fragment_pairs
      [("one", [0; 1; 2]%nat); ("two", [3]%nat)] "evalue" 0.5 0.1
    = Some (st', r) ∧
    only_ends_of (concat [("one", [0; 1; 2]%nat); ("two", [3]%nat)].*2)
      two_fragment_pairs st'.
Proof.
  apply (proj2 (C9_only_end_is_written two_fragment_pairs "evalue" 0.5 0.1)
           [("one", [0; 1; 2]%nat); ("two", [3]%nat)]).
  apply NoDup_cons. split; [|apply NoDup_singleton].
  intros H. apply list_elem_of_singleton in H. discriminate.
Defined.

(** * Further properties of [group_overlapping_hits] *)

Section GroupingMore.
Variable st : state.
Implicit Types (d x : ref) (g group rest domains : list ref).

Local Abbreviation start_of d := (start (deref st d)).
Local Abbreviation end_of d := (end_ (deref st d)).
Local Abbreviation by_start := (λ d, (PyInt (start_of d), d)).
Local Abbreviation starts_at z := (λ y : pynum * ref, start_of y.2 = z).

(** Inserting into the sorted list does not reorder the hits of one start. *)
Lemma filter_insort_start z (x : pynum * ref) (s : list (pynum * ref)) :
  x.1 = PyInt (start_of x.2) →
  Forall (λ y, y.1 = PyInt (start_of y.2)) s →
  filter (starts_at z) (insort py_lt x s) = filter (starts_at z) (x :: s).
Proof.
  intros Hx Hs. induction Hs as [|y s Hy _ IH]; [done|]. simpl.
  destruct (py_lt y.1 x.1) eqn:E; [|done].
  rewrite Hx, Hy in E. simpl in E. apply Z.ltb_lt in E.
  rewrite (filter_cons (starts_at z) y), IH.
  rewrite !(filter_cons (starts_at z) x), !(filter_cons (starts_at z) y).
  repeat case_decide; try done; lia.
Qed.

Lemma filter_stable_sort_start z domains :
  filter (starts_at z) (stable_sort py_lt (by_start <$> domains))
  = filter (starts_at z) (by_start <$> domains).
Proof.
  induction domains as [|d domains IH]; [done|].
  rewrite fmap_cons, stable_sort_cons, filter_insort_start; [|done|].
  - by rewrite !(filter_cons (starts_at z)), IH.
  - rewrite stable_sort_perm. apply Forall_fmap, Forall_true. done.
Qed.

Lemma filter_snd_start z (l : list (pynum * ref)) :
  filter (λ d, start_of d = z) l.*2 = (filter (starts_at z) l).*2.
Proof.
  induction l as [|y l IH]; [done|]. rewrite fmap_cons.
  rewrite (filter_cons (λ d, start_of d = z)), (filter_cons (starts_at z)).
  case_decide; csimpl; by rewrite IH.
Qed.

Lemma sorted_by_start_stable z domains :
  filter (λ d, start_of d = z) (sorted_by_start st domains)
  = filter (λ d, start_of d = z) domains.
Proof.
  rewrite sorted_by_start_unfold.
  rewrite filter_snd_start, filter_stable_sort_start, <- filter_snd_start.
  by rewrite <- list_fmap_compose, list_fmap_id.
Qed.

Lemma groups_concat domains :
  concat (group_overlapping_hits st domains) = sorted_by_start st domains.
Proof.
  unfold group_overlapping_hits.
  destruct (sorted_by_start st domains) as [|first rest]; [done|].
  by rewrite group_loop_concat.
Qed.

(** A list sorted by start with pairwise different starts is determined by
    its elements. *)
Lemma sorted_by_start_permutation domains domains' :
  domains ≡ₚ domains' →
  NoDup ((λ d, start_of d) <$> domains) →
  sorted_by_start st domains = sorted_by_start st domains'.
Proof.
  intros Hp Hnd.
  apply (StronglySorted_unique_strong (λ a b, start_of a <= start_of b));
    [|apply sorted_by_start_sorted..|].
  - intros a b Ha Hb Hab Hba.
    rewrite sorted_by_start_perm in Ha. rewrite sorted_by_start_perm in Hb.
    rewrite <- Hp in Hb.
    assert (Heq : start_of a = start_of b) by lia.
    apply list_elem_of_lookup in Ha as [i Hi].
    apply list_elem_of_lookup in Hb as [j Hj].
    assert (i = j); [|congruence].
    eapply NoDup_lookup; [exact Hnd|..].
    + rewrite list_lookup_fmap, Hi. done.
    + rewrite list_lookup_fmap, Hj. simpl. by rewrite Heq.
  - by rewrite !sorted_by_start_perm.
Qed.

(** ** What keeps hits in one group and groups apart *)

Lemma cohesive_single d : cohesive st [d].
Proof.
  intros pre x post H Hne. destruct pre as [|y pre]; [done|].
  destruct pre; discriminate.
Qed.

Lemma cohesive_snoc g d :
  cohesive st g → start_of d + 10 <= max_end st g → cohesive st (g ++ [d]).
Proof.
  intros Hg Hd pre x post H Hne.
  destruct (decide (post = [])) as [->|Hpost].
  - apply app_inj_tail in H as [-> ->]. done.
  - destruct (exists_last Hpost) as (post' & l & ->).
    change (pre ++ x :: post' ++ [l]) with (pre ++ (x :: post') ++ [l]) in H.
    rewrite app_assoc in H. apply app_inj_tail in H as [-> _].
    by eapply Hg.
Qed.

Lemma group_loop_structure rest : ∀ g border,
  g ≠ [] → border = max_end st g → cohesive st g →
  Sorted (separated st) (group_loop st g border rest) ∧
  Forall (cohesive st) (group_loop st g border rest) ∧
  ∃ g' groups, group_loop st g border rest = (g ++ g') :: groups.
Proof.
  induction rest as [|d rest IH]; intros g border Hg -> Hc; simpl.
  { split; [by repeat constructor|]. split; [by repeat constructor|].
    exists [], []. by rewrite app_nil_r. }
  destruct (Z.leb_spec (start_of d + 10) (max_end st g)) as [Hle|Hgt].
  - destruct (IH (g ++ [d]) (Z.max (max_end st g) (end_of d)))
      as (Hs & Hf & g' & groups & Heq).
    + by destruct g.
    + by rewrite max_end_snoc.
    + by apply cohesive_snoc.
    + split; [done|]. split; [done|].
      exists ([d] ++ g'), groups. by rewrite Heq, <- app_assoc.
  - destruct (IH [d] (end_of d)) as (Hs & Hf & g' & groups & Heq);
      [done|done|apply cohesive_single|].
    split; [|split].
    + constructor; [done|]. rewrite Heq. constructor.
      intros first Hfirst. simpl in Hfirst. injection Hfirst as <-. lia.
    + by constructor.
    + exists [], (group_loop st [d] (end_of d) rest). by rewrite app_nil_r.
Qed.
End GroupingMore.

(** X1.  [group_overlapping_hits] cuts the input, stably sorted by start,
    into consecutive runs: the groups concatenated are the sorted input,
    which is in ascending order of start and keeps hits of one and the same
    start in their input order. *)
Theorem X1_groups_are_runs_of_stable_sort st (domains : list ref) :
  concat (group_overlapping_hits st domains) = sorted_by_start st domains ∧
  sorted_by_start st domains ≡ₚ domains ∧
  StronglySorted (λ a b, start (deref st a) <= start (deref st b))
    (sorted_by_start st domains) ∧
  ∀ z, filter (λ d, start (deref st d) = z) (sorted_by_start st domains)
       = filter (λ d, start (deref st d) = z) domains.
Proof.
  split; [apply groups_concat|]. split; [apply sorted_by_start_perm|].
  split; [apply sorted_by_start_sorted|]. intros z.
  apply sorted_by_start_stable.
Qed.

(** X2.  Adjacent groups are apart and groups hold together: the first hit
    of a group starts later than the largest end of the group before it
    minus ten, and every further hit of a group starts at least ten before
    the largest end among the hits in front of it in its group. *)
Theorem X2_groups_separated_and_cohesive st (domains : list ref) :
  Sorted (separated st) (group_overlapping_hits st domains) ∧
  Forall (cohesive st) (group_overlapping_hits st domains).
Proof.
  unfold group_overlapping_hits.
  destruct (sorted_by_start st domains) as [|first rest].
  { split; constructor. }
  destruct (group_loop_structure st rest [first] (end_ (deref st first)))
    as (Hs & Hf & _); [done|done|apply cohesive_single|done].
Qed.

(** X3.  When no two hits start at the same position, the groups do not
    depend on the order in which the hits are given. *)
Theorem X3_groups_independent_of_input_order st (domains domains' : list ref) :
  domains ≡ₚ domains' →
  NoDup ((λ d, start (deref st d)) <$> domains) →
  group_overlapping_hits st domains = group_overlapping_hits st domains'.
Proof.
  intros Hp Hnd. unfold group_overlapping_hits.
  by rewrite (sorted_by_start_permutation st domains domains').
Qed.

Lemma X3_grouping_example_reordered :
  group_overlapping_hits grouping_example [0; 1; 2]%nat
  = group_overlapping_hits grouping_example [2; 0; 1]%nat.
Proof.
  apply X3_groups_independent_of_input_order.
  - change [2; 0; 1]%nat with ([2] ++ [0; 1])%nat.
    change [0; 1; 2]%nat with ([0; 1] ++ [2])%nat.
    apply Permutation_app_comm.
  - by apply (bool_decide_unpack (NoDup _)); vm_compute.
Defined.

(** * Further properties of selection and of [filter_domains] *)

Lemma mapM_Ok_exists {A B : Type} (f : A → result B) (l : list A) :
  Forall (λ a, ∃ b, f a = Ok b) l → ∃ k, mapM f l = Ok k.
Proof.
  induction 1 as [|a l [b Hb] _ [k Hk]]; [by exists []|].
  exists (b :: k). simpl. by rewrite Hb, Hk.
Qed.

Lemma mapM_Raise_first {A B : Type} (f : A → result B) pre a post e :
  Forall (λ x, ∃ b, f x = Ok b) pre → f a = Raise e →
  mapM f (pre ++ a :: post) = Raise e.
Proof.
  intros Hpre Ha. induction Hpre as [|x pre [b Hb] _ IH]; simpl.
  - by rewrite Ha.
  - by rewrite Hb, IH.
Qed.

(** Under 'evalue' and 'length' no key can raise. *)
Lemma choose_total st (group : list ref) by_ :
  by_ = "evalue" ∨ by_ = "length" → group ≠ [] →
  ∃ best, choose_representative_domain st group by_ = Ok best.
Proof.
  intros Hby Hne. unfold choose_representative_domain, sorted.
  assert (∃ key reverse_ keyval,
            key_functions st by_ = Some (key, reverse_) ∧
            ∀ d : ref, key d = Ok (keyval d))
    as (key & reverse_ & keyval & -> & Hk).
  { destruct Hby as [-> | ->]; eexists _, _, _; (split; [reflexivity|]);
      intros d; reflexivity. }
  rewrite (mapM_Ok key keyval) by by apply Forall_true.
  simpl. pose proof (sorted_decorated_perm py_lt
                       (zip (keyval <$> group) group) reverse_) as Hp.
  rewrite snd_zip in Hp by by rewrite length_fmap.
  destruct (sorted_decorated _ _ _) as [|best s]; [|by eexists].
  by apply Permutation_nil_l in Hp.
Qed.

Lemma representatives_per_group st (domains : list ref) by_ reps :
  representatives st domains by_ = Ok reps →
  Forall2 (λ (g : list ref) r, r ∈ g) (group_overlapping_hits st domains) reps.
Proof.
  intros H. apply mapM_Ok_inv in H.
  eapply Forall2_impl; [exact H|]. intros g r. apply choose_member.
Qed.

(** Representatives of runs of a list sorted by start are sorted by start. *)
Lemma representatives_sorted (R : relation ref) (groups : list (list ref))
    (reps : list ref) :
  Forall2 (λ (g : list ref) r, r ∈ g) groups reps →
  StronglySorted R (concat groups) → StronglySorted R reps.
Proof.
  induction 1 as [|g r groups reps Hr HF IH]; simpl; intros Hs; [constructor|].
  apply StronglySorted_app in Hs as (Hab & _ & Hs).
  constructor; [by apply IH|].
  apply Forall_forall. intros r' Hr'. apply Hab; [done|].
  apply list_elem_of_lookup in Hr' as [i Hi].
  destruct (Forall2_lookup_r _ _ _ _ _ HF Hi) as (g' & Hg' & Hin).
  apply list_elem_of_In, in_concat. exists g'.
  split; apply list_elem_of_In; [by eapply list_elem_of_lookup_2|done].
Qed.

Lemma StronglySorted_sublist {A : Type} (R : relation A) (l k : list A) :
  l `sublist_of` k → StronglySorted R k → StronglySorted R l.
Proof.
  induction 1 as [|x l k Hsub IH|x l k Hsub IH]; intros Hs; [done|..].
  - apply StronglySorted_cons in Hs as [Hx Hs].
    constructor; [by apply IH|].
    rewrite Forall_forall in Hx. apply Forall_forall. intros y Hy.
    apply Hx. by eapply elem_of_sublist.
  - apply StronglySorted_cons in Hs as [_ Hs]. by apply IH.
Qed.

Lemma scan_loop_sublist total coverage_pct tolerance_pct fuel : ∀ s s' x,
  scan_loop fuel total coverage_pct tolerance_pct s = Some (s', x) →
  scan_domains s' `sublist_of` scan_domains s.
Proof.
  induction fuel as [|fuel IH]; intros s s' x H; [discriminate|].
  rewrite scan_loop_S in H.
  destruct (scan_step total coverage_pct tolerance_pct s)
    as [s1|[s1 x1]] eqn:E.
  - apply IH in H.
    destruct (scan_step_continue _ _ _ _ _ E)
      as (pre & p & c & rest & Hl & _ & _ & [->|(_ & Hl' & _)]).
    + simpl in H. etrans; [exact H|]. rewrite Hl.
      apply sublist_app; [done|]. by apply sublist_skip, sublist_cons.
    + by rewrite <- Hl'.
  - injection H as <- <-.
    by destruct (scan_step_exit _ _ _ _ _ _ E) as (_ & -> & _).
Qed.

(** The walk over hits whose neighbours differ in type merges nothing and
    calls nothing. *)
Lemma merge_walk_alternate st coverage_pct tolerance_pct rest : ∀ p,
  types_alternate st (p :: rest) →
  merge_walk st p rest coverage_pct tolerance_pct
  = (st, Ok (p :: rest), 0%nat).
Proof.
  induction rest as [|c rest IH]; intros p Ha; [done|].
  rewrite merge_walk_cons. cbv zeta.
  rewrite IH.
  2:{ intros j p' c' [H1 H2]. apply (Ha (S j)). by split. }
  specialize (Ha 0%nat p c (conj eq_refl eq_refl)).
  apply String.eqb_neq in Ha. by rewrite Ha.
Qed.

Lemma pair_at_removelast (l : list ref) j pc :
  pair_at (removelast l) j pc → pair_at l j pc.
Proof.
  rewrite removelast_firstn_len. intros [H1 H2].
  apply lookup_take_Some in H1 as [H1 _].
  apply lookup_take_Some in H2 as [H2 _]. by split.
Qed.

Lemma walk_alternate st coverage_pct tolerance_pct (l : list ref) :
  types_alternate st l →
  walk st l coverage_pct tolerance_pct = (st, Ok l, 0%nat).
Proof. destruct l; [done|]. apply merge_walk_alternate. Qed.

(** X4.  Selection gives exactly one representative per group, in the order
    of the groups, each a member of its own group; and under 'evalue' and
    'length', whose keys cannot raise, it gives them for every input,
    whatever the registry holds and even when e-values are NaN. *)
Theorem X4_one_representative_per_group st (domains : list ref) :
  (∀ by_ reps,
     representatives st domains by_ = Ok reps →
     Forall2 (λ (g : list ref) r, r ∈ g)
             (group_overlapping_hits st domains) reps) ∧
  (∀ by_, by_ = "evalue" ∨ by_ = "length" →
          ∃ reps, representatives st domains by_ = Ok reps).
Proof.
  split; [intros by_ reps; apply representatives_per_group|].
  intros by_ Hby. apply mapM_Ok_exists.
  eapply Forall_impl; [apply groups_nonempty|].
  intros g Hg. by apply choose_total.
Qed.

(** X5.  Under 'bitscore' the keys are computed in the order of the group
    before anything is compared: the first hit whose key cannot be computed
    decides the exception, KeyError when its domain key is not in [DOMAINS]
    and ZeroDivisionError when the registry's threshold is zero, whichever
    hit would have won. *)
Theorem X5_bitscore_key_errors st (pre : list ref) (d : ref)
    (post : list ref) :
  Forall (λ x, ∃ q, normalized_bitscore st x = Ok q) pre →
  (DOMAINS st !! domain (deref st d) = None →
   choose_representative_domain st (pre ++ d :: post) "bitscore"
   = Raise (KeyError (domain (deref st d)))) ∧
  (∀ info, DOMAINS st !! domain (deref st d) = Some info →
           (info_bitscore info =? 0)%float = true →
           choose_representative_domain st (pre ++ d :: post) "bitscore"
           = Raise ZeroDivisionError).
Proof.
  intros Hpre.
  assert (Hraise : ∀ e, normalized_bitscore st d = Raise e →
            choose_representative_domain st (pre ++ d :: post) "bitscore"
            = Raise e).
  { intros e He. unfold choose_representative_domain, sorted. simpl.
    rewrite (mapM_Raise_first _ pre d post e); [done| |].
    - eapply Forall_impl; [exact Hpre|]. intros x [q Hq]. simpl.
      rewrite Hq. by eexists.
    - simpl. by rewrite He. }
  split.
  - intros Hd. apply Hraise. unfold normalized_bitscore, DOMAINS_get.
    by rewrite Hd.
  - intros info Hd Hz. apply Hraise.
    unfold normalized_bitscore, DOMAINS_get, float_truediv.
    rewrite Hd. simpl. by rewrite Hz.
Qed.

Lemma X5_unknown_key_in_group :
  choose_representative_domain
    (mkState [hit 0 300; scored_hit 5 305 1e-30 900] ∅ []) ([] ++ 0 :: [1])%nat
    "bitscore"
  = Raise (KeyError "Condensation").
Proof.
  apply (X5_bitscore_key_errors
           (mkState [hit 0 300; scored_hit 5 305 1e-30 900] ∅ [])
           [] 0%nat [1%nat]).
  - constructor.
  - done.
Defined.

(** X6.  Edge cases of [choose_representative_domain]: for each of the three
    metrics the empty group raises IndexError, and under 'evalue' and
    'length' a non-empty group always yields one of its members (so a group
    of one hit yields that hit). *)
Theorem X6_choose_edge_cases st :
  (∀ by_, by_ = "bitscore" ∨ by_ = "evalue" ∨ by_ = "length" →
          choose_representative_domain st [] by_ = Raise IndexError) ∧
  (∀ (group : list ref) by_,
     by_ = "evalue" ∨ by_ = "length" → group ≠ [] →
     ∃ best, choose_representative_domain st group by_ = Ok best ∧
             best ∈ group) ∧
  (∀ (d : ref) by_, by_ = "evalue" ∨ by_ = "length" →
                    choose_representative_domain st [d] by_ = Ok d).
Proof.
  split; [|split].
  - by intros by_ [-> | [-> | ->]].
  - intros group by_ Hby Hne.
    destruct (choose_total st group by_ Hby Hne) as [best Hb].
    exists best. split; [done|]. by eapply choose_member.
  - by intros d by_ [-> | ->].
Qed.

(** X7.  When [filter_domains] returns, what it returns is a subsequence of
    the representatives in their order, it starts with the first
    representative, and it is at most one hit shorter than the list of
    representatives: a call that returns has merged at most once. *)
Theorem X7_filter_keeps_order st (domains : list ref) by_
    coverage_pct tolerance_pct st' kept :
  filter_domains st domains by_ coverage_pct tolerance_pct
  = Some (st', Ok kept) →
  ∃ reps, representatives st domains by_ = Ok reps ∧
          kept `sublist_of` reps ∧ head kept = head reps ∧
          (length reps ≤ length kept + 1)%nat.
Proof.
  unfold filter_domains.
  destruct (representatives st domains by_) as [reps|e]; [|done].
  destruct (merge_scan st reps coverage_pct tolerance_pct)
    as [[s [|e]]|] eqn:Es; [|done..].
  intros [= <- <-]. exists reps. split; [done|].
  destruct (merge_scan_frame _ _ _ _ _ _ Es) as (_ & _ & _ & Hhd).
  unfold merge_scan in Es. split; [|split; [done|]].
  - by apply scan_loop_sublist in Es.
  - destruct reps as [|r reps]; [simpl; lia|].
    apply scan_loop_returned in Es; [done|simpl; lia].
Qed.

Lemma X7_three_fragments :
  ∃ reps, representatives three_fragments [0; 1; 2]%nat "evalue" = Ok reps ∧
          [0; 2]%nat `sublist_of` reps ∧ head [0; 2]%nat = head reps ∧
          (length reps ≤ length [0; 2]%nat + 1)%nat.
Proof.
  apply (X7_filter_keeps_order three_fragments [0; 1; 2]%nat "evalue" 0.5 0.1
           (store [hit 0 980; hit 530 980; hit 1100 1500])).
  by vm_compute.
Defined.

(** X8.  What [filter_domains] returns is in ascending order of start, read
    in the state it leaves (no start is ever written). *)
Theorem X8_filter_result_sorted_by_start st (domains : list ref) by_
    coverage_pct tolerance_pct st' kept :
  filter_domains st domains by_ coverage_pct tolerance_pct
  = Some (st', Ok kept) →
  StronglySorted (λ a b, start (deref st' a) <= start (deref st' b)) kept.
Proof.
  intros H.
  destruct (filter_domains_frame _ _ _ _ _ _ _ H) as ((_ & _ & Hsame & _) & _).
  revert H. unfold filter_domains.
  destruct (representatives st domains by_) as [reps|e] eqn:Er; [|done].
  destruct (merge_scan st reps coverage_pct tolerance_pct)
    as [[s [|e]]|] eqn:Es; [|done..].
  intros [= <- <-]. unfold merge_scan in Es.
  apply scan_loop_sublist in Es. simpl in Es.
  eapply StronglySorted_sublist; [exact Es|].
  assert (Hs : StronglySorted
                 (λ a b, start (deref st a) <= start (deref st b)) reps).
  { eapply representatives_sorted; [by eapply representatives_per_group|].
    rewrite groups_concat. apply sorted_by_start_sorted. }
  clear -Hs Hsame. induction Hs as [|r reps _ IH Hr]; constructor; [done|].
  eapply Forall_impl; [exact Hr|]. intros b Hb. simpl in *.
  destruct (Hsame r) as (_ & _ & _ & -> & _).
  by destruct (Hsame b) as (_ & _ & _ & -> & _).
Qed.

Lemma X8_three_fragments :
  StronglySorted
    (λ a b, start (deref (store [hit 0 980; hit 530 980; hit 1100 1500]) a)
            <= start (deref (store [hit 0 980; hit 530 980; hit 1100 1500]) b))
    [0; 2]%nat.
Proof.
  apply (X8_filter_result_sorted_by_start three_fragments [2; 1; 0]%nat
           "evalue" 0.5 0.1).
  by vm_compute.
Defined.

(** X9.  When no two neighbouring representatives have the same type,
    [filter_domains] returns the representatives as they are and writes
    nothing, whatever the options and the registry are:
    [is_fragmented_domain] is only ever called on two hits of one type. *)
Theorem X9_no_merge_across_types st (domains : list ref) by_
    coverage_pct tolerance_pct reps :
  representatives st domains by_ = Ok reps →
  types_alternate st reps →
  filter_domains st domains by_ coverage_pct tolerance_pct
  = Some (st, Ok reps).
Proof.
  intros Hr Ha. unfold filter_domains. rewrite Hr.
  destruct (merge_scan_walk coverage_pct tolerance_pct st reps st reps 0%nat)
    as (s & -> & <- & <-).
  - by apply walk_alternate.
  - lia.
  - rewrite walk_alternate; [done|].
    intros j p c Hp. apply (Ha j). by apply pair_at_removelast.
  - done.
Qed.

Lemma X9_mixed_types :
  filter_domains mixed_types [0; 1; 2; 3]%nat "length" 1 100
  = Some (mixed_types, Ok [0; 1; 2; 3]%nat).
Proof.
  apply X9_no_merge_across_types.
  - by vm_compute.
  - intros j p c [H1 H2].
    destruct j as [|[|[|j]]]; simpl in H1, H2; try discriminate;
      injection H1 as <-; injection H2 as <-; by vm_compute.
Defined.

(** X10.  When [filter_results] returns, the log has gained one message per
    query without hits, in the order of the mapping, and nothing else. *)
Theorem X10_log_lists_the_empty_queries st (results : dict (list ref)) by_
    coverage_pct tolerance_pct st' filtered :
  NoDup results.*1 →
  filter_results st results by_ coverage_pct tolerance_pct
  = Some (st', Ok filtered) →
  LOG st' = LOG st ++
    (no_domains_message <$> (filter (λ item, item.2 = []) results).*1).
Proof.
  intros Hnd H. unfold filter_results in H.
  destruct (filter_results_loop_spec by_ coverage_pct tolerance_pct
              results st []) as (st1 & r & Hr & _ & Hres); [done|].
  rewrite H in Hr. injection Hr as <- <-.
  by destruct Hres as (new & _ & _ & HL).
Qed.

Lemma X10_two_empty_queries :
  LOG (mkState (objects two_fragments) (DOMAINS two_fragments)
         [no_domains_message "a"; no_domains_message "c"])
  = LOG two_fragments ++
    (no_domains_message <$>
       (filter (λ item : string * list ref, item.2 = [])
          [("a", []); ("b", [0; 1]%nat); ("c", [])]).*1).
Proof.
  apply (X10_log_lists_the_empty_queries two_fragments
           [("a", []); ("b", [0; 1]%nat); ("c", [])] "evalue" 0.5 0.1
           _ [("a", []); ("b", [0; 1]%nat); ("c", [])]).
  - by apply (bool_decide_unpack (NoDup _)); vm_compute.
  - by vm_compute.
Defined.

(** * The parsers *)

Section Parse.
Variable py : Builtins.
Implicit Types (st : state) (row query : string) (results : dict (list ref)).

(** ** [split] and the test on the row *)

Lemma split_on_nonempty sep s : split_on sep s ≠ [].
Proof.
  destruct s as [|c s]; [done|]. simpl.
  destruct (Ascii.eqb c sep); [done|]. by destruct (split_on sep s).
Qed.

(** A row that starts with "Q#" is not blank: the second test of
    [if not row.startswith("Q#") or row.isspace()] never decides. *)
Lemma isspace_irrelevant row :
  negb (String.prefix "Q#" row) || isspace row = negb (String.prefix "Q#" row).
Proof.
  destruct (String.prefix "Q#" row) eqn:E; [|done]. simpl.
  destruct row as [|c row]; [done|].
  change (String.prefix "Q#" (String c row))
    with (if Ascii.ascii_dec (Ascii.ascii_of_nat 81) c then String.prefix "#" row else false)
    in E.
  destruct (Ascii.ascii_dec (Ascii.ascii_of_nat 81) c) as [<-|Hne]; [|discriminate].
  change (isspace (String (Ascii.ascii_of_nat 81) row))
    with (is_space (Ascii.ascii_of_nat 81) && all_space row).
  by replace (is_space (Ascii.ascii_of_nat 81)) with false by by vm_compute.
Qed.

(** ** [domain_from_row] *)

Lemma domain_from_row_Ok st row st' r :
  domain_from_row py st row = Ok (st', r) →
  ∃ d info,
    st' = mkState (objects st ++ [d]) (DOMAINS st) (LOG st) ∧
    r = length (objects st) ∧
    DOMAINS st !! domain d = Some info ∧ type d = info_type info.
Proof.
  unfold domain_from_row.
  destruct (drop _ _) as [|f1 [|f2 [|f3 [|f4 [|f5 [|f6 [|f7 [|f8 [|f9 [|? ?]]]]]]]]]];
    try done.
  destruct (DOMAINS st !! f7) as [info|] eqn:Ed; [|done].
  destruct (py_int py f2) as [s|]; [|done]. simpl.
  destruct (py_int py f3) as [e|]; [|done]. simpl.
  destruct (py_float py f4) as [ev|]; [|done]. simpl.
  destruct (py_float py f5) as [bs|]; [|done]. simpl.
  intros [= <- <-]. by eexists _, info.
Qed.

(** Whether a row is accepted depends on the registry only. *)
Lemma domain_from_row_Raise st st' row e :
  DOMAINS st' = DOMAINS st →
  domain_from_row py st row = Raise e → domain_from_row py st' row = Raise e.
Proof.
  unfold domain_from_row. intros ->.
  destruct (drop _ _) as [|f1 [|f2 [|f3 [|f4 [|f5 [|f6 [|f7 [|f8 [|f9 [|? ?]]]]]]]]]];
    try done.
  destruct (DOMAINS st !! f7) as [info|]; [|done].
  destruct (py_int py f2) as [s|]; [|done]. simpl.
  destruct (py_int py f3) as [e'|]; [|done]. simpl.
  destruct (py_float py f4) as [ev|]; [|done]. simpl.
  by destruct (py_float py f5) as [bs|].
Qed.

(** ** [results[query].append(domain)] *)

Lemma dict_append_fresh query (r : ref) results :
  query ∉ results.*1 → dict_append query r results = results ++ [(query, [r])].
Proof.
  induction results as [|[k vs] results IH]; intros Hk; simpl; [done|].
  rewrite fmap_cons, not_elem_of_cons in Hk. destruct Hk as [Hne Hk].
  simpl in Hne. apply String.eqb_neq in Hne. by rewrite Hne, IH.
Qed.

Lemma dict_append_keys query (r : ref) results :
  (dict_append query r results).*1
  = if bool_decide (query ∈ results.*1) then results.*1
    else results.*1 ++ [query].
Proof.
  induction results as [|[k vs] results IH]; simpl; [done|].
  destruct (String.eqb_spec query k) as [->|Hne].
  - rewrite bool_decide_eq_true_2; [done|]. apply list_elem_of_here.
  - rewrite fmap_cons, IH. simpl.
    destruct (bool_decide (query ∈ results.*1)) eqn:E.
    + apply bool_decide_eq_true_1 in E.
      rewrite bool_decide_eq_true_2; [done|]. by apply list_elem_of_further.
    + apply bool_decide_eq_false_1 in E.
      rewrite bool_decide_eq_false_2; [done|].
      rewrite elem_of_cons. intros [?|?]; done.
Qed.

Lemma dict_append_values query (r : ref) results :
  concat (dict_append query r results).*2 ≡ₚ r :: concat results.*2.
Proof.
  induction results as [|[k vs] results IH]; simpl; [done|].
  destruct (String.eqb query k); simpl.
  - rewrite <- app_assoc. simpl.
    by rewrite <- Permutation_middle.
  - rewrite IH. by rewrite <- Permutation_middle.
Qed.

Lemma dict_append_nonempty query (r : ref) results :
  Forall (λ kv : string * list ref, kv.2 ≠ []) results →
  Forall (λ kv : string * list ref, kv.2 ≠ []) (dict_append query r results).
Proof.
  induction 1 as [|[k vs] results Hk Hrest IH]; simpl.
  { by repeat constructor. }
  destruct (String.eqb query k); constructor; try done.
  simpl. by destruct vs.
Qed.

(** ** One row *)

Lemma resolvable_grow st d (r : ref) :
  resolvable st r →
  resolvable (mkState (objects st ++ [d]) (DOMAINS st) (LOG st)) r.
Proof.
  intros (Hr & info & Hd & Ht). unfold resolvable, deref in *. simpl.
  rewrite length_app. split; [lia|]. exists info.
  by rewrite lookup_total_app_l.
Qed.

Lemma add_row_parsed st0 st query row results st' results' :
  parsed_from st0 st results →
  add_row py st query row results = (st', inl results') →
  parsed_from st0 st' results'.
Proof.
  intros (HD & HL & Hpre & Hkeys & Hne & Hnd & Hres). unfold add_row.
  destruct (domain_from_row py st row) as [[st1 r]|e] eqn:Ed.
  2:{ destruct e; intros [= <- <-]; by repeat split. }
  intros [= <- <-].
  destruct (domain_from_row_Ok _ _ _ _ Ed) as (d & info & -> & -> & Hd & Ht).
  assert (Hold : Forall (λ r : ref, (r < length (objects st))%nat)
                   (concat results.*2)).
  { eapply Forall_impl; [exact Hres|]. by intros r [_ [? _]]. }
  split; [done|]. split; [done|]. split.
  { simpl. etrans; [exact Hpre|]. by apply prefix_app_r. }
  split.
  { rewrite dict_append_keys. case_bool_decide; [done|].
    apply NoDup_app. split; [done|]. split; [|apply NoDup_singleton].
    intros k Hk Hk'. apply list_elem_of_singleton in Hk'. by subst. }
  split; [by apply dict_append_nonempty|].
  split.
  { rewrite dict_append_values. apply NoDup_cons. split; [|done].
    intros Hin. rewrite Forall_forall in Hold. apply Hold in Hin. lia. }
  rewrite dict_append_values. constructor.
  - split; [by apply prefix_length|].
    unfold resolvable, deref. simpl. rewrite length_app. simpl.
    split; [lia|]. exists info.
    rewrite list_lookup_total_middle by done. done.
  - eapply Forall_impl; [exact Hres|]. intros r [? ?].
    split; [done|]. by apply resolvable_grow.
Qed.

Lemma add_row_raise st query row results st' e :
  add_row py st query row results = (st', inr e) →
  st' = st ∧ domain_from_row py st row = Raise e ∧ ∀ msg, e ≠ ValueError msg.
Proof.
  unfold add_row.
  destruct (domain_from_row py st row) as [[st1 r]|e']; [done|].
  destruct e'; intros [= <- <-]; by repeat split.
Qed.

Lemma add_row_skip st query row results msg :
  domain_from_row py st row = Raise (ValueError msg) →
  add_row py st query row results = (st, inl results).
Proof. unfold add_row. by intros ->. Qed.

(** ** The loops *)

Lemma parse_cdsearch_loop_parsed st0 handle : ∀ st results st' results',
  parsed_from st0 st results →
  parse_cdsearch_loop py st handle results = (st', inl results') →
  parsed_from st0 st' results'.
Proof.
  induction handle as [|row handle IH]; intros st results st' results' Hinv;
    simpl.
  { by intros [= <- <-]. }
  destruct (negb (String.prefix "Q#" row) || isspace row); [by apply IH|].
  destruct (cdsearch_query py row) as [query|]; [|done].
  destruct (add_row py st query row results) as [st1 [results1|e]] eqn:Ea;
    [|done].
  apply IH. by eapply add_row_parsed.
Qed.

Lemma rpsbproc_rows_parsed st0 query rows : ∀ st results st' results',
  parsed_from st0 st results →
  rpsbproc_rows py st query rows results = (st', inl results') →
  parsed_from st0 st' results'.
Proof.
  induction rows as [|row rows IH]; intros st results st' results' Hinv; simpl.
  { by intros [= <- <-]. }
  destruct (add_row py st query row results) as [st1 [results1|e]] eqn:Ea;
    [|done].
  apply IH. by eapply add_row_parsed.
Qed.

Lemma rpsbproc_matches_parsed st0 matches : ∀ st results st' results',
  parsed_from st0 st results →
  rpsbproc_matches py st matches results = (st', inl results') →
  parsed_from st0 st' results'.
Proof.
  induction matches as [|[query block] matches IH];
    intros st results st' results' Hinv; simpl.
  { by intros [= <- <-]. }
  destruct (rpsbproc_rows py st query (split_on newline block) results)
    as [st1 [results1|e]] eqn:Er; [|done].
  apply IH. by eapply rpsbproc_rows_parsed.
Qed.

Lemma parsed_from_start st : parsed_from st st [].
Proof. repeat split; try done; constructor. Qed.

(** Rows that are passed over. *)
Lemma parse_cdsearch_loop_skip handle row handle' : ∀ st results,
  (String.prefix "Q#" row = false ∨
   ∃ query msg, cdsearch_query py row = Some query ∧
                domain_from_row py st row = Raise (ValueError msg)) →
  parse_cdsearch_loop py st (handle ++ row :: handle') results
  = parse_cdsearch_loop py st (handle ++ handle') results.
Proof.
  induction handle as [|r handle IH]; intros st results Hrow.
  - simpl. rewrite isspace_irrelevant.
    destruct Hrow as [-> | (query & msg & Hq & Hd)]; [done|].
    destruct (negb (String.prefix "Q#" row)); [done|].
    by rewrite Hq, (add_row_skip _ _ _ _ msg).
  - simpl. destruct (negb (String.prefix "Q#" r) || isspace r); [by apply IH|].
    destruct (cdsearch_query py r) as [query|]; [|done].
    destruct (add_row py st query r results) as [st1 [results1|e]] eqn:Ea;
      [|done].
    apply IH. destruct Hrow as [?|(q & msg & Hq & Hd)]; [by left|].
    right. exists q, msg. split; [done|].
    apply (domain_from_row_Raise st); [|done].
    unfold add_row in Ea.
    destruct (domain_from_row py st r) as [[st2 r2]|e] eqn:Ed.
    + injection Ea as <- _.
      by destruct (domain_from_row_Ok _ _ _ _ Ed) as (? & ? & -> & _).
    + destruct e; by injection Ea as <- _.
Qed.

(** The rows of a handle are read one after the other: the second part of a
    handle is read in the state and with the mapping the first part leaves,
    unless the first part ends in an exception. *)
Lemma parse_cdsearch_loop_app handle handle' : ∀ st results,
  parse_cdsearch_loop py st (handle ++ handle') results
  = match parse_cdsearch_loop py st handle results with
    | (st1, inl results1) => parse_cdsearch_loop py st1 handle' results1
    | (st1, inr e) => (st1, inr e)
    end.
Proof.
  induction handle as [|r handle IH]; intros st results; [done|].
  simpl. destruct (negb (String.prefix "Q#" r) || isspace r); [by apply IH|].
  destruct (cdsearch_query py r) as [query|]; [|done].
  destruct (add_row py st query r results) as [st1 [results1|e]]; [|done].
  apply IH.
Qed.
End Parse.

(** ** No KeyError on hits the registry resolves *)

Lemma resolvable_only_ends hits st st' (r : ref) :
  only_ends_of hits st st' → resolvable st r → resolvable st' r.
Proof.
  intros (HD & Hlen & Hsame & _) (Hr & info & Hd & Ht).
  destruct (Hsame r) as (_ & Htype & Hdom & _).
  split; [by rewrite Hlen|]. exists info. by rewrite HD, Hdom, Htype.
Qed.

Lemma is_fragmented_no_KeyError st (one two : ref) coverage_pct tolerance_pct k :
  resolvable st one →
  is_fragmented_domain st one two coverage_pct tolerance_pct
  ≠ Raise (KeyError k).
Proof.
  intros (_ & info & Hd & _). unfold is_fragmented_domain, DOMAINS_get.
  destruct (negb _); [done|]. rewrite Hd. simpl.
  destruct (float_of_int (info_length info)) as [f|e] eqn:Ef; simpl.
  - unfold Domain_len.
    destruct (end_ (deref st one) - start (deref st one) <? 0); [done|].
    simpl.
    by destruct (end_ (deref st two) - start (deref st two) <? 0).
  - unfold float_of_int in Ef.
    destruct (binary_normalize _ _ _ _ _); congruence.
Qed.

Lemma choose_no_KeyError st (group : list ref) by_ k :
  Forall (resolvable st) group →
  choose_representative_domain st group by_ ≠ Raise (KeyError k).
Proof.
  intros Hres. unfold choose_representative_domain, sorted.
  destruct (key_functions st by_) as [[key reverse_]|] eqn:Ek; [|done].
  destruct (mapM key group) as [keys|e] eqn:Em; simpl.
  { by destruct (sorted_decorated _ _ _). }
  intros [= ->]. apply mapM_Raise_inv in Em as (d & Hd & Hkey).
  rewrite Forall_forall in Hres. destruct (Hres d Hd) as (_ & info & Hi & _).
  unfold key_functions in Ek.
  destruct (String.eqb by_ "bitscore").
  - injection Ek as <- _. unfold normalized_bitscore, DOMAINS_get in Hkey.
    rewrite Hi in Hkey. simpl in Hkey. unfold float_truediv in Hkey.
    by destruct (_ =? _)%float.
  - destruct (String.eqb by_ "evalue"); [by injection Ek as <- _|].
    destruct (String.eqb by_ "length"); [by injection Ek as <- _|done].
Qed.

Lemma scan_loop_no_KeyError total coverage_pct tolerance_pct fuel k :
  ∀ s s' e,
  Forall (resolvable (scan_st s)) (scan_domains s) →
  scan_loop fuel total coverage_pct tolerance_pct s = Some (s', Raised e) →
  e ≠ KeyError k.
Proof.
  induction fuel as [|fuel IH]; intros s s' e Hres H; [discriminate|].
  rewrite scan_loop_S in H.
  destruct (scan_step total coverage_pct tolerance_pct s)
    as [s1|[s1 x1]] eqn:E.
  - apply (IH _ _ _) in H; [done|].
    destruct (scan_step_continue _ _ _ _ _ E)
      as (pre & p & c & rest & Hl & _ & _ & [->|(_ & -> & -> & _)]);
      [|done].
    simpl. rewrite Hl in Hres.
    assert (Hkeep : Forall (resolvable (scan_st s)) (pre ++ p :: rest)).
    { apply Forall_app in Hres as [? [? [_ ?]%Forall_cons]%Forall_cons].
      apply Forall_app. split; [done|]. by constructor. }
    eapply Forall_impl; [exact Hkeep|]. intros r.
    apply (resolvable_only_ends [p]). apply set_end_only_ends.
    apply list_elem_of_here.
  - injection H as <- ->.
    destruct (scan_step_exit _ _ _ _ _ _ E)
      as (_ & _ & _ & _ & [(-> & _)|(p & c & _ & _ & [Hp _] & Hf)]); [done|].
    intros ->. revert Hf. apply is_fragmented_no_KeyError.
    rewrite Forall_forall in Hres. apply Hres.
    by eapply list_elem_of_lookup_2.
Qed.

Lemma filter_domains_no_KeyError st (domains : list ref) by_
    coverage_pct tolerance_pct st' e k :
  Forall (resolvable st) domains →
  filter_domains st domains by_ coverage_pct tolerance_pct
  = Some (st', Raise e) →
  e ≠ KeyError k.
Proof.
  intros Hres. unfold filter_domains.
  destruct (representatives st domains by_) as [reps|e'] eqn:Er.
  - destruct (representatives_members _ _ _ _ Er) as [Hsub _].
    destruct (merge_scan st reps coverage_pct tolerance_pct)
      as [[s [|e']]|] eqn:Es; [done| |done].
    intros [= <- <-]. unfold merge_scan in Es.
    eapply scan_loop_no_KeyError; [|exact Es]. simpl.
    rewrite Forall_forall in Hres. apply Forall_forall.
    intros r Hr. by apply Hres, Hsub.
  - intros [= <- <-]. intros ->.
    apply mapM_Raise_inv in Er as (g & Hg & Hc).
    revert Hc. apply choose_no_KeyError.
    rewrite Forall_forall in Hres. apply Forall_forall. intros r Hr.
    apply Hres. rewrite <- (groups_perm st domains).
    apply list_elem_of_In, in_concat. exists g.
    split; by apply list_elem_of_In.
Qed.

Lemma filter_results_loop_no_KeyError by_ coverage_pct tolerance_pct
    (items : dict (list ref)) k : ∀ st filtered st' e,
  Forall (resolvable st) (concat items.*2) →
  filter_results_loop st items filtered by_ coverage_pct tolerance_pct
  = Some (st', Raise e) →
  e ≠ KeyError k.
Proof.
  induction items as [|[name hits] items IH]; intros st filtered st' e Hres;
    simpl; [done|].
  simpl in Hres. apply Forall_app in Hres as [Hhits Hrest].
  destruct (filter_domains st hits by_ coverage_pct tolerance_pct)
    as [[st1 [kept|e1]]|] eqn:Ef; [| |done].
  2:{ intros [= <- <-].
      exact (filter_domains_no_KeyError _ _ _ _ _ _ _ k Hhits Ef). }
  destruct (filter_domains_frame _ _ _ _ _ _ _ Ef) as (Hfr & _).
  apply IH. eapply Forall_impl; [exact Hrest|]. intros r Hr.
  apply (resolvable_only_ends hits st); [|done].
  by destruct kept.
Qed.

(** ** The extras on the parsers *)

(** X11.  [domain_from_row] rejects with ValueError a row that has fewer
    than nine tab-separated fields, and a row whose domain column (the third
    from the end) is not a key of [DOMAINS]; the second before any number is
    converted, so whatever the number columns hold. *)
Theorem X11_domain_from_row_rejects py st row :
  ((length (split_on tab row) < 9)%nat →
   domain_from_row py st row = Raise unpack_error) ∧
  (∀ lead f1 f2 f3 f4 f5 f6 f7 f8 f9,
     split_on tab row = lead ++ [f1; f2; f3; f4; f5; f6; f7; f8; f9] →
     DOMAINS st !! f7 = None →
     domain_from_row py st row = Raise (not_a_key_domain f7)).
Proof.
  split.
  - intros Hlen. unfold domain_from_row.
    replace (length (split_on tab row) - 9)%nat with 0%nat by lia.
    rewrite drop_0.
    destruct (split_on tab row)
      as [|f1 [|f2 [|f3 [|f4 [|f5 [|f6 [|f7 [|f8 [|f9 ?]]]]]]]]];
      try done.
    simpl in Hlen. lia.
  - intros lead f1 f2 f3 f4 f5 f6 f7 f8 f9 Hs Hd. unfold domain_from_row.
    rewrite Hs, length_app. simpl length.
    replace (length lead + 9 - 9)%nat with (length lead) by lia.
    by rewrite drop_app_length, Hd.
Qed.

Lemma X11_short_row :
  domain_from_row ascii_builtins (store []) "Q#1 - seq1" = Raise unpack_error.
Proof.
  apply (proj1 (X11_domain_from_row_rejects ascii_builtins (store [])
                  "Q#1 - seq1")).
  vm_compute. lia.
Defined.

(** X12.  [domain_from_row] reads the last nine fields only: two rows that
    end in the same nine fields give the same result, however many fields
    come before them. *)
Theorem X12_leading_fields_ignored py st row row' lead lead' nine :
  length nine = 9%nat →
  split_on tab row = lead ++ nine →
  split_on tab row' = lead' ++ nine →
  domain_from_row py st row = domain_from_row py st row'.
Proof.
  intros Hn Hr Hr'. unfold domain_from_row.
  rewrite Hr, Hr', !length_app, Hn.
  replace (length lead + 9 - 9)%nat with (length lead) by lia.
  replace (length lead' + 9 - 9)%nat with (length lead') by lia.
  by rewrite !drop_app_length.
Qed.

Lemma X12_row_without_leading_fields :
  domain_from_row ascii_builtins (store []) (example_rows !!! 1%nat)
  = domain_from_row ascii_builtins (store [])
      ("225858" +:+ String tab "9" +:+ String tab "1134" +:+ String tab "0"
       +:+ String tab "696" +:+ String tab "COG3321"
       +:+ String tab "Condensation" +:+ String tab "-"
       +:+ String tab "cl09938").
Proof.
  apply (X12_leading_fields_ignored ascii_builtins (store []) _ _
           ["Q#1 - seq1"; "specific"] []
           ["225858"; "9"; "1134"; "0"; "696"; "COG3321"; "Condensation";
            "-"; "cl09938"]); reflexivity.
Defined.

(** X13.  What [parse_cdsearch] and [parse_rpsbproc] return: a mapping with
    distinct keys and no empty list (a query appears once a row of it has
    been accepted), whose hits are pairwise distinct new objects, each with a
    domain key that [DOMAINS] resolves and with the type [DOMAINS] gives for
    it; the objects that were there, the registry and the log are as
    before. *)
Theorem X13_parsed_mapping py st handle :
  (∀ st' results,
     parse_cdsearch py st handle = (st', inl results) →
     parsed_from st st' results) ∧
  (∀ st' results,
     parse_rpsbproc py st handle = (st', inl results) →
     parsed_from st st' results).
Proof.
  split; intros st' results H.
  - eapply parse_cdsearch_loop_parsed; [apply parsed_from_start|exact H].
  - eapply rpsbproc_matches_parsed; [apply parsed_from_start|exact H].
Qed.

Lemma X13_example_rows :
  parsed_from (store [hit 0 400])
    (store [hit 0 400;
            mkDomain "225858" "C" "Condensation" 9 1134 0%float 696%float
              "-" "COG3321" "cl09938"])
    [("seq1", [1%nat])].
Proof.
  apply (proj1 (X13_parsed_mapping ascii_builtins (store [hit 0 400])
                  example_rows)).
  by vm_compute.
Defined.

(** X14.  [parse_cdsearch] passes over a row that does not start with "Q#",
    and over a "Q#" row in which the query pattern matches and that
    [domain_from_row] rejects with ValueError (too few fields, a domain that
    is not in [DOMAINS], a number that does not convert): the result is the
    one for the handle without that row.  (A "Q#" row in which the pattern
    does not match is not passed over, see X15.) *)
Theorem X14_rejected_rows_are_skipped py st handle row handle' :
  (String.prefix "Q#" row = false ∨
   ∃ query msg, cdsearch_query py row = Some query ∧
                domain_from_row py st row = Raise (ValueError msg)) →
  parse_cdsearch py st (handle ++ row :: handle')
  = parse_cdsearch py st (handle ++ handle').
Proof. apply parse_cdsearch_loop_skip. Qed.

Lemma X14_unknown_domain_row :
  parse_cdsearch ascii_builtins (store [])
    (["# comment"; example_rows !!! 1%nat] ++ example_rows !!! 2%nat :: [])
  = parse_cdsearch ascii_builtins (store [])
      (["# comment"; example_rows !!! 1%nat] ++ []).
Proof.
  apply (X14_rejected_rows_are_skipped ascii_builtins (store [])
           ["# comment"; example_rows !!! 1%nat] (example_rows !!! 2%nat) []).
  right. exists "seq1", "'Unknown' not a synthaser key domain".
  split; reflexivity.
Defined.

(** X15.  A row that starts with "Q#" but in which the query pattern finds
    nothing ends [parse_cdsearch] with the AttributeError of
    [None.group(1)], before [domain_from_row] is tried: it does so whether
    or not [domain_from_row] would accept the row, whatever rows follow, and
    after any rows that have been read without an exception.  The mapping
    built from those rows is not returned; the objects created for them
    stay. *)
Theorem X15_query_pattern_miss_is_fatal py st handle row handle' st1 results :
  parse_cdsearch py st handle = (st1, inl results) →
  String.prefix "Q#" row = true →
  cdsearch_query py row = None →
  parse_cdsearch py st (handle ++ row :: handle')
  = (st1, inr (AttributeError "'NoneType' object has no attribute 'group'")).
Proof.
  unfold parse_cdsearch. intros Hpre Hrow Hq.
  rewrite parse_cdsearch_loop_app, Hpre. simpl.
  rewrite isspace_irrelevant, Hrow. simpl. by rewrite Hq.
Qed.

(** After an accepted row, the row "Q#1 - seq1" (no tab, so that the
    pattern finds nothing; [domain_from_row] would reject it with
    ValueError): the hit of the first row has been created, and no mapping
    is returned. *)
Lemma X15_row_without_query :
  parse_cdsearch ascii_builtins (store [])
    ([example_rows !!! 1%nat] ++ "Q#1 - seq1" :: [example_rows !!! 1%nat])
  = (store [mkDomain "225858" "C" "Condensation" 9 1134 0%float 696%float
              "-" "COG3321" "cl09938"],
     inr (AttributeError "'NoneType' object has no attribute 'group'")).
Proof.
  apply (X15_query_pattern_miss_is_fatal ascii_builtins (store [])
           [example_rows !!! 1%nat] "Q#1 - seq1" [example_rows !!! 1%nat]
           _ [("seq1", [0%nat])]); by vm_compute.
Defined.

(** ** [parse]: the parsers followed by [filter_results] *)

Lemma domain_from_row_raise_source py st row e :
  domain_from_row py st row = Raise e →
  (∃ msg, e = ValueError msg) ∨
  (∃ s, py_int py s = Raise e) ∨ (∃ s, py_float py s = Raise e).
Proof.
  unfold domain_from_row.
  destruct (drop _ _)
    as [|f1 [|f2 [|f3 [|f4 [|f5 [|f6 [|f7 [|f8 [|f9 [|]]]]]]]]]];
    try (intros [= <-]; left; by eexists).
  destruct (DOMAINS st !! f7); [|intros [= <-]; left; by eexists].
  destruct (py_int py f2) eqn:E1; simpl; [|intros [= <-]; eauto].
  destruct (py_int py f3) eqn:E2; simpl; [|intros [= <-]; eauto].
  destruct (py_float py f4) eqn:E3; simpl; [|intros [= <-]; eauto].
  destruct (py_float py f5) eqn:E4; simpl; [done|intros [= <-]; eauto].
Qed.

Lemma add_row_raise_source py st query row results st' e :
  add_row py st query row results = (st', inr e) →
  (∃ s, py_int py s = Raise e) ∨ (∃ s, py_float py s = Raise e).
Proof.
  intros (_ & Hd & Hv)%add_row_raise.
  apply domain_from_row_raise_source in Hd as [[msg ->]|Hd]; [|done].
  by destruct (Hv msg).
Qed.

Lemma parse_cdsearch_loop_raise_source py handle : ∀ st results st' e,
  parse_cdsearch_loop py st handle results = (st', inr (Exn e)) →
  (∃ s, py_int py s = Raise e) ∨ (∃ s, py_float py s = Raise e).
Proof.
  induction handle as [|row handle IH]; intros st results st' e; simpl;
    [done|].
  destruct (negb (String.prefix "Q#" row) || isspace row); [by apply IH|].
  destruct (cdsearch_query py row) as [query|]; [|done].
  destruct (add_row py st query row results) as [st1 [results1|e1]] eqn:Ea;
    [by apply IH|].
  intros [= <- <-]. by eapply add_row_raise_source.
Qed.

Lemma rpsbproc_rows_raise_source py query rows : ∀ st results st' e,
  rpsbproc_rows py st query rows results = (st', inr (Exn e)) →
  (∃ s, py_int py s = Raise e) ∨ (∃ s, py_float py s = Raise e).
Proof.
  induction rows as [|row rows IH]; intros st results st' e; simpl; [done|].
  destruct (add_row py st query row results) as [st1 [results1|e1]] eqn:Ea;
    [by apply IH|].
  intros [= <- <-]. by eapply add_row_raise_source.
Qed.

Lemma rpsbproc_matches_raise_source py matches : ∀ st results st' e,
  rpsbproc_matches py st matches results = (st', inr (Exn e)) →
  (∃ s, py_int py s = Raise e) ∨ (∃ s, py_float py s = Raise e).
Proof.
  induction matches as [|[query block] matches IH];
    intros st results st' e; simpl; [done|].
  destruct (rpsbproc_rows py st query (split_on newline block) results)
    as [st1 [results1|e1]] eqn:Er; [by apply IH|].
  intros [= <- ->]. by eapply rpsbproc_rows_raise_source.
Qed.

Lemma rpsbproc_matches_no_AttributeError py matches : ∀ st results st' msg,
  rpsbproc_matches py st matches results ≠ (st', inr (AttributeError msg)).
Proof.
  induction matches as [|[query block] matches IH];
    intros st results st' msg; simpl; [done|].
  destruct (rpsbproc_rows py st query (split_on newline block) results)
    as [st1 [results1|e1]] eqn:Er; [by apply IH|].
  intros [= <- ->]. revert st results Er. clear IH.
  induction (split_on newline block) as [|row rows IHr];
    intros st results; simpl; [done|].
  destruct (add_row py st query row results) as [st2 [results2|e2]];
    [by apply IHr|done].
Qed.

Lemma Forall2_kept_keys (items new : dict (list ref)) :
  Forall2 (λ item kept : string * list ref,
             kept.1 = item.1 ∧ (kept.2 = [] ↔ item.2 = [])) items new →
  new.*1 = items.*1 ∧
  (Forall (λ kv : string * list ref, kv.2 ≠ []) items →
   Forall (λ kv : string * list ref, kv.2 ≠ []) new ∧
   filter (λ item : string * list ref, item.2 = []) items = []).
Proof.
  induction 1 as [|item kept items new [Hk Hv] _ [IHk IHv]]; [done|].
  split; [rewrite !fmap_cons; by rewrite Hk, IHk|].
  intros [Hne Hrest]%Forall_cons. destruct (IHv Hrest) as [IH1 IH2].
  split; [constructor; [tauto|done]|].
  rewrite (filter_cons (λ item : string * list ref, item.2 = [])).
  by case_decide.
Qed.

(** Filtering what a parser has built. *)
Lemma filter_parsed st0 st1 results by_ coverage_pct tolerance_pct :
  parsed_from st0 st1 results →
  ∃ st' r,
    filter_results st1 results by_ coverage_pct tolerance_pct = Some (st', r) ∧
    match r with
    | Ok filtered =>
        filtered.*1 = results.*1 ∧ NoDup filtered.*1 ∧
        Forall (λ kv : string * list ref, kv.2 ≠ []) filtered ∧
        LOG st' = LOG st0 ∧ DOMAINS st' = DOMAINS st0
    | Raise e => ∀ k, e ≠ KeyError k
    end.
Proof.
  intros (HD & HL & _ & Hnd & Hne & _ & Hres).
  destruct (filter_results_loop_spec by_ coverage_pct tolerance_pct results
              st1 [] Hnd) as (st' & r & Hrun & Hfr & Hr).
  exists st', r. split; [exact Hrun|].
  destruct r as [filtered|e].
  - destruct Hr as (new & -> & Hf2 & Hlog). simpl.
    destruct (Forall2_kept_keys _ _ Hf2) as [Hkeys Hv].
    destruct (Hv Hne) as [Hnew Hnone].
    rewrite Hnone in Hlog. simpl in Hlog. rewrite app_nil_r in Hlog.
    rewrite Hkeys. repeat split; try done; try congruence.
    destruct Hfr as [-> _]. done.
  - intros k. eapply filter_results_loop_no_KeyError; [|exact Hrun].
    eapply Forall_impl; [exact Hres|]. by intros r [_ ?].
Qed.

(** X16.  When [parse] returns a mapping, the mode was 'remote' or 'local',
    the keys are distinct and no list is empty, so that [filter_results]
    never reaches its "No domains remain" message under [parse]: the log is
    the one before the call, and so is [DOMAINS]. *)
Theorem X16_parse_result_has_no_empty_list py st handle mode by_
    coverage_pct tolerance_pct st' filtered :
  parse py st handle mode by_ coverage_pct tolerance_pct
  = Some (st', inl filtered) →
  (mode = "remote" ∨ mode = "local") ∧
  NoDup filtered.*1 ∧
  Forall (λ kv : string * list ref, kv.2 ≠ []) filtered ∧
  LOG st' = LOG st ∧ DOMAINS st' = DOMAINS st.
Proof.
  unfold parse.
  assert (Hparsed : ∀ st1 results,
    parsed_from st st1 results →
    match filter_results st1 results by_ coverage_pct tolerance_pct with
    | None => None
    | Some (st'', Ok filtered) => Some (st'', inl filtered)
    | Some (st'', Raise e) => Some (st'', inr (Exn e))
    end = Some (st', (inl filtered : dict (list ref) + py_exn)) →
    NoDup filtered.*1 ∧
    Forall (λ kv : string * list ref, kv.2 ≠ []) filtered ∧
    LOG st' = LOG st ∧ DOMAINS st' = DOMAINS st).
  { intros st1 results Hp.
    destruct (filter_parsed _ _ _ by_ coverage_pct tolerance_pct Hp)
      as (st2 & r & -> & Hr).
    destruct r as [out|e]; [|done]. intros [= <- <-]. tauto. }
  destruct (String.eqb mode "remote") eqn:Er.
  - apply String.eqb_eq in Er.
    destruct (parse_cdsearch py st handle) as [st1 [results|e]] eqn:Ep;
      [|done].
    intros H. split; [by left|]. eapply Hparsed; [|exact H].
    eapply parse_cdsearch_loop_parsed; [apply parsed_from_start|exact Ep].
  - destruct (String.eqb mode "local") eqn:El; [|done].
    apply String.eqb_eq in El.
    destruct (parse_rpsbproc py st handle) as [st1 [results|e]] eqn:Ep;
      [|done].
    intros H. split; [by right|]. eapply Hparsed; [|exact H].
    eapply rpsbproc_matches_parsed; [apply parsed_from_start|exact Ep].
Qed.

Lemma X16_example_rows :
  ("remote" = "remote" ∨ "remote" = "local") ∧
  NoDup [("seq1", [1%nat])].*1 ∧
  Forall (λ kv : string * list ref, kv.2 ≠ []) [("seq1", [1%nat])] ∧
  LOG (store [hit 0 400;
              mkDomain "225858" "C" "Condensation" 9 1134 0%float 696%float
                "-" "COG3321" "cl09938"])
  = LOG (store [hit 0 400]) ∧
  DOMAINS (store [hit 0 400;
                  mkDomain "225858" "C" "Condensation" 9 1134 0%float
                    696%float "-" "COG3321" "cl09938"])
  = DOMAINS (store [hit 0 400]).
Proof.
  apply (X16_parse_result_has_no_empty_list ascii_builtins
           (store [hit 0 400]) example_rows "remote" "evalue"
           0.5%float 0.1%float).
  by vm_compute.
Defined.

(** X17.  [parse] always returns or raises (the scan of [filter_domains]
    ends), and it never raises KeyError unless [int] or [float] does: every
    hit the parsers build has a domain that [DOMAINS] resolves, so the two
    subscriptions [DOMAINS[...]] of the filter find their key.  In 'local'
    mode it cannot raise AttributeError either. *)
Theorem X17_parse_never_raises_KeyError py st handle mode by_
    coverage_pct tolerance_pct :
  (∀ s k, py_int py s ≠ Raise (KeyError k)) →
  (∀ s k, py_float py s ≠ Raise (KeyError k)) →
  ∃ st' r,
    parse py st handle mode by_ coverage_pct tolerance_pct = Some (st', r) ∧
    (∀ k, r ≠ inr (Exn (KeyError k))) ∧
    (mode = "local" → ∀ msg, r ≠ inr (AttributeError msg)).
Proof.
  intros Hint Hfloat. unfold parse.
  assert (Hsrc : ∀ e k,
    (∃ s, py_int py s = Raise e) ∨ (∃ s, py_float py s = Raise e) →
    e ≠ KeyError k).
  { intros e k [[s Hs]|[s Hs]] ->; [by eapply Hint|by eapply Hfloat]. }
  assert (Hparsed : ∀ st1 results,
    parsed_from st st1 results →
    ∃ st' r,
      match filter_results st1 results by_ coverage_pct tolerance_pct with
      | None => None
      | Some (st'', Ok filtered) =>
          Some (st'', (inl filtered : dict (list ref) + py_exn))
      | Some (st'', Raise e) => Some (st'', inr (Exn e))
      end = Some (st', r) ∧
      (∀ k, r ≠ inr (Exn (KeyError k))) ∧
      (∀ msg, r ≠ inr (AttributeError msg))).
  { intros st1 results Hp.
    destruct (filter_parsed _ _ _ by_ coverage_pct tolerance_pct Hp)
      as (st2 & r & -> & Hr).
    destruct r as [out|e]; eexists _, _; (split; [done|]); split; try done.
    intros k [= ->]. by eapply Hr. }
  destruct (String.eqb mode "remote") eqn:Er.
  - apply String.eqb_eq in Er. subst mode.
    destruct (parse_cdsearch py st handle) as [st1 [results|e]] eqn:Ep.
    + destruct (Hparsed st1 results) as (st' & r & Hrun & Hk & _).
      { eapply parse_cdsearch_loop_parsed; [apply parsed_from_start|].
        exact Ep. }
      exists st', r. by repeat split.
    + exists st1, (inr e). repeat split; [|done].
      intros k [= ->]. apply parse_cdsearch_loop_raise_source in Ep.
      by eapply Hsrc.
  - destruct (String.eqb mode "local") eqn:El.
    + destruct (parse_rpsbproc py st handle) as [st1 [results|e]] eqn:Ep.
      * destruct (Hparsed st1 results) as (st' & r & Hrun & Hk & Ha).
        { eapply rpsbproc_matches_parsed; [apply parsed_from_start|].
          exact Ep. }
        exists st', r. by repeat split.
      * exists st1, (inr e). repeat split.
        -- intros k [= ->]. apply rpsbproc_matches_raise_source in Ep.
           by eapply Hsrc.
        -- intros _ msg [= ->].
           by eapply rpsbproc_matches_no_AttributeError.
    + eexists _, _. repeat split; [done|].
      intros ->. done.
Qed.

Lemma X17_example_rows :
  ∃ st' r,
    parse ascii_builtins (store [hit 0 400]) example_rows "remote" "evalue"
      0.5%float 0.1%float = Some (st', r) ∧
    (∀ k, r ≠ inr (Exn (KeyError k))) ∧
    ("remote" = "local" → ∀ msg, r ≠ inr (AttributeError msg)).
Proof.
  apply (X17_parse_never_raises_KeyError ascii_builtins (store [hit 0 400])
           example_rows "remote" "evalue" 0.5%float 0.1%float).
  - intros s k. simpl. unfold ascii_int.
    destruct s; [done|]. by destruct (digits_value _ _).
  - intros s k. simpl. unfold ascii_float, ascii_int.
    destruct s; [done|]. destruct (digits_value _ _); [|done].
    simpl. unfold float_of_int. by destruct (binary_normalize _ _ _ _ _).
Defined.

(** ** The result of [filter_domains] depends on its hits only *)

Lemma mapM_ext_in {A B : Type} (f g : A → result B) (l : list A) :
  (∀ x, x ∈ l → f x = g x) → mapM f l = mapM g l.
Proof.
  induction l as [|x l IH]; intros H; [done|].
  simpl. rewrite (H x) by apply list_elem_of_here.
  rewrite IH; [done|]. intros y Hy. by apply H, list_elem_of_further.
Qed.

Lemma agree_on_sym hits st1 st2 : agree_on hits st1 st2 → agree_on hits st2 st1.
Proof.
  intros [HD H]. split; [done|]. intros r Hr.
  destruct (H r Hr) as (? & ? & ?). by repeat split.
Qed.

Lemma agree_on_mono hits hits' st1 st2 :
  hits' ⊆ hits → agree_on hits st1 st2 → agree_on hits' st1 st2.
Proof. intros Hsub [HD H]. split; [done|]. intros r Hr. by apply H, Hsub. Qed.

Lemma agree_on_set_end hits st1 st2 (p : ref) e :
  agree_on hits st1 st2 → p ∈ hits →
  agree_on hits (set_end st1 p e) (set_end st2 p e).
Proof.
  intros [HD H] Hp. split; [done|]. intros r Hr.
  destruct (H r Hr) as (Hr1 & Hr2 & Heq).
  destruct (H p Hp) as (Hp1 & Hp2 & Hpeq).
  unfold set_end, deref in *. simpl. rewrite !length_insert.
  split; [done|]. split; [done|].
  destruct (decide (r = p)) as [->|Hne].
  - rewrite !list_lookup_total_insert_eq by done. by rewrite Hpeq.
  - by rewrite !list_lookup_total_insert_ne.
Qed.

Lemma sorted_by_start_ext st1 st2 (domains : list ref) :
  (∀ r, r ∈ domains → deref st1 r = deref st2 r) →
  sorted_by_start st1 domains = sorted_by_start st2 domains.
Proof.
  intros H. unfold sorted_by_start. do 2 f_equal.
  apply list_fmap_ext. intros i d Hd.
  rewrite H; [done|]. by eapply list_elem_of_lookup_2.
Qed.

Lemma group_loop_ext st1 st2 (sorted_domains : list ref) : ∀ group border,
  (∀ r, r ∈ sorted_domains → deref st1 r = deref st2 r) →
  group_loop st1 group border sorted_domains
  = group_loop st2 group border sorted_domains.
Proof.
  induction sorted_domains as [|d rest IH]; intros group border H; [done|].
  simpl. rewrite (H d) by apply list_elem_of_here.
  assert (Hrest : ∀ r, r ∈ rest → deref st1 r = deref st2 r).
  { intros r Hr. by apply H, list_elem_of_further. }
  by rewrite !IH.
Qed.

Lemma group_overlapping_hits_ext st1 st2 (domains : list ref) :
  (∀ r, r ∈ domains → deref st1 r = deref st2 r) →
  group_overlapping_hits st1 domains = group_overlapping_hits st2 domains.
Proof.
  intros H. unfold group_overlapping_hits.
  rewrite <- (sorted_by_start_ext st1 st2) by done.
  pose proof (sorted_by_start_perm st1 domains) as Hp.
  destruct (sorted_by_start st1 domains) as [|first rest]; [done|].
  assert (H' : ∀ r, r ∈ first :: rest → deref st1 r = deref st2 r).
  { intros r Hr. apply H. by rewrite <- Hp. }
  rewrite <- (H' first) by apply list_elem_of_here.
  apply group_loop_ext. intros r Hr. by apply H', list_elem_of_further.
Qed.

Lemma choose_ext st1 st2 (group : list ref) by_ :
  DOMAINS st1 = DOMAINS st2 →
  (∀ r, r ∈ group → deref st1 r = deref st2 r) →
  choose_representative_domain st1 group by_
  = choose_representative_domain st2 group by_.
Proof.
  intros HD H. unfold choose_representative_domain, key_functions, sorted.
  destruct (String.eqb by_ "bitscore");
    [|destruct (String.eqb by_ "evalue");
      [|destruct (String.eqb by_ "length"); [|done]]];
    (erewrite mapM_ext_in; [reflexivity|]);
    intros r Hr; simpl; unfold normalized_bitscore, DOMAINS_get;
    by rewrite ?HD, (H r Hr).
Qed.

Lemma representatives_ext st1 st2 (domains : list ref) by_ :
  DOMAINS st1 = DOMAINS st2 →
  (∀ r, r ∈ domains → deref st1 r = deref st2 r) →
  representatives st1 domains by_ = representatives st2 domains by_.
Proof.
  intros HD H. unfold representatives.
  rewrite <- (group_overlapping_hits_ext st1 st2) by done.
  apply mapM_ext_in. intros g Hg. apply choose_ext; [done|].
  intros r Hr. apply H. rewrite <- (groups_perm st1 domains).
  apply list_elem_of_In, in_concat. exists g. split; by apply list_elem_of_In.
Qed.

Lemma is_fragmented_ext st1 st2 (one two : ref) coverage_pct tolerance_pct :
  DOMAINS st1 = DOMAINS st2 →
  deref st1 one = deref st2 one → deref st1 two = deref st2 two →
  is_fragmented_domain st1 one two coverage_pct tolerance_pct
  = is_fragmented_domain st2 one two coverage_pct tolerance_pct.
Proof.
  intros HD H1 H2. unfold is_fragmented_domain, DOMAINS_get.
  by rewrite HD, H1, H2.
Qed.

(** One iteration of the loop in two states that agree on the hits. *)
Lemma scan_step_ext hits total coverage_pct tolerance_pct i domains calls
    st1 st2 :
  agree_on hits st1 st2 → Forall (.∈ hits) domains →
  match scan_step total coverage_pct tolerance_pct (mkScan i domains st1 calls),
        scan_step total coverage_pct tolerance_pct (mkScan i domains st2 calls)
  with
  | inl s1, inl s2 =>
      scan_i s1 = scan_i s2 ∧ scan_domains s1 = scan_domains s2 ∧
      scan_calls s1 = scan_calls s2 ∧
      Forall (.∈ hits) (scan_domains s1) ∧
      agree_on hits (scan_st s1) (scan_st s2)
  | inr (s1, x1), inr (s2, x2) =>
      x1 = x2 ∧ scan_domains s1 = scan_domains s2 ∧
      agree_on hits (scan_st s1) (scan_st s2)
  | _, _ => False
  end.
Proof.
  intros Hag Hin. unfold scan_step.
  destruct (negb (i <? total)%nat); [done|].
  destruct (i + 1 =? total)%nat; [done|].
  destruct (slice domains (i - 1) (i + 1)) as [|p [|c [|]]] eqn:Es; try done.
  apply slice_is_pair in Es as (pre & rest & Hl & _).
  assert (Hp : p ∈ hits ∧ c ∈ hits).
  { rewrite Hl in Hin.
    apply Forall_app in Hin as [_ [? [? _]%Forall_cons]%Forall_cons]. done. }
  destruct Hp as [Hp Hc]. destruct Hag as [HD Hder].
  destruct (Hder p Hp) as (_ & _ & Ep). destruct (Hder c Hc) as (_ & _ & Ec).
  rewrite <- (is_fragmented_ext st1 st2) by done.
  rewrite <- Ep, <- Ec.
  destruct (String.eqb _ _); [|done].
  destruct (is_fragmented_domain st1 p c coverage_pct tolerance_pct)
    as [[|]|e]; try done.
  simpl. split; [done|]. split; [done|]. split; [done|].
  split; [by apply Forall_delete|].
  by apply agree_on_set_end.
Qed.

Lemma scan_loop_ext hits total coverage_pct tolerance_pct fuel :
  ∀ i domains calls st1 st2 s1 x,
  agree_on hits st1 st2 → Forall (.∈ hits) domains →
  scan_loop fuel total coverage_pct tolerance_pct (mkScan i domains st1 calls)
  = Some (s1, x) →
  ∃ s2,
    scan_loop fuel total coverage_pct tolerance_pct
      (mkScan i domains st2 calls) = Some (s2, x) ∧
    scan_domains s2 = scan_domains s1 ∧
    agree_on hits (scan_st s1) (scan_st s2).
Proof.
  induction fuel as [|fuel IH]; intros i domains calls st1 st2 s1 x Hag Hin;
    [done|].
  rewrite !scan_loop_S.
  pose proof (scan_step_ext hits total coverage_pct tolerance_pct i domains
                calls st1 st2 Hag Hin) as Hstep.
  destruct (scan_step total coverage_pct tolerance_pct
              (mkScan i domains st1 calls)) as [[i1 d1 t1 c1]|[r1 x1]];
    destruct (scan_step total coverage_pct tolerance_pct
                (mkScan i domains st2 calls)) as [[i2 d2 t2 c2]|[r2 x2]];
    try done; simpl in Hstep.
  - destruct Hstep as (<- & <- & <- & Hin' & Hag'). by apply IH.
  - destruct Hstep as (<- & Hd & Hag'). intros [= <- <-]. by exists r2.
Qed.

Lemma filter_domains_ext st1 st2 (domains : list ref) by_
    coverage_pct tolerance_pct st1' r :
  agree_on domains st1 st2 →
  filter_domains st1 domains by_ coverage_pct tolerance_pct = Some (st1', r) →
  ∃ st2',
    filter_domains st2 domains by_ coverage_pct tolerance_pct
    = Some (st2', r) ∧
    agree_on domains st1' st2'.
Proof.
  intros Hag. unfold filter_domains.
  rewrite <- (representatives_ext st1 st2).
  2:{ by destruct Hag. }
  2:{ intros a Ha. destruct Hag as [_ H]. by destruct (H a Ha) as (_ & _ & ?). }
  destruct (representatives st1 domains by_) as [reps|e] eqn:Er.
  2:{ intros [= <- <-]. by exists st2. }
  destruct (representatives_members _ _ _ _ Er) as [Hsub _].
  unfold merge_scan.
  destruct (scan_loop _ _ _ _ (mkScan 1 reps st1 [])) as [[s1 x]|] eqn:Es;
    [|done].
  eapply scan_loop_ext in Es as (s2 & -> & Hd & Hag'); [|exact Hag|].
  2:{ apply Forall_forall. intros a Ha. by apply Hsub. }
  rewrite Hd.
  destruct x as [|e]; intros [= <- <-]; by exists (scan_st s2).
Qed.

(** ** [filter_results] on queries that share no hit *)

Section Independent.
Variables (by_ : string) (coverage_pct tolerance_pct : float).

Lemma filter_results_loop_independent st0 (items : dict (list ref)) :
  ∀ st (filtered : dict (list ref)) st' out,
  NoDup (filtered.*1 ++ items.*1) →
  NoDup (concat items.*2) →
  agree_on (concat items.*2) st0 st →
  filter_results_loop st items filtered by_ coverage_pct tolerance_pct
  = Some (st', Ok out) →
  ∃ new, out = filtered ++ new ∧
    Forall2 (λ item kept : string * list ref,
               kept.1 = item.1 ∧
               ∃ st1,
                 filter_domains st0 item.2 by_ coverage_pct tolerance_pct
                 = Some (st1, Ok kept.2) ∧
                 ∀ r, r ∈ item.2 → deref st' r = deref st1 r)
            items new.
Proof.
  induction items as [|[name hits] items IH];
    intros st filtered st' out Hnd Hhits Hag.
  { simpl. intros [= <- <-]. exists []. by rewrite app_nil_r. }
  simpl filter_results_loop.
  destruct (filter_domains st hits by_ coverage_pct tolerance_pct)
    as [[st1 [kept|e]]|] eqn:Ef; [|done..].
  simpl in Hhits, Hag. apply NoDup_app in Hhits as (_ & Hdisj & Hrest).
  destruct (filter_domains_frame _ _ _ _ _ _ _ Ef) as (Hfr & _).
  destruct (filter_domains_ext st st0 hits by_ coverage_pct tolerance_pct
              st1 (Ok kept)) as (st0' & Hf0 & Hag1); [|exact Ef|].
  { apply agree_on_sym. eapply agree_on_mono; [|exact Hag].
    intros a Ha. apply elem_of_app. by left. }
  rewrite fmap_cons in Hnd. simpl in Hnd.
  assert (Hfresh : name ∉ filtered.*1).
  { apply NoDup_app in Hnd as (_ & Hd & _). intros Hin.
    apply (Hd _ Hin). apply list_elem_of_here. }
  rewrite dict_set_fresh by done.
  set (st2 := match kept with
              | [] => log_error st1 (no_domains_message name)
              | _ => st1
              end).
  assert (Hfr2 : only_ends_of hits st st2).
  { subst st2. destruct kept; [|done]. exact Hfr. }
  assert (Hder2 : ∀ a, deref st2 a = deref st1 a).
  { intros a. subst st2. by destruct kept. }
  intros Hrun.
  destruct (filter_results_loop_spec by_ coverage_pct tolerance_pct items st2
              (filtered ++ [(name, kept)])) as (st'' & r & Hr & Hfr' & _).
  { rewrite fmap_app, <- app_assoc. done. }
  rewrite Hrun in Hr. injection Hr as <- <-.
  destruct (IH st2 (filtered ++ [(name, kept)]) st' out)
    as (new & -> & HF); [|done| |exact Hrun|].
  { rewrite fmap_app, <- app_assoc. done. }
  { destruct Hag as [HD Hder]. destruct Hfr2 as (HD2 & Hlen2 & _ & Hout).
    split; [congruence|]. intros a Ha.
    destruct (Hder a) as (? & ? & ?); [apply elem_of_app; by right|].
    rewrite Hlen2, Hout; [done|]. intros Hin. by apply (Hdisj a). }
  exists ((name, kept) :: new). rewrite <- app_assoc. split; [done|].
  constructor; [|done]. split; [done|]. exists st0'. split; [done|].
  intros a Ha. simpl in Ha.
  destruct Hfr' as (_ & _ & _ & Hout'). rewrite Hout', Hder2.
  - destruct Hag1 as [_ H1]. by destruct (H1 a Ha) as (_ & _ & ?).
  - intros Hin. by apply (Hdisj a).
Qed.

End Independent.

(** X18.  When no hit object belongs to two queries, [filter_results]
    filters every query on its own: the list it stores for a query is the
    list that [filter_domains] returns for the hits of that query in the
    state before the call, and these hits end up as that call alone leaves
    them, whatever the other queries are and wherever the query stands in
    the mapping. *)
Theorem X18_queries_are_filtered_independently st (results : dict (list ref))
    by_ coverage_pct tolerance_pct st' filtered :
  NoDup results.*1 →
  NoDup (concat results.*2) →
  Forall (λ r : ref, (r < length (objects st))%nat) (concat results.*2) →
  filter_results st results by_ coverage_pct tolerance_pct
  = Some (st', Ok filtered) →
  Forall2 (λ item kept : string * list ref,
             kept.1 = item.1 ∧
             ∃ st1,
               filter_domains st item.2 by_ coverage_pct tolerance_pct
               = Some (st1, Ok kept.2) ∧
               ∀ r, r ∈ item.2 → deref st' r = deref st1 r)
          results filtered.
Proof.
  intros Hkeys Hhits Hvalid Hrun. unfold filter_results in Hrun.
  destruct (filter_results_loop_independent by_ coverage_pct tolerance_pct
              st results st [] st' filtered) as (new & -> & HF); try done.
  split; [done|]. intros r Hr. rewrite Forall_forall in Hvalid.
  by repeat split; try apply Hvalid.
Qed.

Lemma X18_two_queries :
  Forall2 (λ item kept : string * list ref,
             kept.1 = item.1 ∧
             ∃ st1,
               filter_domains two_fragment_pairs item.2 "evalue" 0.5 0.1
               = Some (st1, Ok kept.2) ∧
               ∀ r, r ∈ item.2 →
                 deref (store [hit 0 980; hit 530 980; hit 2000 2400;
                               hit 2530 2980]) r = deref st1 r)
          [("one", [0; 1; 2]%nat); ("two", [3]%nat)]
          [("one", [0; 2]%nat); ("two", [3]%nat)].
Proof.
  apply (X18_queries_are_filtered_independently two_fragment_pairs
           [("one", [0; 1; 2]%nat); ("two", [3]%nat)] "evalue" 0.5 0.1
           (store [hit 0 980; hit 530 980; hit 2000 2400; hit 2530 2980])
           [("one", [0; 2]%nat); ("two", [3]%nat)]).
  - by apply (bool_decide_unpack (NoDup _)); vm_compute.
  - by apply (bool_decide_unpack (NoDup _)); vm_compute.
  - repeat constructor; simpl; lia.
  - by vm_compute.
Defined.
